(** * gokrb5 credentials cache (ccache) decoder

    A shallow embedding of [credentials/ccache.go]: the decoder of the MIT
    Kerberos credential cache file format, versions 1 to 4, and the query
    functions of the decoded cache.

    Conventions of the embedding.
    - A Go [[]byte] is a [byteslice]: the elements below its length and the
      elements of the backing array between its length and its capacity.
      Indexing [b[i]] is checked against the length, slicing [b[lo:hi]]
      against the capacity, as the Go language specification has it.
    - Offsets and lengths, of Go's type [int], are modelled by [Z].  The
      offset arithmetic of the file adds a 16 or 32 bit quantity to an
      offset that is at most the capacity of the buffer; if that sum wrapped
      around on a 32 bit host it would be negative, and the slice expression
      that uses it panics exactly as it does for the unwrapped sum that
      exceeds the capacity.  The decrement of the component count, the one
      other [int] operation, wraps at the width of the host's [int].
    - A run-time panic (index or slice bounds out of range, [make] with a
      negative length) is the outcome [Panic]; an [error] value returned by a
      function is part of its result.  [OutOfFuel] is the outcome of a loop
      of the model whose fuel is used up; [ParseCCache_terminates] shows that
      the decoder never ends with it.
    - Pointer parameters ([p *int], [c *CCache]) become explicit state. *)

From Stdlib Require Import ZArith List String Ascii Bool Lia.
From Stdlib Require Import Strings.Byte.
Import ListNotations.
Open Scope Z_scope.

(** ** Outcomes and the reader monad over the offset *)

Inductive outcome (A : Type) : Type :=
| Done (a : A)
| Panic
| OutOfFuel.
Arguments Done {A} a.
Arguments Panic {A}.
Arguments OutOfFuel {A}.

(** A computation over the read offset [*p]. *)
Definition M (A : Type) : Type := Z -> outcome (A * Z).

Definition ret {A} (a : A) : M A := fun p => Done (a, p).

Definition bind {A B} (m : M A) (k : A -> M B) : M B :=
  fun p => match m p with
           | Done (a, p') => k a p'
           | Panic => Panic
           | OutOfFuel => OutOfFuel
           end.

Definition panic {A} : M A := fun _ => Panic.

Notation "x <- m ;; k" := (bind m (fun x => k))
  (at level 61, m at next level, right associativity).

(** [times n m]: run [m] [n] times, collecting the results in order. *)
Fixpoint times {A} (n : nat) (m : M A) : M (list A) :=
  match n with
  | O => ret []
  | S k => x <- m ;; xs <- times k m ;; ret (x :: xs)
  end.

(** ** Byte slices *)

Record byteslice : Type := mkSlice {
  elems : list byte;   (* b[0], ..., b[len(b)-1] *)
  spare : list byte    (* the backing array between len(b) and cap(b) *)
}.

Definition len (b : byteslice) : Z := Z.of_nat (List.length (elems b)).
Definition backing (b : byteslice) : list byte := elems b ++ spare b.
Definition cap (b : byteslice) : Z := Z.of_nat (List.length (backing b)).

(** A slice whose capacity is its length, such as a slice literal. *)
Definition of_bytes (l : list byte) : byteslice := mkSlice l [].

(** [b[i]] *)
Definition index (b : byteslice) (i : Z) : outcome byte :=
  if (0 <=? i) && (i <? len b) then
    match nth_error (elems b) (Z.to_nat i) with
    | Some x => Done x
    | None => Panic
    end
  else Panic.

(** The elements of [b[lo:hi]]. *)
Definition subslice (b : byteslice) (lo hi : Z) : outcome (list byte) :=
  if (0 <=? lo) && (lo <=? hi) && (hi <=? cap b) then
    Done (firstn (Z.to_nat (hi - lo)) (skipn (Z.to_nat lo) (backing b)))
  else Panic.

(** ** Integer conversions *)

Definition byteZ (x : byte) : Z := Z.of_N (Byte.to_N x).

Definition to_uint8 (z : Z) : Z := z mod 2 ^ 8.
Definition to_uint16 (z : Z) : Z := z mod 2 ^ 16.
Definition to_int8 (z : Z) : Z := (z + 2 ^ 7) mod 2 ^ 8 - 2 ^ 7.
Definition to_int16 (z : Z) : Z := (z + 2 ^ 15) mod 2 ^ 16 - 2 ^ 15.
Definition to_int32 (z : Z) : Z := (z + 2 ^ 31) mod 2 ^ 32 - 2 ^ 31.

(** ** encoding/binary *)

Inductive ByteOrder : Type := BigEndian | LittleEndian.

Definition at_ (bs : list byte) (i : nat) : Z := byteZ (nth i bs x00).

(** [binary.BigEndian.Uint16], [binary.LittleEndian.Uint16] *)
Definition Uint16 (e : ByteOrder) (bs : list byte) : Z :=
  match e with
  | BigEndian => Z.lor (at_ bs 1) (Z.shiftl (at_ bs 0) 8)
  | LittleEndian => Z.lor (at_ bs 0) (Z.shiftl (at_ bs 1) 8)
  end.

(** [binary.BigEndian.Uint32], [binary.LittleEndian.Uint32] *)
Definition Uint32 (e : ByteOrder) (bs : list byte) : Z :=
  match e with
  | BigEndian =>
      Z.lor (Z.lor (Z.lor (at_ bs 3) (Z.shiftl (at_ bs 2) 8))
                   (Z.shiftl (at_ bs 1) 16))
            (Z.shiftl (at_ bs 0) 24)
  | LittleEndian =>
      Z.lor (Z.lor (Z.lor (at_ bs 0) (Z.shiftl (at_ bs 1) 8))
                   (Z.shiftl (at_ bs 2) 16))
            (Z.shiftl (at_ bs 3) 24)
  end.

(** ** The primitive readers

    Each builds a [bytes.Buffer] over [b[*p : *p+n]] and lets [binary.Read]
    fill the destination from exactly those [n] bytes; the error of
    [binary.Read] is dropped by the source and cannot occur, the buffer
    holding the [n] bytes that are asked for. *)

Definition read_int8 (b : byteslice) (e : ByteOrder) : M Z := fun p =>
  match subslice b p (p + 1) with
  | Done buf => Done (to_int8 (at_ buf 0), p + 1)
  | _ => Panic
  end.

Definition read_int16 (b : byteslice) (e : ByteOrder) : M Z := fun p =>
  match subslice b p (p + 2) with
  | Done buf => Done (to_int16 (Uint16 e buf), p + 2)
  | _ => Panic
  end.

Definition read_int32 (b : byteslice) (e : ByteOrder) : M Z := fun p =>
  match subslice b p (p + 4) with
  | Done buf => Done (to_int32 (Uint32 e buf), p + 4)
  | _ => Panic
  end.

Definition read_Bytes (b : byteslice) (s : Z) (e : ByteOrder) : M (list byte) :=
  fun p =>
  match subslice b p (p + s) with
  | Done buf => Done (buf, p + s)
  | _ => Panic
  end.

Definition read_data (b : byteslice) (e : ByteOrder) : M (list byte) :=
  l <- read_int32 b e ;;
  read_Bytes b l e.

(** [time.Unix(sec, 0)], kept as its number of seconds since the epoch. *)
Definition read_timestamp (b : byteslice) (e : ByteOrder) : M Z :=
  read_int32 b e.

(** ** The host platform

    [isNativeEndianLittle] looks at the memory of an [int] variable, and
    [parse_principal] decrements an [int]: both depend on the platform the
    program runs on. *)

Inductive IntSize : Type := Int32 | Int64.

Record Host : Type := mkHost {
  little_endian : bool;
  int_size : IntSize
}.

Definition int_bytes (h : Host) : nat :=
  match int_size h with Int32 => 4%nat | Int64 => 8%nat end.

(** Conversion to the platform's [int]. *)
Definition to_int (h : Host) (z : Z) : Z :=
  let w := 8 * Z.of_nat (int_bytes h) in
  (z + 2 ^ (w - 1)) mod 2 ^ w - 2 ^ (w - 1).

(** The bytes of the [int] variable [x] by increasing address. *)
Definition int_in_memory (h : Host) (x : Z) : list Z :=
  let lsb_first :=
    map (fun i => Z.land (Z.shiftr x (8 * Z.of_nat i)) 255) (seq 0 (int_bytes h)) in
  if little_endian h then lsb_first else rev lsb_first.

(** The decision of [isNativeEndianLittle] on [bp[0]]. *)
Definition probe (bp0 : Z) : bool :=
  if 0x01 =? bp0 then false
  else if Z.land 0x78 0xff =? Z.land bp0 0xff then true
  else (* Default to big endian *) false.

Definition isNativeEndianLittle (h : Host) : bool :=
  let x := 0x012345678 in
  let bp := firstn 4 (int_in_memory h x) in
  probe (nth 0 bp 0).

(** ** Data model *)

Definition error : Type := option string.

Definition errMagic : string :=
  "Invalid credential cache data. First byte does not equal 5".
Definition errVersion : string :=
  "Invalid credential cache data. Keytab version is not within 1 to 4".
Definition errNoHeader : string :=
  "Credentials cache version is not 4 so there is no header to parse.".
Definition errHeaderField : string :=
  "Invalid credential cache header found".

Record headerField : Type := mkHeaderField {
  f_tag : Z;            (* uint16 *)
  f_length : Z;         (* uint16 *)
  f_value : list byte
}.

Record header : Type := mkHeader {
  h_length : Z;         (* uint16 *)
  h_fields : list headerField
}.

(** Modelled from the spec: [types.PrincipalName] is declared outside this
    file; the decoder uses its name type and its ordered name components. *)
Record PrincipalName_t : Type := mkPrincipalName {
  NameType : Z;
  NameString : list string
}.

Record principal : Type := mkPrincipal {
  Realm : string;
  PrincipalName : PrincipalName_t
}.

(** Modelled from the spec: [types.EncryptionKey], a key type and the raw
    key bytes. *)
Record EncryptionKey : Type := mkEncryptionKey {
  KeyType : Z;
  KeyValue : list byte
}.

(** Modelled from the spec: [types.HostAddress], an address type and the
    raw address bytes. *)
Record HostAddress : Type := mkHostAddress {
  AddrType : Z;
  Address : list byte
}.

(** Modelled from the spec: [types.AuthorizationDataEntry], an AD type and
    the raw data bytes. *)
Record AuthorizationDataEntry : Type := mkAuthorizationDataEntry {
  ADType : Z;
  ADData : list byte
}.

Record credential : Type := mkCredential {
  Client : principal;
  Server : principal;
  Key : EncryptionKey;
  AuthTime : Z;
  StartTime : Z;
  EndTime : Z;
  RenewTill : Z;
  IsSKey : bool;
  TicketFlags : list byte;   (* the [Bytes] of the flags bit string *)
  Addresses : list HostAddress;
  AuthData : list AuthorizationDataEntry;
  Ticket : list byte;
  SecondTicket : list byte
}.

Record CCache : Type := mkCCache {
  Version : Z;          (* uint8 *)
  Header : header;
  DefaultPrincipal : principal;
  Credentials : list credential;
  Path : string
}.

(** Zero values. *)
Definition header0 : header := mkHeader 0 [].
Definition principal0 : principal := mkPrincipal "" (mkPrincipalName 0 []).
Definition CCache0 : CCache := mkCCache 0 header0 principal0 [] "".

Definition set_Version (c : CCache) (v : Z) : CCache :=
  mkCCache v (Header c) (DefaultPrincipal c) (Credentials c) (Path c).
Definition set_Header (c : CCache) (h : header) : CCache :=
  mkCCache (Version c) h (DefaultPrincipal c) (Credentials c) (Path c).
Definition set_DefaultPrincipal (c : CCache) (pr : principal) : CCache :=
  mkCCache (Version c) (Header c) pr (Credentials c) (Path c).
Definition append_Credential (c : CCache) (cred : credential) : CCache :=
  mkCCache (Version c) (Header c) (DefaultPrincipal c)
           (Credentials c ++ [cred]) (Path c).

(** ** The version 4 header *)

Definition headerFieldTagKDCOffset : Z := 1.

Definition valid (h : headerField) : bool :=
  if f_tag h =? headerFieldTagKDCOffset then
    if negb (f_length h =? 8) || negb (Z.of_nat (List.length (f_value h)) =? 8)
    then false
    else true
  else false.

(** One pass through the body of the loop of [parse_header], up to the
    validity test: tag, length and the value [b[*p : *p+length]]. *)
Definition read_headerField (b : byteslice) (e : ByteOrder) : M headerField :=
  tag <- read_int16 b e ;;
  length <- read_int16 b e ;;
  value <- (fun p => match subslice b p (p + to_uint16 length) with
                     | Done v => Done (v, p + to_uint16 length)
                     | _ => Panic
                     end) ;;
  ret (mkHeaderField (to_uint16 tag) (to_uint16 length) value).

(** [for *p <= int(h.length) { ... }]; the result is the field list and the
    error that left the loop early, if any. *)
Fixpoint header_fields (fuel : nat) (b : byteslice) (e : ByteOrder)
    (h_len : Z) (fields : list headerField) : M (list headerField * error) :=
  fun p =>
  match fuel with
  | O => OutOfFuel
  | S fuel' =>
      if p <=? h_len then
        match read_headerField b e p with
        | Done (f, p') =>
            if negb (valid f) then Done ((fields, Some errHeaderField), p')
            else header_fields fuel' b e h_len (fields ++ [f]) p'
        | Panic => Panic
        | OutOfFuel => OutOfFuel
        end
      else Done ((fields, None), p)
  end.

Definition parse_header (b : byteslice) (c : CCache) (e : ByteOrder)
    : M (CCache * error) :=
  if negb (Version c =? 4) then ret (c, Some errNoHeader)
  else
    l <- read_int16 b e ;;
    let h_len := to_uint16 l in
    r <- header_fields (Z.to_nat (h_len + 2)) b e h_len [] ;;
    match snd r with
    | Some err => ret (c, Some err)
    | None => ret (set_Header c (mkHeader h_len (fst r)), None)
    end.

(** ** Principals and credentials *)

(** The body of the component loop of [parse_principal]. *)
Definition read_component (b : byteslice) (e : ByteOrder) : M string :=
  l <- read_int32 b e ;;
  s <- read_Bytes b l e ;;
  ret (string_of_list_byte s).

Definition parse_principal (h : Host) (b : byteslice) (c : CCache)
    (e : ByteOrder) : M principal :=
  nt <- (if negb (Version c =? 1)
         then (* Name Type is omitted in version 1 *) read_int32 b e
         else ret 0) ;;
  nc <- read_int32 b e ;;
  let nc := if Version c =? 1 then to_int h (nc - 1) else nc in
  len_realm <- read_int32 b e ;;
  realm <- read_Bytes b len_realm e ;;
  names <- times (Z.to_nat nc) (read_component b e) ;;
  ret (mkPrincipal (string_of_list_byte realm) (mkPrincipalName nt names)).

Definition read_address (b : byteslice) (e : ByteOrder) : M HostAddress :=
  t <- read_int16 b e ;;
  a <- read_data b e ;;
  ret (mkHostAddress t a).

Definition read_authDataEntry (b : byteslice) (e : ByteOrder)
    : M AuthorizationDataEntry :=
  t <- read_int16 b e ;;
  a <- read_data b e ;;
  ret (mkAuthorizationDataEntry t a).

(** [s := make([]T, l, l); for i := range s { s[i] = m }]: [make] panics on a
    negative length. *)
Definition make_and_fill {A} (l : Z) (m : M A) : M (list A) :=
  if l <? 0 then panic else times (Z.to_nat l) m.

Definition parse_credential (h : Host) (b : byteslice) (c : CCache)
    (e : ByteOrder) : M (credential * error) :=
  client <- parse_principal h b c e ;;
  server <- parse_principal h b c e ;;
  kt <- read_int16 b e ;;
  kt <- (if Version c =? 3
         then (* repeated twice in version 3 *) read_int16 b e
         else ret kt) ;;
  kv <- read_data b e ;;
  authTime <- read_timestamp b e ;;
  startTime <- read_timestamp b e ;;
  endTime <- read_timestamp b e ;;
  renewTill <- read_timestamp b e ;;
  ik <- read_int8 b e ;;
  flags <- read_Bytes b 4 e ;;
  l <- read_int32 b e ;;
  addresses <- make_and_fill l (read_address b e) ;;
  l <- read_int32 b e ;;
  authData <- make_and_fill l (read_authDataEntry b e) ;;
  ticket <- read_data b e ;;
  secondTicket <- read_data b e ;;
  ret (mkCredential client server (mkEncryptionKey kt kv)
         authTime startTime endTime renewTill
         (if ik =? 0 then false else true)
         flags addresses authData ticket secondTicket,
       None).

(** ** ParseCCache *)

(** [for p < len(b) { ... }] *)
Fixpoint read_credentials (fuel : nat) (h : Host) (b : byteslice)
    (c : CCache) (e : ByteOrder) (p : Z) : outcome (CCache * error) :=
  match fuel with
  | O => OutOfFuel
  | S fuel' =>
      if p <? len b then
        match parse_credential h b c e p with
        | Done ((cred, None), p') =>
            read_credentials fuel' h b (append_Credential c cred) e p'
        | Done ((_, Some err), _) => Done (c, Some err)
        | Panic => Panic
        | OutOfFuel => OutOfFuel
        end
      else Done (c, None)
  end.

(** The byte order chosen for a version. *)
Definition byte_order (h : Host) (version : Z) : ByteOrder :=
  if ((version =? 1) || (version =? 2)) && isNativeEndianLittle h
  then LittleEndian else BigEndian.

Definition ParseCCache (h : Host) (b : byteslice) : outcome (CCache * error) :=
  let c := CCache0 in
  let p := 0 in
  match index b p with
  | Done b0 =>
      if negb (to_int8 (byteZ b0) =? 5) then Done (c, Some errMagic)
      else
        let p := p + 1 in
        match index b p with
        | Done b1 =>
            let c := set_Version c (to_uint8 (byteZ b1)) in
            if (Version c <? 1) || (Version c >? 4) then Done (c, Some errVersion)
            else
              let p := p + 1 in
              let endian := byte_order h (Version c) in
              match (if Version c =? 4 then parse_header b c endian p
                     else Done ((c, None), p)) with
              | Done ((c, Some err), _) => Done (c, Some err)
              | Done ((c, None), p) =>
                  match parse_principal h b c endian p with
                  | Done (princ, p) =>
                      read_credentials (S (Z.to_nat (len b))) h b
                        (set_DefaultPrincipal c princ) endian p
                  | Panic => Panic
                  | OutOfFuel => OutOfFuel
                  end
              | Panic => Panic
              | OutOfFuel => OutOfFuel
              end
        | _ => Panic
        end
  | _ => Panic
  end.

(** ** Queries on a decoded cache *)

Section Queries.

(** Modelled from the spec: [types.PrincipalName.Equal], the equality of
    principal names, is supplied by the principal name type, outside this
    file. *)
Variable Equal : PrincipalName_t -> PrincipalName_t -> bool.

Definition GetClientPrincipalName (c : CCache) : PrincipalName_t :=
  PrincipalName (DefaultPrincipal c).

Definition GetClientRealm (c : CCache) : string :=
  Realm (DefaultPrincipal c).

Fixpoint Contains_loop (creds : list credential) (p : PrincipalName_t) : bool :=
  match creds with
  | [] => false
  | cred :: rest =>
      if Equal (PrincipalName (Server cred)) p then true
      else Contains_loop rest p
  end.

Definition Contains (c : CCache) (p : PrincipalName_t) : bool :=
  Contains_loop (Credentials c) p.

(** The zero [time.Time], January 1 of year 1, 00:00:00 UTC, as its number of
    seconds since the epoch ([time.Time{}.Unix()]).  No time the decoder
    reads is that early: [read_timestamp] returns a 32 bit number of
    seconds. *)
Definition zero_time : Z := -62135596800.

(** [var cred credential]: the zero value. *)
Definition credential0 : credential :=
  mkCredential principal0 principal0 (mkEncryptionKey 0 [])
               zero_time zero_time zero_time zero_time false
               [] [] [] [] [].

Fixpoint GetEntry_loop (creds : list credential) (p : PrincipalName_t)
    : credential * bool :=
  match creds with
  | [] => (credential0, false)
  | cred :: rest =>
      if Equal (PrincipalName (Server cred)) p then (cred, true)
      else GetEntry_loop rest p
  end.

Definition GetEntry (c : CCache) (p : PrincipalName_t) : credential * bool :=
  GetEntry_loop (Credentials c) p.

End Queries.

(** [strings.HasPrefix] *)
Definition HasPrefix (s pre : string) : bool := String.prefix pre s.

Fixpoint GetEntries_loop (rest creds : list credential) : list credential :=
  match rest with
  | [] => creds
  | cred :: rest' =>
      if HasPrefix (Realm (Server cred)) "X-CACHECONF"
      then (* Filter out configuration entries *) GetEntries_loop rest' creds
      else GetEntries_loop rest' (creds ++ [cred])
  end.

Definition GetEntries (c : CCache) : list credential :=
  GetEntries_loop (Credentials c) [].

(** ** Auxiliary definitions for the statements *)

(** The part of [ParseCCache] after the header: the default principal and
    the credentials. *)
Definition ParseCCache_tail (h : Host) (b : byteslice) (c : CCache)
    (e : ByteOrder) (p : Z) : outcome (CCache * error) :=
  match parse_principal h b c e p with
  | Done (princ, p) =>
      read_credentials (S (Z.to_nat (len b))) h b
        (set_DefaultPrincipal c princ) e p
  | Panic => Panic
  | OutOfFuel => OutOfFuel
  end.

(** The part of [ParseCCache] after the magic and version tests. *)
Definition ParseCCache_body (h : Host) (b : byteslice) (v : Z)
    : outcome (CCache * error) :=
  let c := set_Version CCache0 v in
  let endian := byte_order h v in
  match (if v =? 4 then parse_header b c endian 2 else Done ((c, None), 2)) with
  | Done ((c, Some err), _) => Done (c, Some err)
  | Done ((c, None), p) => ParseCCache_tail h b c endian p
  | Panic => Panic
  | OutOfFuel => OutOfFuel
  end.

(** [m] never runs out of fuel. *)
Definition total {A} (m : M A) : Prop := forall p, m p <> OutOfFuel.

(** [m] moves the offset forward by at least [d]. *)
Definition advances {A} (d : Z) (m : M A) : Prop :=
  forall p a p', m p = Done (a, p') -> p + d <= p'.

(** [b] holds the bytes of [t] and possibly more behind them. *)
Definition extends (t b : byteslice) : Prop :=
  exists rest, backing b = backing t ++ rest.

(** What [mt] returns, [mb] returns as well. *)
Definition carries {A} (mt mb : M A) : Prop :=
  forall p r, mt p = Done r -> mb p = Done r.

(** A successful read ends inside the buffer. *)
Definition lands (b : byteslice) {A} (m : M A) : Prop :=
  forall p a p', m p = Done (a, p') -> p' <= cap b.

(** A computation started inside the buffer ends inside it. *)
Definition stays (b : byteslice) {A} (m : M A) : Prop :=
  forall p a p', m p = Done (a, p') -> p <= cap b -> p' <= cap b.

(** A credential is a configuration entry when the realm of its server
    starts with "X-CACHECONF". *)
Definition is_config (cred : credential) : bool :=
  HasPrefix (Realm (Server cred)) "X-CACHECONF".

(** The value of a byte span read most significant byte first. *)
Definition big_endian_value (bs : list byte) : Z :=
  fold_left (fun acc x => acc * 256 + byteZ x) bs 0.

(** The value of a byte span read least significant byte first. *)
Definition little_endian_value (bs : list byte) : Z :=
  fold_right (fun x acc => byteZ x + 256 * acc) 0 bs.

(** The two's complement reading of a [bits] wide unsigned value. *)
Definition signed (bits : Z) (u : Z) : Z :=
  if u <? 2 ^ (bits - 1) then u else u - 2 ^ bits.

(** The byte order of the platform. *)
Definition native_order (h : Host) : ByteOrder :=
  if little_endian h then LittleEndian else BigEndian.

(** The value of a byte span in a byte order. *)
Definition span_value (e : ByteOrder) (bs : list byte) : Z :=
  match e with
  | BigEndian => big_endian_value bs
  | LittleEndian => little_endian_value bs
  end.

(** The first [n] bytes of [b] in a slice of their own whose capacity is
    its length, as [b[:n:n]] is, or a copy into [make([]byte, n)].  A
    truncation in general is any slice [t] with
    [elems t = firstn n (elems b)]: [b[:n]] keeps the capacity of [b], and
    the buffer [ioutil.ReadFile] returns for a truncated file has capacity
    to spare behind its length. *)
Definition truncate (n : nat) (b : byteslice) : byteslice :=
  of_bytes (firstn n (elems b)).

(** What [mb] returns without having read beyond the capacity of [t], [mt]
    returns as well; and [mb] never moves the offset back. *)
Definition confined (t : byteslice) {A} (mb mt : M A) : Prop :=
  forall p a p', mb p = Done (a, p') ->
    p <= p' /\ (p' <= cap t -> mt p = Done (a, p')).

(** ** Well-formed values and their encodings

    [decodes m enc x]: wherever the bytes [enc] stand in a buffer, the
    reader [m] started at their first byte returns [x] and stops behind
    their last byte. *)
Definition decodes {A} (m : byteslice -> M A) (enc : list byte) (x : A) : Prop :=
  forall b pre suf, backing b = pre ++ enc ++ suf ->
    m b (Z.of_nat (List.length pre))
    = Done (x, Z.of_nat (List.length pre) + Z.of_nat (List.length enc)).

(** The ranges of the integer fields and of the length fields. *)
Definition int16_range (z : Z) : Prop := - 2 ^ 15 <= z < 2 ^ 15.
Definition int32_range (z : Z) : Prop := - 2 ^ 31 <= z < 2 ^ 31.
Definition short (d : list byte) : Prop := Z.of_nat (List.length d) < 2 ^ 31.

(** A principal that version [v] of the format can hold. *)
Definition wf_principal (v : Z) (pr : principal) : Prop :=
  (v = 1 -> NameType (PrincipalName pr) = 0) /\
  int32_range (NameType (PrincipalName pr)) /\
  Z.of_nat (List.length (NameString (PrincipalName pr))) + 1 < 2 ^ 31 /\
  short (list_byte_of_string (Realm pr)) /\
  Forall (fun s => short (list_byte_of_string s)) (NameString (PrincipalName pr)).

(** A credential that version [v] of the format can hold. *)
Definition wf_credential (v : Z) (cred : credential) : Prop :=
  wf_principal v (Client cred) /\ wf_principal v (Server cred) /\
  int16_range (KeyType (Key cred)) /\ short (KeyValue (Key cred)) /\
  int32_range (AuthTime cred) /\ int32_range (StartTime cred) /\
  int32_range (EndTime cred) /\ int32_range (RenewTill cred) /\
  List.length (TicketFlags cred) = 4%nat /\
  Z.of_nat (List.length (Addresses cred)) < 2 ^ 31 /\
  Forall (fun a => int16_range (AddrType a) /\ short (Address a)) (Addresses cred) /\
  Z.of_nat (List.length (AuthData cred)) < 2 ^ 31 /\
  Forall (fun a => int16_range (ADType a) /\ short (ADData a)) (AuthData cred) /\
  short (Ticket cred) /\ short (SecondTicket cred).

(** ** The file format, written

    The encoders write the fields in the order and the widths in which the
    decoder reads them; the round trip lemmas below relate the two. *)

Definition byte_of (z : Z) : byte :=
  match Byte.of_N (Z.to_N (z mod 256)) with Some x => x | None => x00 end.

Definition enc16 (e : ByteOrder) (z : Z) : list byte :=
  let msb_first := [byte_of (Z.shiftr z 8); byte_of z] in
  match e with BigEndian => msb_first | LittleEndian => rev msb_first end.

Definition enc32 (e : ByteOrder) (z : Z) : list byte :=
  let msb_first := [byte_of (Z.shiftr z 24); byte_of (Z.shiftr z 16);
                    byte_of (Z.shiftr z 8); byte_of z] in
  match e with BigEndian => msb_first | LittleEndian => rev msb_first end.

Definition enc_data (e : ByteOrder) (d : list byte) : list byte :=
  enc32 e (Z.of_nat (List.length d)) ++ d.

Definition enc_string (e : ByteOrder) (s : string) : list byte :=
  enc_data e (list_byte_of_string s).

(** A principal as version [v] writes it: no name type and a count that
    includes the realm in version 1. *)
Definition enc_principal (v : Z) (e : ByteOrder) (pr : principal) : list byte :=
  let names := NameString (PrincipalName pr) in
  (if v =? 1 then [] else enc32 e (NameType (PrincipalName pr))) ++
  enc32 e (Z.of_nat (List.length names) + (if v =? 1 then 1 else 0)) ++
  enc_string e (Realm pr) ++
  List.concat (map (enc_string e) names).

(** A credential from its key value on. *)
Definition enc_credential_tail (e : ByteOrder) (cred : credential) : list byte :=
  enc_data e (KeyValue (Key cred)) ++
  enc32 e (AuthTime cred) ++ enc32 e (StartTime cred) ++
  enc32 e (EndTime cred) ++ enc32 e (RenewTill cred) ++
  [if IsSKey cred then x01 else x00] ++
  TicketFlags cred ++
  enc32 e (Z.of_nat (List.length (Addresses cred))) ++
  List.concat (map (fun a => enc16 e (AddrType a) ++ enc_data e (Address a))
              (Addresses cred)) ++
  enc32 e (Z.of_nat (List.length (AuthData cred))) ++
  List.concat (map (fun a => enc16 e (ADType a) ++ enc_data e (ADData a))
              (AuthData cred)) ++
  enc_data e (Ticket cred) ++
  enc_data e (SecondTicket cred).

(** A credential as version [v] writes it; version 3 writes the key type
    twice, [first_kt] being its first occurrence. *)
Definition enc_credential (v : Z) (e : ByteOrder) (first_kt : Z)
    (cred : credential) : list byte :=
  enc_principal v e (Client cred) ++ enc_principal v e (Server cred) ++
  (if v =? 3 then enc16 e first_kt else []) ++
  enc16 e (KeyType (Key cred)) ++
  enc_credential_tail e cred.

(** ** Sample hosts, principals and buffers *)

Definition amd64 : Host := mkHost true Int64.
Definition i386 : Host := mkHost true Int32.
Definition s390x : Host := mkHost false Int64.
Definition mips : Host := mkHost false Int32.

(** A sample equality of principal names: same name type and components. *)
Definition same_name (n1 n2 : PrincipalName_t) : bool :=
  (NameType n1 =? NameType n2) &&
  if list_eq_dec string_dec (NameString n1) (NameString n2) then true else false.

Definition user_principal : principal :=
  mkPrincipal "EXAMPLE.COM" (mkPrincipalName 1 ["user"%string]).

Definition krbtgt_principal : principal :=
  mkPrincipal "EXAMPLE.COM"
    (mkPrincipalName 2 ["krbtgt"%string; "EXAMPLE.COM"%string]).

Definition conf_principal : principal :=
  mkPrincipal "X-CACHECONF:"
    (mkPrincipalName 0 ["krb5_ccache_conf_data"%string; "fast_avail"%string]).

Definition host_principal : principal :=
  mkPrincipal "TEST" (mkPrincipalName 0 ["host"%string]).

Definition sample_credential (server : principal) : credential :=
  mkCredential user_principal server
    (mkEncryptionKey 18 [x0a; x0b; x0c; x0d])
    1500000000 1500000000 1500036000 1500604800
    false [x40; xe1; x00; x00]
    [mkHostAddress 2 [x0a; x00; x00; x01]]
    [mkAuthorizationDataEntry 1 [xff]]
    [x61; x82] [].

(** A version 4 header with [n] "KDC offset" fields and the declared
    length [declared]. *)
Definition enc_header (declared : Z) (n : nat) : list byte :=
  enc16 BigEndian declared ++
  List.concat (repeat (enc16 BigEndian 1 ++ enc16 BigEndian 8 ++ repeat x00 8) n).

(** Version 4: one header field, the user as default principal, no
    credential. *)
Definition v4_user : list byte :=
  [x05; x04] ++ enc_header 12 1 ++ enc_principal 4 BigEndian user_principal.

(** The same with a header field of length 7. *)
Definition v4_short_field : list byte :=
  [x05; x04] ++ enc16 BigEndian 12 ++
  enc16 BigEndian 1 ++ enc16 BigEndian 7 ++ repeat x00 7 ++
  enc_principal 4 BigEndian user_principal.

(** Version 4, two header fields under a declared length of 16. *)
Definition v4_two_fields : list byte :=
  [x05; x04] ++ enc_header 16 2 ++ enc_principal 4 BigEndian user_principal.

(** Version 4, one header field under a declared length of 16, the offset
    at which that field ends. *)
Definition v4_one_field_16 : list byte :=
  [x05; x04] ++ enc_header 16 1 ++ enc_principal 4 BigEndian user_principal.

(** Version 4, declared header length 0 and no header field. *)
Definition v4_no_field : list byte :=
  [x05; x04] ++ enc_header 0 0 ++ enc_principal 4 BigEndian user_principal.

(** Version 1 in the byte order [e]: realm "TEST", one component "host". *)
Definition v1_host (e : ByteOrder) : list byte :=
  [x05; x01] ++ enc_principal 1 e host_principal.

(** Version [v], big endian: the user as default principal, a ticket
    granting ticket and a configuration entry. *)
Definition two_credentials (v : Z) : list byte :=
  [x05; byte_of v] ++ (if v =? 4 then enc_header 12 1 else []) ++
  enc_principal v BigEndian user_principal ++
  enc_credential v BigEndian 17 (sample_credential krbtgt_principal) ++
  enc_credential v BigEndian 17 (sample_credential conf_principal).

(** ** [LoadCCache] *)

Definition set_Path (c : CCache) (path : string) : CCache :=
  mkCCache (Version c) (Header c) (DefaultPrincipal c) (Credentials c) path.

(** [ReadFile] is [ioutil.ReadFile]: for a path, the bytes of the file, in a
    slice of some capacity, and the error of reading it. *)
Definition LoadCCache (ReadFile : string -> byteslice * error) (h : Host)
    (cpath : string) : outcome (CCache * error) :=
  let (k, err) := ReadFile cpath in
  match err with
  | Some e => Done (CCache0, Some e)
  | None =>
      match ParseCCache h k with
      | Done (c, err) => Done (set_Path c cpath, err)
      | Panic => Panic
      | OutOfFuel => OutOfFuel
      end
  end.

(** ** Slices of one backing array, and whole caches written *)

(** [b[:n]], for [n] at most the length of [b]: the first [n] elements, the
    others moving into the capacity. *)
Definition reslice (n : nat) (b : byteslice) : byteslice :=
  mkSlice (firstn n (elems b)) (skipn n (elems b) ++ spare b).

(** A header field and a header as the format writes them. *)
Definition enc_headerField (e : ByteOrder) (f : headerField) : list byte :=
  enc16 e (f_tag f) ++ enc16 e (f_length f) ++ f_value f.

Definition enc_Header (e : ByteOrder) (hd : header) : list byte :=
  enc16 e (h_length hd) ++ List.concat (map (enc_headerField e) (h_fields hd)).

(** A header the decoder reads back: its [k] fields are valid, of 12 bytes
    each, and its declared length lies from the offset [12 k - 8], where the
    last field starts, up to the offset [12 k + 4], where it ends; with no
    field the declared length is below 4. *)
Definition wf_header (hd : header) : Prop :=
  Forall (fun f => valid f = true) (h_fields hd) /\
  let k := Z.of_nat (List.length (h_fields hd)) in
  0 <= h_length hd < 65536 /\
  12 * k - 8 <= h_length hd < 12 * k + 4.

(** A cache as its version writes it; version 3 writes the key type of a
    credential twice. *)
Definition enc_CCache (e : ByteOrder) (c : CCache) : list byte :=
  [x05; byte_of (Version c)] ++
  (if Version c =? 4 then enc_Header e (Header c) else []) ++
  enc_principal (Version c) e (DefaultPrincipal c) ++
  List.concat (map (fun cred => enc_credential (Version c) e (KeyType (Key cred)) cred)
                   (Credentials c)).

(** A cache the format can hold. *)
Definition wf_CCache (c : CCache) : Prop :=
  1 <= Version c <= 4 /\
  (if Version c =? 4 then wf_header (Header c) else Header c = header0) /\
  wf_principal (Version c) (DefaultPrincipal c) /\
  Forall (wf_credential (Version c)) (Credentials c) /\
  Path c = ""%string.

(** The cache of the sample [two_credentials 4]. *)
Definition sample_cache : CCache :=
  mkCCache 4 (mkHeader 12 [mkHeaderField 1 8 (repeat x00 8)]) user_principal
           [sample_credential krbtgt_principal; sample_credential conf_principal]
           "".

(** The bytes [l] in a buffer with 512 zero bytes of capacity behind its
    length: [ioutil.ReadFile] reads a file into a buffer that is larger
    than the file. *)
Definition file_buffer (l : list byte) : byteslice := mkSlice l (repeat x00 512).

(** A version 2 cache: no header, one credential. *)
Definition v2_cache : CCache :=
  mkCCache 2 header0 user_principal [sample_credential krbtgt_principal] "".

(** A file reader that knows one file. *)
Definition one_file (path : string) (content : list byte)
    : string -> byteslice * error :=
  fun p => if String.eqb p path then (of_bytes content, None)
           else (of_bytes [], Some "open: no such file or directory"%string).

(** * Properties *)

(** ** The monad *)

Lemma bind_Done {A B} (m : M A) (k : A -> M B) p r :
  (x <- m ;; k x) p = Done r ->
  exists a p', m p = Done (a, p') /\ k a p' = Done r.
Proof.
  unfold bind. destruct (m p) as [[a p']| |]; try discriminate.
  intros H. exists a, p'. split; [reflexivity | exact H].
Qed.

Lemma bind_eq {A B} (m : M A) (k : A -> M B) p a p' :
  m p = Done (a, p') -> (x <- m ;; k x) p = k a p'.
Proof. unfold bind. intros ->. reflexivity. Qed.

Lemma bind_Panic {A B} (m : M A) (k : A -> M B) p :
  m p = Panic -> (x <- m ;; k x) p = Panic.
Proof. unfold bind. intros ->. reflexivity. Qed.

Lemma ret_Done {A} (a : A) p r : ret a p = Done r -> r = (a, p).
Proof. unfold ret. congruence. Qed.

(** Invert a hypothesis [m p = Done r] along the binds of [m]. *)
Ltac inv_bind H :=
  let a := fresh "a" in
  let q := fresh "q" in
  let Ha := fresh "Hr" in
  apply bind_Done in H; destruct H as (a & q & Ha & H).

Lemma total_ret {A} (a : A) : total (ret a).
Proof. intros p. discriminate. Qed.

Lemma total_bind {A B} (m : M A) (k : A -> M B) :
  total m -> (forall a, total (k a)) -> total (x <- m ;; k x).
Proof.
  intros Hm Hk p. unfold bind. specialize (Hm p).
  destruct (m p) as [[a p']| |]; [apply Hk | discriminate | congruence].
Qed.

Lemma total_times {A} n (m : M A) : total m -> total (times n m).
Proof.
  intros Hm. induction n as [|n IH]; simpl.
  - apply total_ret.
  - apply total_bind; [exact Hm | intros a].
    apply total_bind; [exact IH | intros xs; apply total_ret].
Qed.

Lemma advances_ret {A} (a : A) : advances 0 (ret a).
Proof. intros p x p' H. apply ret_Done in H. inversion H. lia. Qed.

Lemma advances_bind {A B} d1 d2 (m : M A) (k : A -> M B) :
  advances d1 m -> (forall a, advances d2 (k a)) ->
  advances (d1 + d2) (x <- m ;; k x).
Proof.
  intros Hm Hk p r p' H. inv_bind H.
  apply Hm in Hr. apply Hk in H. lia.
Qed.

Lemma advances_weaken {A} d d' (m : M A) :
  d' <= d -> advances d m -> advances d' m.
Proof. intros Hd Hm p a p' H. apply Hm in H. lia. Qed.

Lemma advances_times {A} n (m : M A) : advances 0 m -> advances 0 (times n m).
Proof.
  intros Hm. induction n as [|n IH]; simpl.
  - apply advances_ret.
  - change 0 with (0 + (0 + 0)).
    apply advances_bind; [exact Hm | intros a].
    apply advances_bind; [exact IH | intros xs; apply advances_ret].
Qed.

(** ** Slices and the primitive readers *)

Lemma subslice_Done b lo hi l :
  subslice b lo hi = Done l ->
  0 <= lo /\ lo <= hi /\ hi <= cap b /\
  l = firstn (Z.to_nat (hi - lo)) (skipn (Z.to_nat lo) (backing b)).
Proof.
  unfold subslice.
  destruct (0 <=? lo) eqn:H1; destruct (lo <=? hi) eqn:H2;
    destruct (hi <=? cap b) eqn:H3; simpl; try discriminate.
  intros H. inversion H. apply Z.leb_le in H1, H2, H3.
  repeat split; assumption || reflexivity.
Qed.

Lemma subslice_in_range b lo hi :
  0 <= lo -> lo <= hi -> hi <= cap b ->
  subslice b lo hi =
  Done (firstn (Z.to_nat (hi - lo)) (skipn (Z.to_nat lo) (backing b))).
Proof.
  intros H1 H2 H3. unfold subslice.
  apply Z.leb_le in H1, H2, H3. rewrite H1, H2, H3. reflexivity.
Qed.

Lemma subslice_out_of_range b lo hi :
  lo < 0 \/ hi < lo \/ cap b < hi -> subslice b lo hi = Panic.
Proof.
  intros H. unfold subslice.
  destruct (0 <=? lo) eqn:H1; destruct (lo <=? hi) eqn:H2;
    destruct (hi <=? cap b) eqn:H3; simpl; try reflexivity.
  apply Z.leb_le in H1, H2, H3. lia.
Qed.

Lemma subslice_not_OutOfFuel b lo hi : subslice b lo hi <> OutOfFuel.
Proof. unfold subslice. destruct (_ && _); discriminate. Qed.

Lemma subslice_length b lo hi l :
  subslice b lo hi = Done l -> Z.of_nat (List.length l) = hi - lo.
Proof.
  intros H. apply subslice_Done in H. destruct H as (H1 & H2 & H3 & ->).
  unfold cap in H3.
  rewrite length_firstn, length_skipn. lia.
Qed.

Lemma read_int8_Done b e p v p' :
  read_int8 b e p = Done (v, p') ->
  exists buf, subslice b p (p + 1) = Done buf /\
              v = to_int8 (at_ buf 0) /\ p' = p + 1.
Proof.
  unfold read_int8. destruct (subslice b p (p + 1)) as [buf| |]; try discriminate.
  intros H. inversion H. eauto.
Qed.

Lemma read_int16_Done b e p v p' :
  read_int16 b e p = Done (v, p') ->
  exists buf, subslice b p (p + 2) = Done buf /\
              v = to_int16 (Uint16 e buf) /\ p' = p + 2.
Proof.
  unfold read_int16. destruct (subslice b p (p + 2)) as [buf| |]; try discriminate.
  intros H. inversion H. eauto.
Qed.

Lemma read_int32_Done b e p v p' :
  read_int32 b e p = Done (v, p') ->
  exists buf, subslice b p (p + 4) = Done buf /\
              v = to_int32 (Uint32 e buf) /\ p' = p + 4.
Proof.
  unfold read_int32. destruct (subslice b p (p + 4)) as [buf| |]; try discriminate.
  intros H. inversion H. eauto.
Qed.

Lemma read_Bytes_Done b s e p v p' :
  read_Bytes b s e p = Done (v, p') ->
  subslice b p (p + s) = Done v /\ p' = p + s /\ 0 <= s.
Proof.
  unfold read_Bytes. destruct (subslice b p (p + s)) as [buf| |] eqn:E; try discriminate.
  intros H. inversion H. subst. apply subslice_Done in E.
  repeat split; try reflexivity; lia.
Qed.

(** Each reader moves the offset forward and never runs out of fuel. *)

Lemma total_read_int8 b e : total (read_int8 b e).
Proof. intros p. unfold read_int8. destruct (subslice _ _ _); discriminate. Qed.

Lemma total_read_int16 b e : total (read_int16 b e).
Proof. intros p. unfold read_int16. destruct (subslice _ _ _); discriminate. Qed.

Lemma total_read_int32 b e : total (read_int32 b e).
Proof. intros p. unfold read_int32. destruct (subslice _ _ _); discriminate. Qed.

Lemma total_read_Bytes b s e : total (read_Bytes b s e).
Proof. intros p. unfold read_Bytes. destruct (subslice _ _ _); discriminate. Qed.

Lemma total_read_data b e : total (read_data b e).
Proof.
  apply total_bind; [apply total_read_int32 | intros; apply total_read_Bytes].
Qed.

Lemma advances_read_int8 b e : advances 1 (read_int8 b e).
Proof. intros p v p' H. apply read_int8_Done in H. destruct H as (? & ? & ? & ->). lia. Qed.

Lemma advances_read_int16 b e : advances 2 (read_int16 b e).
Proof. intros p v p' H. apply read_int16_Done in H. destruct H as (? & ? & ? & ->). lia. Qed.

Lemma advances_read_int32 b e : advances 4 (read_int32 b e).
Proof. intros p v p' H. apply read_int32_Done in H. destruct H as (? & ? & ? & ->). lia. Qed.

Lemma advances_read_Bytes b s e : advances 0 (read_Bytes b s e).
Proof. intros p v p' H. apply read_Bytes_Done in H. lia. Qed.

Lemma advances_read_data b e : advances 4 (read_data b e).
Proof.
  change 4 with (4 + 0). apply advances_bind;
    [apply advances_read_int32 | intros; apply advances_read_Bytes].
Qed.

Create HintDb ccache.
#[local] Hint Resolve total_ret total_read_int8 total_read_int16
  total_read_int32 total_read_Bytes total_read_data total_times : ccache.

(** Discharge [total] goals along the structure of a computation. *)
Ltac solve_total :=
  repeat first
    [ progress auto with ccache
    | apply total_bind; [| intros ?]
    | match goal with
      | |- total (if ?c then _ else _) => destruct c
      | |- total panic => intros ?; discriminate
      end ].

Lemma total_read_headerField b e : total (read_headerField b e).
Proof.
  unfold read_headerField. solve_total.
  intros p. destruct (subslice _ _ _); discriminate.
Qed.

Lemma advances_read_headerField b e : advances 4 (read_headerField b e).
Proof.
  intros p f p' H. unfold read_headerField in H.
  inv_bind H. inv_bind H. inv_bind H. apply ret_Done in H. inversion H; subst.
  apply advances_read_int16 in Hr, Hr0.
  destruct (subslice b q0 (q0 + to_uint16 a0)) eqn:E; try discriminate.
  apply subslice_Done in E. inversion Hr1; subst. lia.
Qed.

Lemma total_read_component b e : total (read_component b e).
Proof. unfold read_component. solve_total. Qed.

Lemma advances_read_component b e : advances 4 (read_component b e).
Proof.
  intros p f p' H. unfold read_component in H.
  inv_bind H. inv_bind H. apply ret_Done in H. inversion H; subst.
  apply advances_read_int32 in Hr. apply advances_read_Bytes in Hr0. lia.
Qed.

Lemma total_parse_principal h b c e : total (parse_principal h b c e).
Proof.
  unfold parse_principal. solve_total. apply total_times, total_read_component.
Qed.

Lemma advances_parse_principal h b c e : advances 8 (parse_principal h b c e).
Proof.
  intros p f p' H. unfold parse_principal in H.
  inv_bind H. inv_bind H. inv_bind H. inv_bind H. inv_bind H.
  apply ret_Done in H. inversion H; subst.
  assert (p <= q).
  { destruct (negb _); [apply advances_read_int32 in Hr | apply ret_Done in Hr;
      inversion Hr]; lia. }
  apply advances_read_int32 in Hr0, Hr1. apply advances_read_Bytes in Hr2.
  apply (advances_times _ _ (advances_weaken 4 0 _ ltac:(lia)
                               (advances_read_component b e))) in Hr3.
  lia.
Qed.

Lemma total_read_address b e : total (read_address b e).
Proof. unfold read_address. solve_total. Qed.

Lemma total_read_authDataEntry b e : total (read_authDataEntry b e).
Proof. unfold read_authDataEntry. solve_total. Qed.

Lemma total_make_and_fill {A} l (m : M A) : total m -> total (make_and_fill l m).
Proof.
  intros Hm. unfold make_and_fill. destruct (l <? 0).
  - intros p. discriminate.
  - apply total_times, Hm.
Qed.

Lemma total_parse_credential h b c e : total (parse_credential h b c e).
Proof.
  unfold parse_credential, read_timestamp.
  pose proof (total_parse_principal h b c e).
  pose proof (total_read_address b e). pose proof (total_read_authDataEntry b e).
  solve_total; apply total_make_and_fill; assumption.
Qed.

(** [parse_credential] never returns an error: its result [err] is never
    assigned. *)
Lemma parse_credential_no_error h b c e p cred err p' :
  parse_credential h b c e p = Done ((cred, err), p') -> err = None.
Proof.
  intros H. unfold parse_credential in H.
  repeat inv_bind H. apply ret_Done in H. congruence.
Qed.

Lemma advances_read_address b e : advances 6 (read_address b e).
Proof.
  intros p f p' H. unfold read_address in H.
  inv_bind H. inv_bind H. apply ret_Done in H. inversion H; subst.
  apply advances_read_int16 in Hr. apply advances_read_data in Hr0. lia.
Qed.

Lemma advances_read_authDataEntry b e : advances 6 (read_authDataEntry b e).
Proof.
  intros p f p' H. unfold read_authDataEntry in H.
  inv_bind H. inv_bind H. apply ret_Done in H. inversion H; subst.
  apply advances_read_int16 in Hr. apply advances_read_data in Hr0. lia.
Qed.

Lemma advances_make_and_fill {A} l (m : M A) :
  advances 0 m -> advances 0 (make_and_fill l m).
Proof.
  intros Hm. unfold make_and_fill. destruct (l <? 0).
  - intros p a p' H. discriminate.
  - apply advances_times, Hm.
Qed.

(** Turn a successful read into the inequality between its offsets. *)
Ltac advance H :=
  first
    [ apply advances_read_int8 in H
    | apply advances_read_int16 in H
    | apply advances_read_int32 in H
    | apply advances_read_Bytes in H
    | apply advances_read_data in H
    | apply advances_parse_principal in H
    | apply (advances_make_and_fill _ _
               (advances_weaken 6 0 _ ltac:(lia) (advances_read_address _ _))) in H
    | apply (advances_make_and_fill _ _
               (advances_weaken 6 0 _ ltac:(lia) (advances_read_authDataEntry _ _))) in H
    | apply ret_Done in H; inversion H; subst
    | match type of H with
      | (if ?c then _ else _) _ = Done _ => destruct c; advance H
      end ].

Lemma advances_parse_credential h b c e : advances 16 (parse_credential h b c e).
Proof.
  intros p f p' H. unfold parse_credential, read_timestamp in H.
  repeat match type of H with
         | bind _ _ _ = Done _ =>
             let Hx := fresh "Hx" in
             apply bind_Done in H; destruct H as (? & ? & Hx & H);
             try advance Hx
         end.
  all: apply ret_Done in H; inversion H; subst; lia.
Qed.

(** ** The loops terminate: the fuel they are given is never used up *)

Lemma to_uint16_range z : 0 <= to_uint16 z < 65536.
Proof. unfold to_uint16. apply Z.mod_pos_bound. reflexivity. Qed.

Lemma header_fields_fuel fuel : forall b e h_len fields p,
  (Z.to_nat (h_len + 1 - p) < fuel)%nat ->
  header_fields fuel b e h_len fields p <> OutOfFuel.
Proof.
  induction fuel as [|fuel IH]; intros b e h_len fields p Hf; [lia|].
  simpl. destruct (p <=? h_len) eqn:Hle; [| discriminate].
  apply Z.leb_le in Hle.
  pose proof (total_read_headerField b e p) as Ht.
  destruct (read_headerField b e p) as [[f p']| |] eqn:E;
    [| discriminate | congruence].
  apply advances_read_headerField in E.
  destruct (negb (valid f)); [discriminate|].
  apply IH. lia.
Qed.

Lemma advances_header_fields fuel : forall b e h_len fields,
  advances 0 (header_fields fuel b e h_len fields).
Proof.
  induction fuel as [|fuel IH]; intros b e h_len fields p r p' H;
    simpl in H; [discriminate|].
  destruct (p <=? h_len).
  - destruct (read_headerField b e p) as [[f q]| |] eqn:E; try discriminate.
    apply advances_read_headerField in E.
    destruct (negb (valid f)).
    + inversion H; subst. lia.
    + apply IH in H. lia.
  - inversion H; subst. lia.
Qed.

Lemma advances_parse_header b c e : advances 0 (parse_header b c e).
Proof.
  intros p r p' H. unfold parse_header in H.
  destruct (negb (Version c =? 4)).
  - apply ret_Done in H. inversion H. lia.
  - inv_bind H. inv_bind H. apply advances_read_int16 in Hr.
    apply advances_header_fields in Hr0.
    destruct (snd a0); apply ret_Done in H; inversion H; subst; lia.
Qed.

Lemma total_parse_header b c e : total (parse_header b c e).
Proof.
  intros p. unfold parse_header.
  destruct (negb (Version c =? 4)); [discriminate|].
  unfold bind. pose proof (total_read_int16 b e p) as Ht.
  destruct (read_int16 b e p) as [[l q]| |] eqn:E; [| discriminate | congruence].
  apply read_int16_Done in E. destruct E as (buf & E & _ & ->).
  apply subslice_Done in E. pose proof (to_uint16_range l).
  pose proof (header_fields_fuel (Z.to_nat (to_uint16 l + 2)) b e
                (to_uint16 l) [] (p + 2) ltac:(lia)) as Hf.
  destruct (header_fields _ b e _ [] (p + 2)) as [[r q]| |];
    [| discriminate | congruence].
  destruct (snd r); discriminate.
Qed.

Lemma read_credentials_fuel fuel : forall h b c e p,
  (Z.to_nat (len b - p) < fuel)%nat ->
  read_credentials fuel h b c e p <> OutOfFuel.
Proof.
  induction fuel as [|fuel IH]; intros h b c e p Hf; [lia|].
  simpl. destruct (p <? len b) eqn:Hlt; [| discriminate].
  apply Z.ltb_lt in Hlt.
  pose proof (total_parse_credential h b c e p) as Ht.
  destruct (parse_credential h b c e p) as [[[cred err] p']| |] eqn:E;
    [| discriminate | congruence].
  apply advances_parse_credential in E.
  destruct err; [discriminate|].
  apply IH. lia.
Qed.

(** The fuel of the two loops of [ParseCCache] is enough on every input:
    the decoder returns or panics. *)
Lemma ParseCCache_terminates h b : ParseCCache h b <> OutOfFuel.
Proof.
  unfold ParseCCache.
  destruct (index b 0); try discriminate.
  destruct (negb _); [discriminate|].
  destruct (index b (0 + 1)); try discriminate.
  destruct (_ || _); [discriminate|].
  set (c := set_Version CCache0 _).
  set (e := byte_order h (Version c)).
  assert (Hh : exists r, (r = Panic \/ exists c' err q, r = Done ((c', err), q) /\ 0 <= q) /\
            (if Version c =? 4 then parse_header b c e (0 + 1 + 1)
             else Done (c, None, 0 + 1 + 1)) = r).
  { destruct (Version c =? 4).
    - pose proof (total_parse_header b c e (0 + 1 + 1)) as Ht.
      destruct (parse_header b c e (0 + 1 + 1)) as [[[c' err] q]| |] eqn:E;
        [| eauto | congruence].
      apply advances_parse_header in E. eexists; split; [right|reflexivity].
      exists c', err, q. split; [reflexivity | lia].
    - eexists; split; [right|reflexivity]. exists c, None, 2. split; [reflexivity | lia]. }
  destruct Hh as (r & [-> | (c' & err & q & -> & Hq)] & ->); [discriminate|].
  destruct err; [discriminate|].
  pose proof (total_parse_principal h b c' e q) as Ht.
  destruct (parse_principal h b c' e q) as [[princ q']| |] eqn:E;
    [| discriminate | congruence].
  apply advances_parse_principal in E.
  apply read_credentials_fuel. unfold len in *. lia.
Qed.

(** ** Unfolding [ParseCCache] *)

Lemma index_0 b x rest : elems b = x :: rest -> index b 0 = Done x.
Proof.
  intros H. unfold index, len. rewrite H.
  change (List.length (x :: rest)) with (S (List.length rest)).
  replace (0 <? Z.of_nat (S (List.length rest))) with true
    by (symmetry; apply Z.ltb_lt; lia).
  reflexivity.
Qed.

Lemma index_1 b x y rest : elems b = x :: y :: rest -> index b 1 = Done y.
Proof.
  intros H. unfold index, len. rewrite H.
  change (List.length (x :: y :: rest)) with (S (S (List.length rest))).
  replace (1 <? Z.of_nat (S (S (List.length rest)))) with true
    by (symmetry; apply Z.ltb_lt; lia).
  reflexivity.
Qed.

Lemma index_nil b i : elems b = [] -> index b i = Panic.
Proof.
  intros H. unfold index, len. rewrite H. simpl.
  destruct (0 <=? i) eqn:H0; destruct (i <? 0) eqn:H1; try reflexivity.
  apply Z.leb_le in H0. apply Z.ltb_lt in H1. lia.
Qed.

Lemma index_short b x i : elems b = [x] -> 1 <= i -> index b i = Panic.
Proof.
  intros H Hi. unfold index, len. rewrite H. simpl.
  destruct (0 <=? i) eqn:H0; destruct (i <? 1) eqn:H1; try reflexivity.
  apply Z.ltb_lt in H1. lia.
Qed.

Lemma magic_test x : negb (to_int8 (byteZ x) =? 5) = false <-> x = x05.
Proof.
  split.
  - destruct x; vm_compute; intros H; try discriminate H; reflexivity.
  - intros ->. reflexivity.
Qed.

Lemma byteZ_range x : 0 <= byteZ x <= 255.
Proof.
  unfold byteZ. pose proof (Byte.to_N_bounded x). lia.
Qed.

Lemma to_uint8_byteZ x : to_uint8 (byteZ x) = byteZ x.
Proof.
  unfold to_uint8. apply Z.mod_small. pose proof (byteZ_range x).
  change (2 ^ 8) with 256. lia.
Qed.

Lemma ParseCCache_magic h b x rest :
  elems b = x :: rest -> x <> x05 ->
  ParseCCache h b = Done (CCache0, Some errMagic).
Proof.
  intros Hb Hx. unfold ParseCCache. rewrite (index_0 _ _ _ Hb).
  destruct (negb (to_int8 (byteZ x) =? 5)) eqn:E; [reflexivity|].
  apply magic_test in E. contradiction.
Qed.

Lemma ParseCCache_version h b v rest :
  elems b = x05 :: v :: rest -> byteZ v < 1 \/ 4 < byteZ v ->
  ParseCCache h b = Done (set_Version CCache0 (byteZ v), Some errVersion).
Proof.
  intros Hb Hv. unfold ParseCCache. rewrite (index_0 _ _ _ Hb).
  change (negb (to_int8 (byteZ x05) =? 5)) with false. cbv iota.
  change (0 + 1) with 1. rewrite (index_1 _ _ _ _ Hb).
  rewrite to_uint8_byteZ. cbn [Version set_Version].
  replace ((byteZ v <? 1) || (byteZ v >? 4)) with true; [reflexivity|].
  symmetry. apply orb_true_iff. rewrite Z.ltb_lt, Z.gtb_ltb, Z.ltb_lt. exact Hv.
Qed.

Lemma ParseCCache_unfold h b v rest :
  elems b = x05 :: v :: rest -> 1 <= byteZ v <= 4 ->
  ParseCCache h b = ParseCCache_body h b (byteZ v).
Proof.
  intros Hb Hv. unfold ParseCCache. rewrite (index_0 _ _ _ Hb).
  change (negb (to_int8 (byteZ x05) =? 5)) with false. cbv iota.
  change (0 + 1) with 1. rewrite (index_1 _ _ _ _ Hb).
  rewrite to_uint8_byteZ. cbn [Version set_Version].
  replace ((byteZ v <? 1) || (byteZ v >? 4)) with false; [reflexivity|].
  symmetry. apply orb_false_iff. rewrite Z.ltb_ge, Z.gtb_ltb, Z.ltb_ge. lia.
Qed.

(** The ways [ParseCCache] runs, by the first two bytes of the buffer. *)
Lemma ParseCCache_cases h b :
  (elems b = [] /\ ParseCCache h b = Panic) \/
  (exists x rest, elems b = x :: rest /\ x <> x05 /\
     ParseCCache h b = Done (CCache0, Some errMagic)) \/
  (elems b = [x05] /\ ParseCCache h b = Panic) \/
  (exists v rest, elems b = x05 :: v :: rest /\ (byteZ v < 1 \/ 4 < byteZ v) /\
     ParseCCache h b = Done (set_Version CCache0 (byteZ v), Some errVersion)) \/
  (exists v rest, elems b = x05 :: v :: rest /\ 1 <= byteZ v <= 4 /\
     ParseCCache h b = ParseCCache_body h b (byteZ v)).
Proof.
  destruct (elems b) as [|x [|v rest]] eqn:Hb.
  - left. split; [reflexivity|]. unfold ParseCCache. rewrite index_nil; auto.
  - destruct (Byte.byte_eq_dec x x05) as [->|Hx].
    + right; right; left. split; [reflexivity|].
      unfold ParseCCache. rewrite (index_0 _ _ _ Hb).
      change (negb (to_int8 (byteZ x05) =? 5)) with false. cbv iota.
      rewrite (index_short _ _ _ Hb); [reflexivity | lia].
    + right; left. exists x, []. repeat split; auto.
      eapply ParseCCache_magic; eauto.
  - destruct (Byte.byte_eq_dec x x05) as [->|Hx].
    + destruct (Z_lt_dec (byteZ v) 1) as [H1|H1];
        [| destruct (Z_lt_dec 4 (byteZ v)) as [H4|H4]].
      * right; right; right; left. exists v, rest. repeat split; auto.
        eapply ParseCCache_version; eauto.
      * right; right; right; left. exists v, rest. repeat split; auto.
        eapply ParseCCache_version; eauto.
      * right; right; right; right. exists v, rest. repeat split; try lia.
        eapply ParseCCache_unfold; eauto. lia.
    + right; left. exists x, (v :: rest). repeat split; auto.
      eapply ParseCCache_magic; eauto.
Qed.

(** ** The header loop *)

Lemma header_fields_stop fuel b e h_len fields p :
  h_len < p ->
  header_fields (S fuel) b e h_len fields p = Done ((fields, None), p).
Proof.
  intros H. simpl. replace (p <=? h_len) with false; [reflexivity|].
  symmetry. apply Z.leb_gt. exact H.
Qed.

Lemma header_fields_step fuel b e h_len fields p :
  p <= h_len ->
  header_fields (S fuel) b e h_len fields p =
  match read_headerField b e p with
  | Done (f, p') =>
      if negb (valid f) then Done ((fields, Some errHeaderField), p')
      else header_fields fuel b e h_len (fields ++ [f]) p'
  | Panic => Panic
  | OutOfFuel => OutOfFuel
  end.
Proof.
  intros H. simpl. replace (p <=? h_len) with true; [reflexivity|].
  symmetry. apply Z.leb_le. exact H.
Qed.

(** What the loop has done when it ends: the fields it started with are
    kept in front, every field added is valid, the only error is the header
    field error, and without an error the offset is beyond the declared
    length. *)
Lemma header_fields_Done fuel : forall b e h_len fields p fields' err q,
  header_fields fuel b e h_len fields p = Done ((fields', err), q) ->
  exists added, fields' = fields ++ added /\
    Forall (fun f => valid f = true) added /\
    (err = None \/ err = Some errHeaderField) /\
    (err = None -> h_len < q /\ (p <= h_len -> added <> [])).
Proof.
  induction fuel as [|fuel IH]; intros b e h_len fields p fields' err q H;
    simpl in H; [discriminate|].
  destruct (p <=? h_len) eqn:Hle.
  - destruct (read_headerField b e p) as [[f p']| |]; try discriminate.
    destruct (valid f) eqn:Hv; simpl in H.
    + apply IH in H. destruct H as (added & -> & Hall & Herr & Hq).
      exists (f :: added). rewrite <- app_assoc. split; [reflexivity|].
      split; [constructor; assumption|]. split; [assumption|].
      intros He. split; [apply Hq; assumption | discriminate].
    + inversion H; subst. exists []. rewrite app_nil_r.
      repeat split; auto; discriminate.
  - inversion H; subst. apply Z.leb_gt in Hle. exists []. rewrite app_nil_r.
    repeat split; auto; lia.
Qed.

Lemma parse_header_eq b c e p l :
  Version c = 4 -> read_int16 b e p = Done (l, p + 2) ->
  parse_header b c e p =
  match header_fields (Z.to_nat (to_uint16 l + 2)) b e (to_uint16 l) [] (p + 2) with
  | Done ((fields, Some err), q) => Done ((c, Some err), q)
  | Done ((fields, None), q) =>
      Done ((set_Header c (mkHeader (to_uint16 l) fields), None), q)
  | Panic => Panic
  | OutOfFuel => OutOfFuel
  end.
Proof.
  intros Hv Hl. unfold parse_header. rewrite Hv. cbn [Z.eqb Pos.eqb negb].
  rewrite (bind_eq _ _ _ _ _ Hl). unfold bind.
  destruct (header_fields _ b e _ [] (p + 2)) as [[[fields err] q]| |];
    try reflexivity.
  destruct err; reflexivity.
Qed.

Lemma valid_iff f :
  valid f = true <->
  f_tag f = 1 /\ f_length f = 8 /\ List.length (f_value f) = 8%nat.
Proof.
  unfold valid, headerFieldTagKDCOffset.
  destruct (f_tag f =? 1) eqn:Ht.
  - apply Z.eqb_eq in Ht.
    destruct (f_length f =? 8) eqn:Hl; simpl.
    + apply Z.eqb_eq in Hl.
      destruct (Z.of_nat (List.length (f_value f)) =? 8) eqn:Hn; simpl.
      * apply Z.eqb_eq in Hn. split; [intros _; repeat split; lia | reflexivity].
      * apply Z.eqb_neq in Hn. split; [discriminate | intros (_ & _ & ?); lia].
    + apply Z.eqb_neq in Hl. split; [discriminate | intros (_ & ? & _); lia].
  - apply Z.eqb_neq in Ht. split; [discriminate | intros (? & _); lia].
Qed.

(** A field read by the loop carries a value of exactly its declared
    length. *)
Lemma read_headerField_length b e p f p' :
  read_headerField b e p = Done (f, p') ->
  Z.of_nat (List.length (f_value f)) = f_length f /\ p' = p + 4 + f_length f.
Proof.
  intros H. unfold read_headerField in H.
  inv_bind H. inv_bind H. inv_bind H. apply ret_Done in H. inversion H; subst.
  apply read_int16_Done in Hr, Hr0.
  destruct Hr as (? & _ & _ & ->). destruct Hr0 as (? & _ & _ & ->).
  destruct (subslice b _ _) eqn:E; try discriminate.
  inversion Hr1; subst. apply subslice_length in E. cbn. lia.
Qed.

(** [read_credentials] only appends credentials and never reports an
    error. *)
Lemma read_credentials_Done fuel : forall h b c e p c' err,
  read_credentials fuel h b c e p = Done (c', err) ->
  err = None /\ Version c' = Version c /\ Header c' = Header c /\
  DefaultPrincipal c' = DefaultPrincipal c /\
  exists creds, Credentials c' = Credentials c ++ creds.
Proof.
  induction fuel as [|fuel IH]; intros h b c e p c' err H; simpl in H;
    [discriminate|].
  destruct (p <? len b).
  - destruct (parse_credential h b c e p) as [[[cred er] p']| |] eqn:E;
      try discriminate.
    pose proof (parse_credential_no_error _ _ _ _ _ _ _ _ E). subst er.
    apply IH in H. cbn in H. destruct H as (-> & Hv & Hh & Hd & creds & Hc).
    repeat split; auto. exists (cred :: creds). rewrite Hc, <- app_assoc.
    reflexivity.
  - inversion H; subst. repeat split; auto. exists []. rewrite app_nil_r.
    reflexivity.
Qed.

Lemma read_credentials_Path fuel : forall h b c e p c' err,
  read_credentials fuel h b c e p = Done (c', err) -> Path c' = Path c.
Proof.
  induction fuel as [|fuel IH]; intros h b c e p c' err H; simpl in H;
    [discriminate|].
  destruct (p <? len b).
  - destruct (parse_credential h b c e p) as [[[cred [er|]] p']| |];
      try discriminate.
    + inversion H; subst. reflexivity.
    + apply IH in H. exact H.
  - inversion H; subst. reflexivity.
Qed.

(** An error of [parse_header] leaves the cache as it was. *)
Lemma parse_header_error b c e p c' err q :
  parse_header b c e p = Done ((c', Some err), q) ->
  c' = c /\ ((Version c <> 4 /\ err = errNoHeader) \/ err = errHeaderField).
Proof.
  intros H. unfold parse_header in H.
  destruct (Version c =? 4) eqn:Hv; cbn [negb] in H.
  2:{ apply ret_Done in H. inversion H; subst. apply Z.eqb_neq in Hv. auto. }
  1:{ idtac.
    inv_bind H. inv_bind H. destruct a0 as [fields er].
    apply header_fields_Done in Hr0. destruct Hr0 as (_ & _ & _ & [->| ->] & _);
      cbn in H; apply ret_Done in H; inversion H; subst; auto. }
Qed.

(** ** Failure of [ParseCCache] *)

(** A cache returned with an error is the zero cache, but for its version. *)
Lemma ParseCCache_error h b c err :
  ParseCCache h b = Done (c, Some err) ->
  c = set_Version CCache0 (Version c) /\
  (err = errMagic \/ err = errVersion \/ err = errHeaderField).
Proof.
  intros H.
  destruct (ParseCCache_cases h b)
    as [(_ & E) | [(x & rest & _ & _ & E) | [(_ & E) |
        [(v & rest & _ & _ & E) | (v & rest & _ & Hv & E)]]]];
    rewrite E in H; try discriminate.
  - inversion H; subst. auto.
  - inversion H; subst. auto.
  - clear E. unfold ParseCCache_body in H.
    set (c0 := set_Version CCache0 (byteZ v)) in *.
    set (e := byte_order h (byteZ v)) in *.
    assert (Hok : forall c1 p, match parse_principal h b c1 e p with
                    | Done (princ, p0) =>
                        read_credentials (S (Z.to_nat (len b))) h b
                          (set_DefaultPrincipal c1 princ) e p0
                    | Panic => Panic
                    | OutOfFuel => OutOfFuel
                    end = Done (c, Some err) -> False).
    { intros c1 p H1. destruct (parse_principal h b c1 e p) as [[princ p0]| |];
        try discriminate.
      apply read_credentials_Done in H1. destruct H1 as (H1 & _). discriminate. }
    destruct (byteZ v =? 4) eqn:E4.
    + destruct (parse_header b c0 e 2) as [[[c1 [er|]] q]| |] eqn:Eh;
        try discriminate.
      * inversion H; subst. apply parse_header_error in Eh.
        apply Z.eqb_eq in E4.
        destruct Eh as (-> & [(Hne & _) | ->]); [contradiction | auto].
      * exfalso. eapply Hok; eauto.
    + exfalso. eapply Hok; eauto.
Qed.

(** ** Byte order *)

Lemma lor_shiftl_add x y k :
  0 <= k -> 0 <= x < 2 ^ k -> Z.lor x (Z.shiftl y k) = x + y * 2 ^ k.
Proof.
  intros Hk Hx.
  assert (Hland : Z.land x (Z.shiftl y k) = 0).
  { apply Z.bits_inj'. intros n Hn. rewrite Z.land_spec, Z.bits_0.
    destruct (Z_lt_dec n k) as [Hlt|Hge].
    - rewrite (Z.shiftl_spec_low y k n Hlt). apply andb_false_r.
    - destruct (Z.eq_dec x 0) as [->|Hx0].
      + rewrite Z.bits_0. reflexivity.
      + rewrite (Z.bits_above_log2 x n); [reflexivity | lia |].
        assert (Z.log2 x < k) by (apply Z.log2_lt_pow2; lia). lia. }
  rewrite <- Z.lxor_lor by exact Hland.
  rewrite <- Z.add_nocarry_lxor by exact Hland.
  rewrite Z.shiftl_mul_pow2 by exact Hk. reflexivity.
Qed.

Lemma at_range bs i : 0 <= at_ bs i <= 255.
Proof. apply byteZ_range. Qed.

Lemma Uint16_arith e bs :
  Uint16 e bs =
  match e with
  | BigEndian => at_ bs 0 * 256 + at_ bs 1
  | LittleEndian => at_ bs 0 + at_ bs 1 * 256
  end.
Proof.
  pose proof (at_range bs 0). pose proof (at_range bs 1).
  destruct e; unfold Uint16; rewrite lor_shiftl_add;
    change (2 ^ 8) with 256; lia.
Qed.

Lemma Uint32_arith e bs :
  Uint32 e bs =
  match e with
  | BigEndian =>
      at_ bs 0 * 16777216 + at_ bs 1 * 65536 + at_ bs 2 * 256 + at_ bs 3
  | LittleEndian =>
      at_ bs 0 + at_ bs 1 * 256 + at_ bs 2 * 65536 + at_ bs 3 * 16777216
  end.
Proof.
  pose proof (at_range bs 0). pose proof (at_range bs 1).
  pose proof (at_range bs 2). pose proof (at_range bs 3).
  destruct e; unfold Uint32;
    rewrite (lor_shiftl_add _ _ 8) by (change (2 ^ 8) with 256; lia);
    rewrite (lor_shiftl_add _ _ 16)
      by (change (2 ^ 8) with 256; change (2 ^ 16) with 65536; lia);
    rewrite (lor_shiftl_add _ _ 24)
      by (change (2 ^ 8) with 256; change (2 ^ 16) with 65536;
          change (2 ^ 24) with 16777216; lia);
    change (2 ^ 8) with 256; change (2 ^ 16) with 65536;
    change (2 ^ 24) with 16777216; lia.
Qed.

Lemma to_int16_signed u : 0 <= u < 65536 -> to_int16 u = signed 16 u.
Proof.
  intros Hu. unfold to_int16, signed.
  change (2 ^ (16 - 1)) with 32768. change (2 ^ 15) with 32768.
  change (2 ^ 16) with 65536.
  destruct (u <? 32768) eqn:E; [apply Z.ltb_lt in E | apply Z.ltb_ge in E].
  - rewrite Z.mod_small; lia.
  - Z.div_mod_to_equations. lia.
Qed.

Lemma to_int32_signed u : 0 <= u < 4294967296 -> to_int32 u = signed 32 u.
Proof.
  intros Hu. unfold to_int32, signed.
  change (2 ^ (32 - 1)) with 2147483648. change (2 ^ 31) with 2147483648.
  change (2 ^ 32) with 4294967296.
  destruct (u <? 2147483648) eqn:E; [apply Z.ltb_lt in E | apply Z.ltb_ge in E].
  - rewrite Z.mod_small; lia.
  - Z.div_mod_to_equations. lia.
Qed.

(** A span of [n] bytes taken from a buffer has [n] bytes. *)
Lemma span_2 b p bs :
  subslice b p (p + 2) = Done bs -> exists x0 x1, bs = [x0; x1].
Proof.
  intros H. apply subslice_length in H.
  destruct bs as [|x0 [|x1 [|x2 bs]]]; cbn [List.length] in H; try lia.
  eauto.
Qed.

Lemma span_4 b p bs :
  subslice b p (p + 4) = Done bs -> exists x0 x1 x2 x3, bs = [x0; x1; x2; x3].
Proof.
  intros H. apply subslice_length in H.
  destruct bs as [|x0 [|x1 [|x2 [|x3 [|x4 bs]]]]]; cbn [List.length] in H; try lia.
  eauto 6.
Qed.

Lemma read_int16_value b e p bs :
  subslice b p (p + 2) = Done bs ->
  read_int16 b e p =
  Done (signed 16 (match e with
                   | BigEndian => big_endian_value bs
                   | LittleEndian => little_endian_value bs
                   end), p + 2).
Proof.
  intros H. unfold read_int16. rewrite H.
  destruct (span_2 _ _ _ H) as (x0 & x1 & ->).
  rewrite Uint16_arith.
  pose proof (byteZ_range x0). pose proof (byteZ_range x1).
  rewrite to_int16_signed by (destruct e; unfold at_; cbn [nth]; lia).
  destruct e; unfold at_, big_endian_value, little_endian_value;
    cbn [nth fold_left fold_right];
    match goal with
    | |- Done (signed _ ?x, _) = Done (signed _ ?y, _) =>
        replace x with y by lia; reflexivity
    end.
Qed.

Lemma read_int32_value b e p bs :
  subslice b p (p + 4) = Done bs ->
  read_int32 b e p =
  Done (signed 32 (match e with
                   | BigEndian => big_endian_value bs
                   | LittleEndian => little_endian_value bs
                   end), p + 4).
Proof.
  intros H. unfold read_int32. rewrite H.
  destruct (span_4 _ _ _ H) as (x0 & x1 & x2 & x3 & ->).
  rewrite Uint32_arith.
  pose proof (byteZ_range x0). pose proof (byteZ_range x1).
  pose proof (byteZ_range x2). pose proof (byteZ_range x3).
  rewrite to_int32_signed by (destruct e; unfold at_; cbn [nth]; lia).
  destruct e; unfold at_, big_endian_value, little_endian_value;
    cbn [nth fold_left fold_right];
    match goal with
    | |- Done (signed _ ?x, _) = Done (signed _ ?y, _) =>
        replace x with y by lia; reflexivity
    end.
Qed.

Lemma isNativeEndianLittle_correct h : isNativeEndianLittle h = little_endian h.
Proof. destruct h as [[|] [|]]; reflexivity. Qed.

Lemma byte_order_34 h v : v = 3 \/ v = 4 -> byte_order h v = BigEndian.
Proof. intros [-> | ->]; reflexivity. Qed.

Lemma byte_order_12 h v : v = 1 \/ v = 2 -> byte_order h v = native_order h.
Proof.
  intros [-> | ->]; unfold byte_order, native_order;
    rewrite isNativeEndianLittle_correct; destruct (little_endian h); reflexivity.
Qed.

Lemma probe_default bp0 :
  bp0 <> 0x01 -> Z.land bp0 0xff <> 0x78 -> probe bp0 = false.
Proof.
  intros H1 H2. unfold probe.
  destruct (1 =? bp0) eqn:E1; [reflexivity|].
  destruct (Z.land 120 255 =? Z.land bp0 255) eqn:E2; [| reflexivity].
  apply Z.eqb_eq in E2. exfalso. apply H2. rewrite <- E2. reflexivity.
Qed.

(** ** Counts and conversions *)

Lemma times_length {A} n (m : M A) : forall p l p',
  times n m p = Done (l, p') -> List.length l = n.
Proof.
  induction n as [|n IH]; intros p l p' H; simpl in H.
  - apply ret_Done in H. inversion H. reflexivity.
  - inv_bind H. inv_bind H. apply ret_Done in H. inversion H; subst.
    simpl. f_equal. eapply IH. eassumption.
Qed.

Lemma to_int32_range z : - 2 ^ 31 <= to_int32 z < 2 ^ 31.
Proof.
  unfold to_int32. pose proof (Z.mod_pos_bound (z + 2 ^ 31) (2 ^ 32) eq_refl).
  change (2 ^ 32) with (2 * 2 ^ 31) in *. lia.
Qed.

Lemma to_int_decrement h n :
  - 2 ^ 31 <= n < 2 ^ 31 -> int_size h = Int64 \/ n <> - 2 ^ 31 ->
  to_int h (n - 1) = n - 1.
Proof.
  intros Hn Hh. unfold to_int, int_bytes.
  destruct (int_size h) eqn:Es.
  - destruct Hh as [Hh|Hh]; [discriminate|].
    change (2 ^ (8 * Z.of_nat 4 - 1)) with (2 ^ 31).
    change (2 ^ (8 * Z.of_nat 4)) with (2 * 2 ^ 31).
    rewrite Z.mod_small; lia.
  - change (2 ^ (8 * Z.of_nat 8 - 1)) with (2 ^ 63).
    change (2 ^ (8 * Z.of_nat 8)) with (2 * 2 ^ 63).
    assert (2 ^ 31 < 2 ^ 63) by reflexivity.
    rewrite Z.mod_small; lia.
Qed.

(** ** Decoding what the encoders write *)

Lemma byteZ_byte_of z : byteZ (byte_of z) = z mod 256.
Proof.
  unfold byte_of, byteZ.
  pose proof (Z.mod_pos_bound z 256 eq_refl) as Hm.
  destruct (Byte.of_N (Z.to_N (z mod 256))) as [x|] eqn:E.
  - apply Byte.to_of_N in E. rewrite E. lia.
  - apply Byte.of_N_None_iff in E. lia.
Qed.

Lemma Uint16_enc16 e z : Uint16 e (enc16 e z) = z mod 65536.
Proof.
  rewrite Uint16_arith. destruct e; unfold enc16, at_; cbn [rev app nth];
    rewrite !byteZ_byte_of, !Z.shiftr_div_pow2 by lia;
    change (2 ^ 8) with 256; Z.div_mod_to_equations; lia.
Qed.

Lemma Uint32_enc32 e z : Uint32 e (enc32 e z) = z mod 4294967296.
Proof.
  rewrite Uint32_arith. destruct e; unfold enc32, at_; cbn [rev app nth];
    rewrite !byteZ_byte_of, !Z.shiftr_div_pow2 by lia;
    change (2 ^ 8) with 256; change (2 ^ 16) with 65536;
    change (2 ^ 24) with 16777216; Z.div_mod_to_equations; lia.
Qed.

Lemma subslice_app b pre mid suf :
  backing b = pre ++ mid ++ suf ->
  subslice b (Z.of_nat (List.length pre))
             (Z.of_nat (List.length pre) + Z.of_nat (List.length mid)) = Done mid.
Proof.
  intros Hb. rewrite subslice_in_range.
  - rewrite Hb. f_equal.
    replace (Z.of_nat (List.length pre) + Z.of_nat (List.length mid)
             - Z.of_nat (List.length pre)) with (Z.of_nat (List.length mid)) by lia.
    rewrite !Nat2Z.id. rewrite skipn_app, skipn_all, Nat.sub_diag. cbn [skipn app].
    rewrite firstn_app, firstn_all, Nat.sub_diag. cbn [firstn]. apply app_nil_r.
  - lia.
  - lia.
  - unfold cap. rewrite Hb, !length_app. lia.
Qed.

Lemma decodes_ret {A} (x : A) : decodes (fun _ => ret x) [] x.
Proof. intros b pre suf _. unfold ret. cbn [List.length]. do 2 f_equal. lia. Qed.

Lemma decodes_bind {A B} (m : byteslice -> M A) (k : byteslice -> A -> M B)
    e1 e2 x y :
  decodes m e1 x -> decodes (fun b => k b x) e2 y ->
  decodes (fun b => a <- m b ;; k b a) (e1 ++ e2) y.
Proof.
  intros Hm Hk b pre suf Hb.
  rewrite <- app_assoc in Hb.
  rewrite (bind_eq _ _ _ _ _ (Hm b pre (e2 ++ suf) Hb)).
  rewrite app_assoc in Hb.
  pose proof (Hk b (pre ++ e1) suf Hb) as H. cbv beta in H.
  rewrite length_app, Nat2Z.inj_add in H. rewrite H.
  rewrite length_app, Nat2Z.inj_add. do 2 f_equal. lia.
Qed.

Lemma decodes_times {A} (m : byteslice -> M A) (enc : A -> list byte) xs :
  (forall x, In x xs -> decodes m (enc x) x) ->
  decodes (fun b => times (List.length xs) (m b)) (List.concat (map enc xs)) xs.
Proof.
  induction xs as [|x xs IH]; intros Hm; cbn [List.length times map List.concat].
  - apply decodes_ret.
  - eapply (decodes_bind m (fun b x => ys <- times (List.length xs) (m b) ;; ret (x :: ys))).
    + apply Hm. left. reflexivity.
    + rewrite <- (app_nil_r (List.concat (map enc xs))).
      eapply (decodes_bind (fun b => times (List.length xs) (m b))
                           (fun _ ys => ret (x :: ys))).
      * apply IH. intros y Hy. apply Hm. right. exact Hy.
      * apply decodes_ret.
Qed.

Lemma decodes_read_int16 e z :
  - 2 ^ 15 <= z < 2 ^ 15 -> decodes (fun b => read_int16 b e) (enc16 e z) z.
Proof.
  intros Hz b pre suf Hb. unfold read_int16.
  pose proof (subslice_app b pre (enc16 e z) suf Hb) as Hs.
  replace (Z.of_nat (List.length (enc16 e z))) with 2 in * by (destruct e; reflexivity).
  rewrite Hs. rewrite Uint16_enc16. do 2 f_equal.
  unfold to_int16. change (2 ^ 15) with 32768 in *. change (2 ^ 16) with 65536.
  Z.div_mod_to_equations. lia.
Qed.

Lemma decodes_read_int32 e z :
  - 2 ^ 31 <= z < 2 ^ 31 -> decodes (fun b => read_int32 b e) (enc32 e z) z.
Proof.
  intros Hz b pre suf Hb. unfold read_int32.
  pose proof (subslice_app b pre (enc32 e z) suf Hb) as Hs.
  replace (Z.of_nat (List.length (enc32 e z))) with 4 in * by (destruct e; reflexivity).
  rewrite Hs. rewrite Uint32_enc32. do 2 f_equal.
  unfold to_int32. change (2 ^ 31) with 2147483648 in *.
  change (2 ^ 32) with 4294967296.
  Z.div_mod_to_equations. lia.
Qed.

Lemma decodes_read_Bytes e d :
  decodes (fun b => read_Bytes b (Z.of_nat (List.length d)) e) d d.
Proof.
  intros b pre suf Hb. unfold read_Bytes.
  rewrite (subslice_app b pre d suf Hb). reflexivity.
Qed.

Lemma decodes_read_data e d :
  Z.of_nat (List.length d) < 2 ^ 31 ->
  decodes (fun b => read_data b e) (enc_data e d) d.
Proof.
  intros Hd. unfold read_data, enc_data.
  eapply (decodes_bind (fun b => read_int32 b e) (fun b l => read_Bytes b l e)).
  - apply decodes_read_int32. lia.
  - apply decodes_read_Bytes.
Qed.

(** Split a [decodes] goal along the first bind of the reader. *)
Ltac dbind :=
  match goal with
  | |- decodes (fun b => bind (@?m b) (@?k b)) (?e1 ++ ?e2) ?y =>
      eapply (decodes_bind m k e1 e2); [| cbv beta]
  end.

Lemma decodes_read_component e s :
  short (list_byte_of_string s) ->
  decodes (fun b => read_component b e) (enc_string e s) s.
Proof.
  intros Hs. unfold read_component, enc_string, enc_data.
  rewrite <- (app_nil_r (list_byte_of_string s)) at 2.
  dbind; [apply decodes_read_int32; unfold short in Hs; lia|].
  dbind; [apply decodes_read_Bytes|].
  rewrite string_of_list_byte_of_string. apply decodes_ret.
Qed.

Lemma decodes_parse_principal h c e pr :
  wf_principal (Version c) pr ->
  decodes (fun b => parse_principal h b c e) (enc_principal (Version c) e pr) pr.
Proof.
  destruct pr as [realm [nt names]].
  intros (Hv1 & Hnt & Hn & Hr & Hs). cbn [NameType NameString PrincipalName Realm] in *.
  unfold parse_principal, enc_principal, enc_string, enc_data.
  cbn [NameType NameString PrincipalName Realm].
  rewrite <- !app_assoc.
  rewrite <- (app_nil_r (List.concat _)).
  assert (Hcount : Z.to_nat (if Version c =? 1
                             then to_int h (Z.of_nat (List.length names)
                                            + (if Version c =? 1 then 1 else 0) - 1)
                             else Z.of_nat (List.length names)
                                  + (if Version c =? 1 then 1 else 0))
                   = List.length names).
  { destruct (Version c =? 1).
    - rewrite to_int_decrement; [lia | change (2 ^ 31) with 2147483648 in *; lia
                                 | right; lia].
    - lia. }
  dbind.
  { destruct (Version c =? 1) eqn:Ev; cbn [negb].
    - apply Z.eqb_eq in Ev. rewrite (Hv1 Ev). apply decodes_ret.
    - apply decodes_read_int32. exact Hnt. }
  dbind.
  { apply decodes_read_int32. unfold int32_range.
    destruct (Version c =? 1); change (2 ^ 31) with 2147483648 in *; lia. }
  rewrite Hcount.
  dbind; [apply decodes_read_int32; unfold short in Hr; lia|].
  dbind; [apply decodes_read_Bytes|].
  dbind.
  { apply (decodes_times (fun b => read_component b e)
             (fun s => enc32 e (Z.of_nat (List.length (list_byte_of_string s)))
                       ++ list_byte_of_string s)).
    intros s Hin. apply decodes_read_component.
    rewrite Forall_forall in Hs. apply Hs. exact Hin. }
  rewrite string_of_list_byte_of_string. apply decodes_ret.
Qed.

Lemma decodes_read_int8 e x :
  decodes (fun b => read_int8 b e) [x] (to_int8 (byteZ x)).
Proof.
  intros b pre suf Hb. unfold read_int8.
  pose proof (subslice_app b pre [x] suf Hb) as Hs.
  cbn [List.length] in *. change (Z.of_nat 1) with 1 in *. rewrite Hs. reflexivity.
Qed.

Lemma decodes_read_address e a :
  int16_range (AddrType a) -> short (Address a) ->
  decodes (fun b => read_address b e)
          (enc16 e (AddrType a) ++ enc_data e (Address a)) a.
Proof.
  intros Ht Ha. unfold read_address.
  rewrite <- (app_nil_r (enc_data e (Address a))).
  dbind; [apply decodes_read_int16; exact Ht|].
  dbind; [apply decodes_read_data; exact Ha|].
  destruct a. apply decodes_ret.
Qed.

Lemma decodes_read_authDataEntry e a :
  int16_range (ADType a) -> short (ADData a) ->
  decodes (fun b => read_authDataEntry b e)
          (enc16 e (ADType a) ++ enc_data e (ADData a)) a.
Proof.
  intros Ht Ha. unfold read_authDataEntry.
  rewrite <- (app_nil_r (enc_data e (ADData a))).
  dbind; [apply decodes_read_int16; exact Ht|].
  dbind; [apply decodes_read_data; exact Ha|].
  destruct a. apply decodes_ret.
Qed.

Lemma make_and_fill_of_nat {A} n (m : M A) :
  make_and_fill (Z.of_nat n) m = times n m.
Proof.
  unfold make_and_fill.
  replace (Z.of_nat n <? 0) with false by (symmetry; apply Z.ltb_ge; lia).
  rewrite Nat2Z.id. reflexivity.
Qed.

Lemma decodes_make_and_fill {A} (m : byteslice -> M A) (enc : A -> list byte) xs :
  (forall x, In x xs -> decodes m (enc x) x) ->
  decodes (fun b => make_and_fill (Z.of_nat (List.length xs)) (m b))
          (List.concat (map enc xs)) xs.
Proof.
  intros Hm b pre suf Hb. rewrite make_and_fill_of_nat.
  apply (decodes_times m enc xs Hm b pre suf Hb).
Qed.

Lemma decodes_parse_credential h c e first_kt cred :
  wf_credential (Version c) cred -> int16_range first_kt ->
  decodes (fun b => parse_credential h b c e)
          (enc_credential (Version c) e first_kt cred) (cred, None).
Proof.
  destruct cred as [client server [kt kv] t1 t2 t3 t4 skey flags addrs auth
                    ticket ticket2].
  intros (Hc & Hs & Hkt & Hkv & Ht1 & Ht2 & Ht3 & Ht4 & Hfl & Hna & Ha & Hnd & Hd
          & Htk & Htk2) Hfirst.
  cbn [Client Server Key KeyType KeyValue AuthTime StartTime EndTime RenewTill
       IsSKey TicketFlags Addresses AuthData Ticket SecondTicket] in *.
  unfold parse_credential, read_timestamp, enc_credential, enc_credential_tail.
  cbn [Client Server Key KeyType KeyValue AuthTime StartTime EndTime RenewTill
       IsSKey TicketFlags Addresses AuthData Ticket SecondTicket].
  rewrite <- (app_nil_r (enc_data e ticket2)).
  replace 4 with (Z.of_nat (List.length flags)) by (rewrite Hfl; reflexivity).
  dbind; [apply decodes_parse_principal; exact Hc|].
  dbind; [apply decodes_parse_principal; exact Hs|].
  destruct (Version c =? 3);
    [ dbind; [apply decodes_read_int16; exact Hfirst|];
      dbind; [apply decodes_read_int16; exact Hkt|]
    | change ([] ++ enc16 e kt ++ ?l) with (enc16 e kt ++ [] ++ l);
      dbind; [apply decodes_read_int16; exact Hkt|];
      dbind; [apply decodes_ret|] ].
  all: dbind; [apply decodes_read_data; exact Hkv|].
  all: dbind; [apply decodes_read_int32; exact Ht1|].
  all: dbind; [apply decodes_read_int32; exact Ht2|].
  all: dbind; [apply decodes_read_int32; exact Ht3|].
  all: dbind; [apply decodes_read_int32; exact Ht4|].
  all: dbind; [apply decodes_read_int8|].
  all: dbind; [apply decodes_read_Bytes|].
  all: dbind; [apply decodes_read_int32; unfold int32_range; lia|].
  all: dbind;
    [ apply (decodes_make_and_fill (fun b => read_address b e)
               (fun a => enc16 e (AddrType a) ++ enc_data e (Address a)));
      intros a Hin; rewrite Forall_forall in Ha; destruct (Ha a Hin);
      apply decodes_read_address; assumption |].
  all: dbind; [apply decodes_read_int32; unfold int32_range; lia|].
  all: dbind;
    [ apply (decodes_make_and_fill (fun b => read_authDataEntry b e)
               (fun a => enc16 e (ADType a) ++ enc_data e (ADData a)));
      intros a Hin; rewrite Forall_forall in Hd; destruct (Hd a Hin);
      apply decodes_read_authDataEntry; assumption |].
  all: dbind; [apply decodes_read_data; exact Htk|].
  all: dbind; [apply decodes_read_data; exact Htk2|].
  all: destruct skey; apply decodes_ret.
Qed.

(** ** The queries *)

Lemma HasPrefix_spec s pre :
  HasPrefix s pre = true <-> exists rest, s = (pre ++ rest)%string.
Proof.
  unfold HasPrefix. revert s. induction pre as [|a pre IH]; intros s.
  - destruct s; simpl; split; eauto.
  - destruct s as [|a' s]; simpl.
    + split; [discriminate | intros (rest & H); discriminate H].
    + destruct (ascii_dec a a') as [->|Hne].
      * rewrite IH. split; intros (rest & H); exists rest; congruence.
      * split; [discriminate | intros (rest & H); congruence].
Qed.

Lemma GetEntries_loop_filter rest : forall creds,
  GetEntries_loop rest creds
  = creds ++ filter (fun cred => negb (is_config cred)) rest.
Proof.
  induction rest as [|cred rest IH]; intros creds; simpl.
  - rewrite app_nil_r. reflexivity.
  - unfold is_config at 1. destruct (HasPrefix _ _); simpl.
    + apply IH.
    + rewrite IH, <- app_assoc. reflexivity.
Qed.

Section QueryProperties.

Variable Equal : PrincipalName_t -> PrincipalName_t -> bool.

Lemma Contains_loop_existsb creds p :
  Contains_loop Equal creds p
  = existsb (fun cred => Equal (PrincipalName (Server cred)) p) creds.
Proof.
  induction creds as [|cred creds IH]; simpl; [reflexivity|].
  destruct (Equal _ p); simpl; [reflexivity | exact IH].
Qed.

Lemma GetEntry_loop_find creds p :
  GetEntry_loop Equal creds p
  = match find (fun cred => Equal (PrincipalName (Server cred)) p) creds with
    | Some cred => (cred, true)
    | None => (credential0, false)
    end.
Proof.
  induction creds as [|cred creds IH]; simpl; [reflexivity|].
  destruct (Equal _ p); simpl; [reflexivity | exact IH].
Qed.

End QueryProperties.

(** ** Buffers and their truncations *)

Lemma carries_ret {A} (a : A) : carries (ret a) (ret a).
Proof. intros p r H. exact H. Qed.

Lemma carries_bind {A B} (mt mb : M A) (kt kb : A -> M B) :
  carries mt mb -> (forall a, carries (kt a) (kb a)) ->
  carries (x <- mt ;; kt x) (x <- mb ;; kb x).
Proof.
  intros Hm Hk p r H. inv_bind H. apply Hm in Hr. apply Hk in H.
  rewrite (bind_eq _ _ _ _ _ Hr). exact H.
Qed.

Lemma carries_times {A} n (mt mb : M A) :
  carries mt mb -> carries (times n mt) (times n mb).
Proof.
  intros Hm. induction n as [|n IH]; simpl.
  - apply carries_ret.
  - apply carries_bind; [exact Hm | intros a].
    apply carries_bind; [exact IH | intros xs; apply carries_ret].
Qed.

Lemma subslice_extends t b lo hi l :
  extends t b -> subslice t lo hi = Done l -> subslice b lo hi = Done l.
Proof.
  intros (rest & Hb) H. apply subslice_Done in H.
  destruct H as (H1 & H2 & H3 & ->). unfold cap in H3.
  rewrite subslice_in_range; try assumption.
  - rewrite Hb. rewrite skipn_app.
    replace (Z.to_nat lo - List.length (backing t))%nat with 0%nat by lia.
    rewrite firstn_app. rewrite length_skipn.
    replace (Z.to_nat (hi - lo) - (List.length (backing t) - Z.to_nat lo))%nat
      with 0%nat by lia.
    cbn [skipn firstn]. rewrite app_nil_r. reflexivity.
  - unfold cap. rewrite Hb, length_app. lia.
Qed.

Section Extension.

Variables t b : byteslice.
Hypothesis Hext : extends t b.

Lemma carries_read_int8 e : carries (read_int8 t e) (read_int8 b e).
Proof.
  intros p r H. unfold read_int8 in *.
  destruct (subslice t p (p + 1)) eqn:E; try discriminate.
  rewrite (subslice_extends _ _ _ _ _ Hext E). exact H.
Qed.

Lemma carries_read_int16 e : carries (read_int16 t e) (read_int16 b e).
Proof.
  intros p r H. unfold read_int16 in *.
  destruct (subslice t p (p + 2)) eqn:E; try discriminate.
  rewrite (subslice_extends _ _ _ _ _ Hext E). exact H.
Qed.

Lemma carries_read_int32 e : carries (read_int32 t e) (read_int32 b e).
Proof.
  intros p r H. unfold read_int32 in *.
  destruct (subslice t p (p + 4)) eqn:E; try discriminate.
  rewrite (subslice_extends _ _ _ _ _ Hext E). exact H.
Qed.

Lemma carries_read_Bytes s e : carries (read_Bytes t s e) (read_Bytes b s e).
Proof.
  intros p r H. unfold read_Bytes in *.
  destruct (subslice t p (p + s)) eqn:E; try discriminate.
  rewrite (subslice_extends _ _ _ _ _ Hext E). exact H.
Qed.

Lemma carries_read_data e : carries (read_data t e) (read_data b e).
Proof.
  apply carries_bind; [apply carries_read_int32 | intros; apply carries_read_Bytes].
Qed.

Lemma carries_read_headerField e :
  carries (read_headerField t e) (read_headerField b e).
Proof.
  unfold read_headerField.
  apply carries_bind; [apply carries_read_int16 | intros tag].
  apply carries_bind; [apply carries_read_int16 | intros l].
  apply carries_bind; [| intros; apply carries_ret].
  intros p r H. destruct (subslice t p (p + to_uint16 l)) eqn:E; try discriminate.
  rewrite (subslice_extends _ _ _ _ _ Hext E). exact H.
Qed.

Lemma carries_header_fields fuel : forall e h_len fields,
  carries (header_fields fuel t e h_len fields)
          (header_fields fuel b e h_len fields).
Proof.
  induction fuel as [|fuel IH]; intros e h_len fields p r H; simpl in *;
    [discriminate|].
  destruct (p <=? h_len); [| exact H].
  destruct (read_headerField t e p) as [[f p']| |] eqn:E; try discriminate.
  rewrite (carries_read_headerField e _ _ E).
  destruct (negb (valid f)); [exact H | apply IH; exact H].
Qed.

Lemma carries_parse_header c e : carries (parse_header t c e) (parse_header b c e).
Proof.
  unfold parse_header. destruct (negb (Version c =? 4)); [apply carries_ret|].
  apply carries_bind; [apply carries_read_int16 | intros l].
  apply carries_bind; [apply carries_header_fields | intros r].
  destruct (snd r); apply carries_ret.
Qed.

Lemma carries_read_component e :
  carries (read_component t e) (read_component b e).
Proof.
  unfold read_component.
  apply carries_bind; [apply carries_read_int32 | intros l].
  apply carries_bind; [apply carries_read_Bytes | intros; apply carries_ret].
Qed.

Lemma carries_parse_principal h c e :
  carries (parse_principal h t c e) (parse_principal h b c e).
Proof.
  unfold parse_principal.
  apply carries_bind;
    [destruct (negb _); [apply carries_read_int32 | apply carries_ret] | intros nt].
  apply carries_bind; [apply carries_read_int32 | intros nc].
  apply carries_bind; [apply carries_read_int32 | intros lr].
  apply carries_bind; [apply carries_read_Bytes | intros realm].
  apply carries_bind; [apply carries_times, carries_read_component | intros].
  apply carries_ret.
Qed.

Lemma carries_make_and_fill {A} l (mt mb : M A) :
  carries mt mb -> carries (make_and_fill l mt) (make_and_fill l mb).
Proof.
  intros Hm. unfold make_and_fill. destruct (l <? 0).
  - intros p r H. discriminate H.
  - apply carries_times, Hm.
Qed.

Lemma carries_parse_credential h c e :
  carries (parse_credential h t c e) (parse_credential h b c e).
Proof.
  unfold parse_credential, read_timestamp, read_address, read_authDataEntry.
  repeat first
    [ apply carries_ret
    | apply carries_read_int8 | apply carries_read_int16
    | apply carries_read_int32 | apply carries_read_Bytes
    | apply carries_read_data | apply carries_parse_principal
    | apply carries_make_and_fill
    | apply carries_bind; [| intros ?]
    | match goal with
      | |- carries (if ?c then _ else _) _ => destruct c
      end ].
Qed.

End Extension.

Lemma extends_truncate n b : extends (truncate n b) b.
Proof.
  exists (skipn n (elems b) ++ spare b). unfold backing, truncate, of_bytes.
  cbn [elems spare]. rewrite app_nil_r, app_assoc, firstn_skipn. reflexivity.
Qed.

Lemma stays_of_lands b {A} (m : M A) : lands b m -> stays b m.
Proof. intros H p a p' Hm _. eapply H; eassumption. Qed.

Lemma stays_ret b {A} (a : A) : stays b (ret a).
Proof. intros p x p' H Hp. apply ret_Done in H. inversion H; subst. exact Hp. Qed.

Lemma stays_bind b {A B} (m : M A) (k : A -> M B) :
  stays b m -> (forall a, stays b (k a)) -> stays b (x <- m ;; k x).
Proof.
  intros Hm Hk p r p' H Hp. inv_bind H. eapply Hk; [eassumption|].
  eapply Hm; eassumption.
Qed.

Lemma stays_times b {A} n (m : M A) : stays b m -> stays b (times n m).
Proof.
  intros Hm. induction n as [|n IH]; simpl.
  - apply stays_ret.
  - apply stays_bind; [exact Hm | intros a].
    apply stays_bind; [exact IH | intros xs; apply stays_ret].
Qed.

Lemma lands_bind b {A B} (m : M A) (k : A -> M B) :
  lands b m -> (forall a, stays b (k a)) -> lands b (x <- m ;; k x).
Proof.
  intros Hm Hk p r p' H. inv_bind H. eapply Hk; [eassumption|].
  eapply Hm; eassumption.
Qed.

Lemma lands_bind_r b {A B} (m : M A) (k : A -> M B) :
  (forall a, lands b (k a)) -> lands b (x <- m ;; k x).
Proof. intros Hk p r p' H. inv_bind H. eapply Hk; eassumption. Qed.

Lemma lands_read_int32 b e : lands b (read_int32 b e).
Proof.
  intros p a p' H. apply read_int32_Done in H. destruct H as (buf & E & _ & ->).
  apply subslice_Done in E. lia.
Qed.

Lemma lands_read_Bytes b s e : lands b (read_Bytes b s e).
Proof.
  intros p a p' H. apply read_Bytes_Done in H. destruct H as (E & -> & _).
  apply subslice_Done in E. lia.
Qed.

Lemma lands_read_data b e : lands b (read_data b e).
Proof. apply lands_bind_r. intros l. apply lands_read_Bytes. Qed.

Lemma lands_read_component b e : lands b (read_component b e).
Proof.
  unfold read_component. apply lands_bind_r. intros l.
  apply lands_bind; [apply lands_read_Bytes | intros; apply stays_ret].
Qed.

Lemma lands_parse_principal h b c e : lands b (parse_principal h b c e).
Proof.
  unfold parse_principal. do 3 (apply lands_bind_r; intros ?).
  apply lands_bind; [apply lands_read_Bytes | intros realm].
  apply stays_bind; [| intros; apply stays_ret].
  apply stays_times, stays_of_lands, lands_read_component.
Qed.

Lemma lands_parse_credential h b c e : lands b (parse_credential h b c e).
Proof.
  unfold parse_credential. do 16 (apply lands_bind_r; intros ?).
  apply lands_bind; [apply lands_read_data | intros; apply stays_ret].
Qed.

(** The credentials loop on a buffer and on a shorter one it extends, from
    the same state: what the shorter buffer yields is a prefix of what the
    longer one yields, and a proper one if the loop on the shorter buffer
    stopped inside the longer one. *)
Lemma read_credentials_extends h t b e :
  extends t b -> len t <= len b ->
  forall fuel_t fuel_b c p c' err' cb errb,
    read_credentials fuel_t h t c e p = Done (c', err') ->
    read_credentials fuel_b h b c e p = Done (cb, errb) ->
    p <= cap t -> cap t < len b ->
    err' = None /\ Version cb = Version c' /\ Header cb = Header c' /\
    DefaultPrincipal cb = DefaultPrincipal c' /\ Path cb = Path c' /\
    exists more, more <> [] /\ Credentials cb = Credentials c' ++ more.
Proof.
  intros Hext Hlen fuel_t.
  induction fuel_t as [|fuel_t IH];
    intros fuel_b c p c' err' cb errb Ht Hb Hp Hcap; simpl in Ht;
    [discriminate|].
  destruct fuel_b as [|fuel_b]; simpl in Hb; [discriminate|].
  destruct (p <? len t) eqn:Elt.
  - apply Z.ltb_lt in Elt.
    replace (p <? len b) with true in Hb by (symmetry; apply Z.ltb_lt; lia).
    destruct (parse_credential h t c e p) as [[[cred er] p']| |] eqn:E;
      try discriminate.
    pose proof (lands_parse_credential _ _ _ _ _ _ _ E) as Hland.
    rewrite (carries_parse_credential t b Hext h c e _ _ E) in Hb.
    destruct er; [apply parse_credential_no_error in E; discriminate E|].
    eapply IH; eassumption.
  - inversion Ht; subst c' err'; clear Ht.
    replace (p <? len b) with true in Hb by (symmetry; apply Z.ltb_lt; lia).
    destruct (parse_credential h b c e p) as [[[cred er] p']| |] eqn:E;
      try discriminate.
    destruct er; [apply parse_credential_no_error in E; discriminate E|].
    pose proof (read_credentials_Path _ _ _ _ _ _ _ _ Hb) as HP.
    apply read_credentials_Done in Hb. cbn in Hb, HP.
    destruct Hb as (_ & Hv & Hh & Hd & creds & Hc).
    repeat split; try assumption.
    exists (cred :: creds). split; [discriminate|].
    rewrite Hc, <- app_assoc. reflexivity.
Qed.

Lemma ParseCCache_tail_extends h t b c1 e q c' err' c err :
  extends t b -> len t <= len b -> cap t < len b ->
  ParseCCache_tail h t c1 e q = Done (c', err') ->
  ParseCCache_tail h b c1 e q = Done (c, err) ->
  err' = None /\ Version c = Version c' /\ Header c = Header c' /\
  DefaultPrincipal c = DefaultPrincipal c' /\ Path c = Path c' /\
  exists more, more <> [] /\ Credentials c = Credentials c' ++ more.
Proof.
  intros Hext Hlen Hcap Ht Hb. unfold ParseCCache_tail in *.
  destruct (parse_principal h t c1 e q) as [[princ q']| |] eqn:E;
    try discriminate.
  rewrite (carries_parse_principal t b Hext h c1 e _ _ E) in Hb.
  apply lands_parse_principal in E.
  eapply read_credentials_extends; eassumption.
Qed.

Lemma truncate_elems n b :
  (n < List.length (elems b))%nat ->
  elems (truncate n b) = firstn n (elems b) /\
  len (truncate n b) = Z.of_nat n /\ cap (truncate n b) = Z.of_nat n.
Proof.
  intros Hn. unfold truncate, of_bytes, len, cap, backing. cbn [elems spare].
  rewrite app_nil_r, length_firstn. repeat split; lia.
Qed.

(** Decoding a truncation of a buffer that decodes without error. *)
Lemma ParseCCache_truncate h b c n :
  ParseCCache h b = Done (c, None) ->
  (n < List.length (elems b))%nat ->
  ParseCCache h (truncate n b) = Panic \/
  exists c' more,
    ParseCCache h (truncate n b) = Done (c', None) /\ more <> [] /\
    Version c = Version c' /\ Header c = Header c' /\
    DefaultPrincipal c = DefaultPrincipal c' /\ Path c = Path c' /\
    Credentials c = Credentials c' ++ more.
Proof.
  intros H Hn.
  destruct (truncate_elems n b Hn) as (Hel & Hlt & Hct).
  pose proof (extends_truncate n b) as Hext.
  set (t := truncate n b) in *.
  assert (Hlen : len t <= len b) by (unfold len at 2; lia).
  assert (Hcap : cap t < len b) by (unfold len; lia).
  destruct (ParseCCache_cases h b)
    as [(_ & E) | [(x & rest & _ & _ & E) | [(_ & E) |
        [(v & rest & _ & _ & E) | (v & rest & Hb & Hv & E)]]]];
    rewrite E in H; try discriminate.
  clear E.
  destruct n as [|[|m]].
  - left. unfold ParseCCache. rewrite index_nil; [reflexivity|].
    rewrite Hel. reflexivity.
  - left. rewrite Hb in Hel. cbn [firstn] in Hel.
    unfold ParseCCache. rewrite (index_0 _ _ _ Hel).
    change (negb (to_int8 (byteZ x05) =? 5)) with false. cbv iota.
    rewrite (index_short _ _ _ Hel); [reflexivity | lia].
  - rewrite Hb in Hel. cbn [firstn] in Hel.
    rewrite (ParseCCache_unfold h t v _ Hel Hv).
    unfold ParseCCache_body in *.
    set (c0 := set_Version CCache0 (byteZ v)) in *.
    set (e := byte_order h (byteZ v)) in *.
    assert (Htail : forall c1 q, 0 <= q ->
              ParseCCache_tail h b c1 e q = Done (c, None) ->
              ParseCCache_tail h t c1 e q = Panic \/
              exists c' more,
                ParseCCache_tail h t c1 e q = Done (c', None) /\ more <> [] /\
                Version c = Version c' /\ Header c = Header c' /\
                DefaultPrincipal c = DefaultPrincipal c' /\ Path c = Path c' /\
                Credentials c = Credentials c' ++ more).
    { intros c1 q Hq Hbt.
      destruct (ParseCCache_tail h t c1 e q) as [[c' err']| |] eqn:Ett.
      - right.
        destruct (ParseCCache_tail_extends _ _ _ _ _ _ _ _ _ _
                    Hext Hlen Hcap Ett Hbt)
          as (-> & Hv' & Hh & Hd & HP & more & Hm & Hc).
        exists c', more. repeat split; assumption.
      - left. reflexivity.
      - exfalso. unfold ParseCCache_tail in Ett.
        pose proof (total_parse_principal h t c1 e q) as Htp.
        destruct (parse_principal h t c1 e q) as [[princ q']| |] eqn:Ep;
          try discriminate; [| congruence].
        pose proof (advances_parse_principal _ _ _ _ _ _ _ Ep).
        pose proof (lands_parse_principal _ _ _ _ _ _ _ Ep).
        revert Ett. apply read_credentials_fuel. unfold len in *. lia. }
    destruct (byteZ v =? 4).
    + pose proof (total_parse_header t c0 e 2) as Hth.
      destruct (parse_header t c0 e 2) as [[[c1 er] q]| |] eqn:Eh;
        [| left; reflexivity | congruence].
      rewrite (carries_parse_header t b Hext c0 e _ _ Eh) in H.
      destruct er; [discriminate H|].
      apply advances_parse_header in Eh.
      apply Htail; [lia | exact H].
    + apply Htail; [lia | exact H].
Qed.

(** ** The samples *)

Example probe_on_sample_hosts :
  map isNativeEndianLittle [amd64; i386; s390x; mips] = [true; true; false; false] /\
  int_in_memory s390x 0x012345678 = [0; 0; 0; 0; 0x12; 0x34; 0x56; 0x78] /\
  int_in_memory mips 0x012345678 = [0x12; 0x34; 0x56; 0x78].
Proof. repeat split. Qed.

(** One header field, the default principal user@EXAMPLE.COM, no
    credential. *)
Example v4_user_decodes :
  exists c, ParseCCache amd64 (of_bytes v4_user) = Done (c, None) /\
    List.length (h_fields (Header c)) = 1%nat /\
    GetClientRealm c = "EXAMPLE.COM"%string /\ GetEntries c = [].
Proof. eexists. split; [vm_compute; reflexivity | repeat split]. Qed.

Example sample_credential_wf :
  wf_credential 3 (sample_credential krbtgt_principal) /\
  wf_credential 3 (sample_credential conf_principal).
Proof.
  unfold wf_credential, wf_principal, int16_range, int32_range, short.
  cbn -[Z.pow].
  repeat match goal with
         | |- _ /\ _ => split
         | |- Forall _ _ => constructor
         | |- _ -> _ => intros ?
         end; try discriminate; try reflexivity; lia.
Qed.

Example v2_cache_wf : wf_CCache v2_cache.
Proof.
  unfold wf_CCache, v2_cache. cbn -[Z.pow wf_credential wf_principal].
  split; [lia|]. split; [reflexivity|].
  split; [| split; [constructor; [| constructor] | reflexivity]];
    unfold wf_credential, wf_principal, int16_range, int32_range, short;
    cbn -[Z.pow];
    repeat match goal with
           | |- _ /\ _ => split
           | |- Forall _ _ => constructor
           | |- _ -> _ => intros ?
           end; try discriminate; try reflexivity; lia.
Qed.

(** * Further properties of the decoder *)

Lemma to_uint16_to_int16 u : 0 <= u < 65536 -> to_uint16 (to_int16 u) = u.
Proof.
  intros Hu. unfold to_uint16, to_int16.
  change (2 ^ 15) with 32768. change (2 ^ 16) with 65536.
  Z.div_mod_to_equations. lia.
Qed.

Lemma read_uint16_enc16 e z b pre suf :
  0 <= z < 65536 -> backing b = pre ++ enc16 e z ++ suf ->
  exists l, read_int16 b e (Z.of_nat (List.length pre))
            = Done (l, Z.of_nat (List.length pre) + 2) /\ to_uint16 l = z.
Proof.
  intros Hz Hb. unfold read_int16.
  pose proof (subslice_app b pre (enc16 e z) suf Hb) as Hs.
  replace (Z.of_nat (List.length (enc16 e z))) with 2 in * by (destruct e; reflexivity).
  rewrite Hs. eexists. split; [reflexivity|].
  rewrite Uint16_enc16. rewrite Z.mod_small by lia. apply to_uint16_to_int16. exact Hz.
Qed.

Lemma read_headerField_enc e f b pre suf :
  valid f = true -> backing b = pre ++ enc_headerField e f ++ suf ->
  read_headerField b e (Z.of_nat (List.length pre))
  = Done (f, Z.of_nat (List.length pre) + 12).
Proof.
  intros Hv Hb. apply valid_iff in Hv. destruct Hv as (Ht & Hl & Hn).
  destruct f as [tag len val]. cbn [f_tag f_length f_value] in *. subst tag len.
  unfold enc_headerField in Hb. cbn [f_tag f_length f_value] in Hb.
  rewrite <- !app_assoc in Hb. unfold read_headerField.
  destruct (read_uint16_enc16 e 1 b pre _ ltac:(lia) Hb) as (l1 & H1 & E1).
  rewrite (bind_eq _ _ _ _ _ H1).
  assert (Hb2 : backing b = (pre ++ enc16 e 1) ++ enc16 e 8 ++ val ++ suf)
    by (rewrite Hb, <- !app_assoc; reflexivity).
  destruct (read_uint16_enc16 e 8 b _ _ ltac:(lia) Hb2) as (l2 & H2 & E2).
  rewrite length_app in H2.
  replace (Z.of_nat (List.length pre + List.length (enc16 e 1)))
    with (Z.of_nat (List.length pre) + 2) in H2 by (destruct e; cbn; lia).
  rewrite (bind_eq _ _ _ _ _ H2).
  assert (Hb3 : backing b = ((pre ++ enc16 e 1) ++ enc16 e 8) ++ val ++ suf)
    by (rewrite Hb, <- !app_assoc; reflexivity).
  pose proof (subslice_app b _ val suf Hb3) as Hs.
  rewrite !length_app in Hs.
  replace (Z.of_nat (List.length pre + List.length (enc16 e 1) + List.length (enc16 e 8)))
    with (Z.of_nat (List.length pre) + 2 + 2) in Hs by (destruct e; cbn; lia).
  rewrite Hn in Hs. change (Z.of_nat 8) with 8 in Hs.
  unfold bind. rewrite E2, Hs. unfold ret. rewrite E1. do 2 f_equal. lia.
Qed.

Lemma header_fields_enc e h_len : forall fs fuel b pre suf acc,
  Forall (fun f => valid f = true) fs ->
  backing b = pre ++ List.concat (map (enc_headerField e) fs) ++ suf ->
  (List.length fs < fuel)%nat ->
  (fs <> [] ->
   Z.of_nat (List.length pre) + 12 * (Z.of_nat (List.length fs) - 1) <= h_len) ->
  h_len < Z.of_nat (List.length pre) + 12 * Z.of_nat (List.length fs) ->
  header_fields fuel b e h_len acc (Z.of_nat (List.length pre))
  = Done ((acc ++ fs, None),
          Z.of_nat (List.length pre) + 12 * Z.of_nat (List.length fs)).
Proof.
  induction fs as [|f fs IH]; intros fuel b pre suf acc Hall Hb Hfuel Hlo Hhi.
  - destruct fuel as [|fuel]; [cbn in Hfuel; lia|].
    cbn [List.length] in *. rewrite header_fields_stop by lia.
    rewrite app_nil_r. do 2 f_equal. lia.
  - destruct fuel as [|fuel]; [cbn in Hfuel; lia|].
    inversion Hall as [|? ? Hv Hall']; subst.
    cbn [map List.concat] in Hb. rewrite <- app_assoc in Hb.
    cbn [List.length] in *.
    rewrite header_fields_step by (specialize (Hlo ltac:(discriminate)); lia).
    rewrite (read_headerField_enc e f b pre _ Hv Hb). rewrite Hv. cbn [negb].
    assert (Hlen : List.length (enc_headerField e f) = 12%nat).
    { apply valid_iff in Hv. destruct Hv as (_ & _ & Hn).
      unfold enc_headerField. rewrite !length_app, Hn. destruct e; reflexivity. }
    assert (Hb' : backing b = (pre ++ enc_headerField e f)
                              ++ List.concat (map (enc_headerField e) fs) ++ suf)
      by (rewrite Hb, <- app_assoc; reflexivity).
    pose proof (IH fuel b _ suf (acc ++ [f]) Hall' Hb' ltac:(lia)) as H.
    rewrite length_app, Hlen in H.
    replace (Z.of_nat (List.length pre + 12)) with (Z.of_nat (List.length pre) + 12)
      in H by lia.
    rewrite H.
    + rewrite <- app_assoc. cbn [app]. do 2 f_equal. lia.
    + intros Hne. specialize (Hlo ltac:(discriminate)). destruct fs; [congruence|].
      cbn [List.length] in *. lia.
    + lia.
Qed.

Lemma parse_header_enc b c e hd :
  Version c = 4 -> wf_header hd ->
  (exists m v suf, backing b = [m; v] ++ enc_Header e hd ++ suf) ->
  parse_header b c e 2
  = Done ((set_Header c hd, None),
          2 + Z.of_nat (List.length (enc_Header e hd))).
Proof.
  intros Hv (Hall & Hr & Hk) (m & v & suf & Hb). destruct hd as [L fs].
  cbn [h_length h_fields] in *. unfold enc_Header in *. cbn [h_length h_fields] in *.
  rewrite <- app_assoc in Hb.
  destruct (read_uint16_enc16 e L b [m; v] _ Hr Hb) as (l & Hl & El).
  cbn [List.length] in Hl. change (Z.of_nat 2) with 2 in Hl.
  rewrite (parse_header_eq b c e 2 l Hv Hl). rewrite El.
  assert (Hb' : backing b = ([m; v] ++ enc16 e L)
                            ++ List.concat (map (enc_headerField e) fs) ++ suf)
    by (rewrite Hb, <- app_assoc; reflexivity).
  pose proof (header_fields_enc e L fs (Z.to_nat (L + 2)) b _ suf [] Hall Hb') as H.
  assert (Hp : Z.of_nat (List.length ([m; v] ++ enc16 e L)) = 4)
    by (destruct e; reflexivity).
  rewrite Hp in H. change (2 + 2) with 4.
  rewrite H.
  - cbn [app]. unfold set_Header. do 2 f_equal.
    rewrite length_app.
    assert (Hc : forall gs, Forall (fun f => valid f = true) gs ->
              Z.of_nat (List.length (List.concat (map (enc_headerField e) gs)))
              = 12 * Z.of_nat (List.length gs)).
    { induction gs as [|g gs IHg]; intros Hg; [reflexivity|].
      inversion Hg as [|? ? Hgv Hg']; subst. cbn [map List.concat List.length].
      rewrite length_app, Nat2Z.inj_add, (IHg Hg').
      apply valid_iff in Hgv. destruct Hgv as (_ & _ & Hn).
      unfold enc_headerField. rewrite !length_app, Hn.
      destruct e; cbn [enc16 rev app List.length]; lia. }
    rewrite Nat2Z.inj_add, (Hc fs Hall). destruct e; cbn [enc16 rev app List.length]; lia.
  - destruct fs as [|f fs]; cbn [List.length] in *; lia.
  - intros _. lia.
  - lia.
Qed.

Lemma enc_credential_nonempty v e kt cred :
  (0 < List.length (enc_credential v e kt cred))%nat.
Proof.
  unfold enc_credential. rewrite !length_app.
  assert (List.length (enc16 e (KeyType (Key cred))) = 2%nat) by (destruct e; reflexivity).
  lia.
Qed.

Lemma read_credentials_enc h e : forall creds fuel b pre c,
  Forall (wf_credential (Version c)) creds ->
  elems b = pre ++ List.concat
                     (map (fun cred => enc_credential (Version c) e
                                         (KeyType (Key cred)) cred) creds) ->
  (List.length creds < fuel)%nat ->
  read_credentials fuel h b c e (Z.of_nat (List.length pre))
  = Done (mkCCache (Version c) (Header c) (DefaultPrincipal c)
                   (Credentials c ++ creds) (Path c), None).
Proof.
  induction creds as [|cred creds IH]; intros fuel b pre c Hall Hb Hfuel;
    (destruct fuel as [|fuel]; [cbn in Hfuel; lia|]).
  - cbn [map List.concat] in Hb. rewrite app_nil_r in Hb.
    cbn [read_credentials]. unfold len. rewrite Hb.
    rewrite Z.ltb_irrefl. rewrite app_nil_r. destruct c; reflexivity.
  - inversion Hall as [|? ? Hw Hall']; subst.
    cbn [map List.concat] in Hb.
    set (enc := enc_credential (Version c) e (KeyType (Key cred)) cred) in *.
    set (rest := List.concat _) in Hb.
    pose proof (enc_credential_nonempty (Version c) e (KeyType (Key cred)) cred) as Hne.
    fold enc in Hne.
    cbn [read_credentials].
    replace (Z.of_nat (List.length pre) <? len b) with true.
    2:{ symmetry. apply Z.ltb_lt. unfold len. rewrite Hb, !length_app. lia. }
    assert (Hbk : backing b = pre ++ enc ++ (rest ++ spare b)).
    { unfold backing. rewrite Hb, <- !app_assoc. reflexivity. }
    assert (Hkt : int16_range (KeyType (Key cred))) by (destruct Hw as (_ & _ & Hk & _); exact Hk).
    rewrite (decodes_parse_credential h c e _ cred Hw Hkt b pre _ Hbk).
    assert (Hb' : elems b = (pre ++ enc) ++ rest) by (rewrite Hb, <- app_assoc; reflexivity).
    pose proof (IH fuel b (pre ++ enc) (append_Credential c cred) Hall' Hb'
                  ltac:(cbn [List.length] in Hfuel; lia)) as H.
    rewrite length_app, Nat2Z.inj_add in H. subst enc rest. rewrite H.
    cbn [append_Credential Version Header DefaultPrincipal Credentials Path].
    rewrite <- app_assoc. reflexivity.
Qed.

Lemma byteZ_byte_of_small v : 0 <= v < 256 -> byteZ (byte_of v) = v.
Proof. intros Hv. rewrite byteZ_byte_of. apply Z.mod_small. exact Hv. Qed.

Lemma concat_length_ge {A} (ls : list (list A)) :
  Forall (fun l => (0 < List.length l)%nat) ls ->
  (List.length ls <= List.length (List.concat ls))%nat.
Proof.
  induction 1 as [|l ls Hl _ IH]; cbn [List.concat List.length]; [lia|].
  rewrite length_app. lia.
Qed.

Lemma ParseCCache_enc_CCache h b c :
  wf_CCache c ->
  elems b = enc_CCache (byte_order h (Version c)) c ->
  ParseCCache h b = Done (c, None).
Proof.
  intros (Hv & Hh & Hp & Hc & HP) Hb.
  set (e := byte_order h (Version c)) in *.
  unfold enc_CCache in Hb.
  assert (Hbz : byteZ (byte_of (Version c)) = Version c)
    by (apply byteZ_byte_of_small; lia).
  rewrite (ParseCCache_unfold h b (byte_of (Version c)) _ Hb) by (rewrite Hbz; exact Hv).
  rewrite Hbz. unfold ParseCCache_body. fold e.
  set (c0 := set_Version CCache0 (Version c)).
  set (hdr := if Version c =? 4 then enc_Header e (Header c) else []) in *.
  set (creds := List.concat _) in Hb.
  assert (Hhdr : (if Version c =? 4 then parse_header b c0 e 2 else Done (c0, None, 2))
                 = Done ((set_Header c0 (Header c), None),
                         2 + Z.of_nat (List.length hdr))).
  { subst hdr. destruct (Version c =? 4) eqn:E4.
    - apply parse_header_enc; [apply Z.eqb_eq; exact E4 | exact Hh |].
      exists x05, (byte_of (Version c)). eexists. unfold backing. rewrite Hb.
      rewrite <- !app_assoc. reflexivity.
    - rewrite Hh. reflexivity. }
  rewrite Hhdr. unfold ParseCCache_tail.
  assert (Hbk : backing b = ([x05; byte_of (Version c)] ++ hdr)
                            ++ enc_principal (Version c) e (DefaultPrincipal c)
                            ++ (creds ++ spare b)).
  { unfold backing. rewrite Hb, <- !app_assoc. reflexivity. }
  pose proof (decodes_parse_principal h (set_Header c0 (Header c)) e
                (DefaultPrincipal c) Hp b _ _ Hbk) as Hpr.
  change (Version (set_Header c0 (Header c))) with (Version c) in Hpr.
  rewrite length_app in Hpr. cbn [List.length] in Hpr.
  replace (Z.of_nat (2 + List.length hdr)) with (2 + Z.of_nat (List.length hdr))
    in Hpr by lia.
  rewrite Hpr.
  assert (Hb' : elems b = (([x05; byte_of (Version c)] ++ hdr)
                           ++ enc_principal (Version c) e (DefaultPrincipal c))
                          ++ creds)
    by (rewrite Hb, <- !app_assoc; reflexivity).
  pose proof (read_credentials_enc h e (Credentials c) (S (Z.to_nat (len b))) b _
                (set_DefaultPrincipal (set_Header c0 (Header c)) (DefaultPrincipal c))
                Hc Hb') as Hr.
  change (Version (set_DefaultPrincipal _ _)) with (Version c) in Hr.
  rewrite !length_app in Hr. cbn [List.length] in Hr.
  replace (Z.of_nat (2 + List.length hdr
                     + List.length (enc_principal (Version c) e (DefaultPrincipal c))))
    with (2 + Z.of_nat (List.length hdr)
          + Z.of_nat (List.length (enc_principal (Version c) e (DefaultPrincipal c))))
    in Hr by lia.
  rewrite Hr.
  - cbn. rewrite <- HP. destruct c; reflexivity.
  - assert (List.length (Credentials c) <= List.length creds)%nat.
    { subst creds. rewrite <- (length_map (fun cred => enc_credential (Version c) e
                                             (KeyType (Key cred)) cred)).
      apply concat_length_ge. apply Forall_forall. intros l Hl.
      apply in_map_iff in Hl. destruct Hl as (cr & <- & _).
      apply enc_credential_nonempty. }
    unfold len. rewrite Hb', !length_app. lia.
Qed.
(** results of [times] *)
Lemma times_Forall {A} (P : A -> Prop) (m : M A) :
  (forall p a p', m p = Done (a, p') -> P a) ->
  forall n p l p', times n m p = Done (l, p') -> Forall P l.
Proof.
  intros Hm. induction n as [|n IH]; intros p l p' H; simpl in H.
  - apply ret_Done in H. inversion H. constructor.
  - inv_bind H. inv_bind H. apply ret_Done in H. inversion H; subst.
    constructor; [eapply Hm; eassumption | eapply IH; eassumption].
Qed.

Lemma times_advances {A} d (m : M A) :
  advances d m ->
  forall n p l p', times n m p = Done (l, p') -> p + d * Z.of_nat n <= p'.
Proof.
  intros Hm. induction n as [|n IH]; intros p l p' H; simpl in H.
  - apply ret_Done in H. inversion H. lia.
  - inv_bind H. inv_bind H. apply ret_Done in H. inversion H; subst.
    apply Hm in Hr. apply IH in Hr0. lia.
Qed.

Lemma to_int16_range z : int16_range (to_int16 z).
Proof.
  unfold int16_range, to_int16.
  pose proof (Z.mod_pos_bound (z + 2 ^ 15) (2 ^ 16) eq_refl).
  change (2 ^ 16) with (2 * 2 ^ 15) in *. lia.
Qed.

Lemma read_int16_range b e p v p' :
  read_int16 b e p = Done (v, p') -> int16_range v.
Proof.
  intros H. apply read_int16_Done in H. destruct H as (? & _ & -> & _).
  apply to_int16_range.
Qed.

Lemma read_int32_range b e p v p' :
  read_int32 b e p = Done (v, p') -> int32_range v.
Proof.
  intros H. apply read_int32_Done in H. destruct H as (? & _ & -> & _).
  apply to_int32_range.
Qed.

Lemma read_Bytes_length b s e p v p' :
  read_Bytes b s e p = Done (v, p') -> Z.of_nat (List.length v) = s.
Proof.
  intros H. apply read_Bytes_Done in H. destruct H as (H & -> & _).
  apply subslice_length in H. lia.
Qed.

Lemma read_data_short b e p v p' :
  read_data b e p = Done (v, p') -> short v.
Proof.
  intros H. unfold read_data in H. inv_bind H.
  apply read_int32_range in Hr. apply read_Bytes_length in H.
  unfold short, int32_range in *. lia.
Qed.

Lemma read_component_short b e p s p' :
  read_component b e p = Done (s, p') -> short (list_byte_of_string s).
Proof.
  intros H. unfold read_component in H. inv_bind H. inv_bind H.
  apply ret_Done in H. inversion H; subst.
  rewrite list_byte_of_string_of_list_byte.
  apply read_int32_range in Hr. apply read_Bytes_length in Hr0.
  unfold short, int32_range in *. lia.
Qed.

Lemma parse_principal_wf h b c e p pr p' :
  cap b < 2 ^ 32 ->
  parse_principal h b c e p = Done (pr, p') ->
  wf_principal (Version c) pr.
Proof.
  intros Hcap H. pose proof (lands_parse_principal _ _ _ _ _ _ _ H) as Hland.
  unfold parse_principal in H.
  apply bind_Done in H. destruct H as (nt & p1 & Hnt & H).
  apply bind_Done in H. destruct H as (n & p2 & Hn & H).
  apply bind_Done in H. destruct H as (lr & p3 & Hlr & H).
  apply bind_Done in H. destruct H as (realm & p4 & Hrealm & H).
  apply bind_Done in H. destruct H as (names & p5 & Hnames & H).
  apply ret_Done in H. inversion H; subst pr p'; clear H.
  unfold wf_principal. cbn [NameType NameString PrincipalName Realm].
  assert (Hp4 : 0 <= p4).
  { apply read_Bytes_Done in Hrealm. destruct Hrealm as (Hs & -> & ?).
    apply subslice_Done in Hs. lia. }
  pose proof (times_length _ _ _ _ _ Hnames) as Hlen.
  pose proof (times_advances 4 _ (advances_read_component b e) _ _ _ _ Hnames) as Hadv.
  split; [| split; [| split; [| split]]].
  - intros Hv. rewrite Hv in Hnt. cbn [Z.eqb Pos.eqb negb] in Hnt.
    apply ret_Done in Hnt. inversion Hnt. reflexivity.
  - destruct (negb (Version c =? 1)).
    + eapply read_int32_range; eassumption.
    + apply ret_Done in Hnt. inversion Hnt. unfold int32_range. cbn. lia.
  - rewrite Hlen in *. change (2 ^ 32) with (4 * 2 ^ 30) in Hcap.
    change (2 ^ 31) with (2 * 2 ^ 30).
    assert (0 < 2 ^ 30) by reflexivity. lia.
  - rewrite list_byte_of_string_of_list_byte.
    apply read_int32_range in Hlr. apply read_Bytes_length in Hrealm.
    unfold short, int32_range in *. lia.
  - eapply times_Forall; [| exact Hnames].
    intros q s q' Hs. eapply read_component_short; eassumption.
Qed.

Lemma make_and_fill_Done {A} l (m : M A) p xs p' :
  make_and_fill l m p = Done (xs, p') ->
  0 <= l /\ times (Z.to_nat l) m p = Done (xs, p').
Proof.
  unfold make_and_fill. destruct (l <? 0) eqn:E; [discriminate|].
  apply Z.ltb_ge in E. auto.
Qed.

Lemma read_address_wf b e p a p' :
  read_address b e p = Done (a, p') -> int16_range (AddrType a) /\ short (Address a).
Proof.
  intros H. unfold read_address in H. inv_bind H. inv_bind H.
  apply ret_Done in H. inversion H; subst. cbn.
  split; [eapply read_int16_range | eapply read_data_short]; eassumption.
Qed.

Lemma read_authDataEntry_wf b e p a p' :
  read_authDataEntry b e p = Done (a, p') -> int16_range (ADType a) /\ short (ADData a).
Proof.
  intros H. unfold read_authDataEntry in H. inv_bind H. inv_bind H.
  apply ret_Done in H. inversion H; subst. cbn.
  split; [eapply read_int16_range | eapply read_data_short]; eassumption.
Qed.

Lemma parse_credential_wf h b c e p cred err p' :
  cap b < 2 ^ 32 ->
  parse_credential h b c e p = Done ((cred, err), p') ->
  wf_credential (Version c) cred.
Proof.
  intros Hcap H. unfold parse_credential, read_timestamp in H.
  apply bind_Done in H. destruct H as (client & q0 & Hclient & H).
  apply bind_Done in H. destruct H as (server & q1 & Hserver & H).
  apply bind_Done in H. destruct H as (kt1 & q2 & Hkt1 & H).
  apply bind_Done in H. destruct H as (kt & q3 & Hkt & H).
  apply bind_Done in H. destruct H as (kv & q4 & Hkv & H).
  apply bind_Done in H. destruct H as (t1 & q5 & Ht1 & H).
  apply bind_Done in H. destruct H as (t2 & q6 & Ht2 & H).
  apply bind_Done in H. destruct H as (t3 & q7 & Ht3 & H).
  apply bind_Done in H. destruct H as (t4 & q8 & Ht4 & H).
  apply bind_Done in H. destruct H as (ik & q9 & Hik & H).
  apply bind_Done in H. destruct H as (flags & q10 & Hflags & H).
  apply bind_Done in H. destruct H as (na & q11 & Hna & H).
  apply bind_Done in H. destruct H as (addrs & q12 & Haddrs & H).
  apply bind_Done in H. destruct H as (nd & q13 & Hnd & H).
  apply bind_Done in H. destruct H as (auth & q14 & Hauth & H).
  apply bind_Done in H. destruct H as (tk & q15 & Htk & H).
  apply bind_Done in H. destruct H as (tk2 & q16 & Htk2 & H).
  apply ret_Done in H. inversion H; subst cred err p'; clear H.
  apply make_and_fill_Done in Haddrs, Hauth.
  destruct Haddrs as (Hna0 & Haddrs). destruct Hauth as (Hnd0 & Hauth).
  unfold wf_credential.
  cbn [Client Server Key KeyType KeyValue AuthTime StartTime EndTime RenewTill
       IsSKey TicketFlags Addresses AuthData Ticket SecondTicket].
  repeat match goal with |- _ /\ _ => split end.
  - eapply parse_principal_wf; eassumption.
  - eapply parse_principal_wf; eassumption.
  - destruct (Version c =? 3).
    + eapply read_int16_range; eassumption.
    + apply ret_Done in Hkt. inversion Hkt; subst.
      eapply read_int16_range; eassumption.
  - eapply read_data_short; eassumption.
  - eapply read_int32_range; eassumption.
  - eapply read_int32_range; eassumption.
  - eapply read_int32_range; eassumption.
  - eapply read_int32_range; eassumption.
  - apply read_Bytes_length in Hflags. lia.
  - rewrite (times_length _ _ _ _ _ Haddrs).
    apply read_int32_range in Hna. unfold int32_range in Hna. lia.
  - eapply times_Forall; [| exact Haddrs].
    intros q a q' Ha. eapply read_address_wf; eassumption.
  - rewrite (times_length _ _ _ _ _ Hauth).
    apply read_int32_range in Hnd. unfold int32_range in Hnd. lia.
  - eapply times_Forall; [| exact Hauth].
    intros q a q' Ha. eapply read_authDataEntry_wf; eassumption.
  - eapply read_data_short; eassumption.
  - eapply read_data_short; eassumption.
Qed.

(** the header loop, with its offsets *)
Lemma header_fields_count fuel : forall b e h_len fields p fields' q,
  header_fields fuel b e h_len fields p = Done ((fields', None), q) ->
  exists added, fields' = fields ++ added /\
    Forall (fun f => valid f = true) added /\
    q = p + 12 * Z.of_nat (List.length added) /\
    h_len < q /\ (added <> [] -> q - 12 <= h_len) /\ (added = [] -> h_len < p).
Proof.
  induction fuel as [|fuel IH]; intros b e h_len fields p fields' q H;
    simpl in H; [discriminate|].
  destruct (p <=? h_len) eqn:Hle.
  - apply Z.leb_le in Hle.
    destruct (read_headerField b e p) as [[f p1]| |] eqn:Ef; try discriminate.
    destruct (valid f) eqn:Hv; simpl in H; [| discriminate].
    apply IH in H. destruct H as (added & -> & Hall & -> & Hq & Hlast & Hnone).
    pose proof (read_headerField_length _ _ _ _ _ Ef) as (_ & Hp1).
    pose proof Hv as Hv'. apply valid_iff in Hv'. destruct Hv' as (_ & Hl8 & _).
    exists (f :: added). rewrite <- app_assoc. split; [reflexivity|].
    split; [constructor; assumption|]. cbn [List.length].
    split; [lia|]. split; [lia|]. split; [| discriminate].
    intros _. destruct added as [|g added].
    + cbn [List.length]. lia.
    + specialize (Hlast ltac:(discriminate)). lia.
  - apply Z.leb_gt in Hle. inversion H; subst. exists []. rewrite app_nil_r.
    cbn [List.length]. repeat split; try constructor; try lia. congruence.
Qed.

Lemma parse_header_wf b c e c' q :
  Version c = 4 -> parse_header b c e 2 = Done ((c', None), q) ->
  wf_header (Header c') /\ Version c' = 4 /\
  DefaultPrincipal c' = DefaultPrincipal c /\ Credentials c' = Credentials c /\
  Path c' = Path c /\ 4 <= q.
Proof.
  intros Hv H. unfold parse_header in H. rewrite Hv in H.
  cbn [Z.eqb Pos.eqb negb] in H.
  inv_bind H. inv_bind H. destruct a0 as [fs er]. cbn [fst snd] in H.
  destruct er; apply ret_Done in H; inversion H; subst; clear H.
  apply read_int16_Done in Hr. destruct Hr as (? & _ & _ & ->).
  apply header_fields_count in Hr0.
  destruct Hr0 as (added & Hf & Hall & -> & Hq & Hlast & Hnone). cbn [app] in Hf. subst fs.
  pose proof (to_uint16_range a) as Hr.
  unfold wf_header. cbn [Header set_Header h_fields h_length Version DefaultPrincipal
                          Credentials Path]. cbv zeta.
  assert (12 * Z.of_nat (List.length added) - 8 <= to_uint16 a).
  { destruct added as [|f added]; [cbn [List.length]; lia|].
    specialize (Hlast ltac:(discriminate)). lia. }
  repeat split; try assumption; try reflexivity; lia.
Qed.

Lemma read_credentials_wf fuel : forall h b c e p c' err,
  cap b < 2 ^ 32 ->
  read_credentials fuel h b c e p = Done (c', err) ->
  Forall (wf_credential (Version c)) (Credentials c) ->
  Forall (wf_credential (Version c)) (Credentials c').
Proof.
  induction fuel as [|fuel IH]; intros h b c e p c' err Hcap H Hall; simpl in H;
    [discriminate|].
  destruct (p <? len b).
  - destruct (parse_credential h b c e p) as [[[cred [er|]] p1]| |] eqn:E;
      try discriminate.
    + inversion H; subst. exact Hall.
    + apply (IH _ _ _ _ _ _ _ Hcap) in H; [exact H|].
      cbn [append_Credential Credentials Version].
      apply Forall_app. split; [exact Hall|]. constructor; [| constructor].
      eapply parse_credential_wf; eassumption.
  - inversion H; subst. exact Hall.
Qed.

Lemma ParseCCache_wf h b c :
  cap b < 2 ^ 32 ->
  ParseCCache h b = Done (c, None) ->
  wf_CCache c /\
  exists vb rest, elems b = x05 :: vb :: rest /\ Version c = byteZ vb.
Proof.
  intros Hcap H.
  destruct (ParseCCache_cases h b)
    as [(_ & E) | [(x & rest & _ & _ & E) | [(_ & E) |
        [(v & rest & _ & _ & E) | (v & rest & Hb & Hv & E)]]]];
    rewrite E in H; try discriminate.
  clear E. unfold ParseCCache_body in H.
  set (c0 := set_Version CCache0 (byteZ v)) in *.
  set (e := byte_order h (byteZ v)) in *.
  assert (Hhdr : exists c1 q,
            (if byteZ v =? 4 then parse_header b c0 e 2 else Done (c0, None, 2))
            = Done ((c1, None), q) /\
            Version c1 = byteZ v /\
            (if Version c1 =? 4 then wf_header (Header c1) else Header c1 = header0) /\
            DefaultPrincipal c1 = principal0 /\ Credentials c1 = [] /\
            Path c1 = ""%string).
  { destruct (byteZ v =? 4) eqn:E4.
    - apply Z.eqb_eq in E4.
      destruct (parse_header b c0 e 2) as [[[c1 [er|]] q]| |] eqn:Eh;
        try discriminate.
      destruct (parse_header_wf b c0 e c1 q E4 Eh)
        as (Hw & Hv1 & Hd & Hc & HP & _).
      exists c1, q. rewrite Hv1, E4. cbn [Z.eqb Pos.eqb].
      split; [reflexivity|]. split; [reflexivity|]. split; [exact Hw|].
      split; [exact Hd|]. split; [exact Hc | exact HP].
    - exists c0, 2. change (Version c0) with (byteZ v). rewrite E4.
      repeat split; reflexivity. }
  destruct Hhdr as (c1 & q & Eh & Hv1 & Hh1 & Hd1 & Hc1 & HP1).
  rewrite Eh in H. unfold ParseCCache_tail in H.
  destruct (parse_principal h b c1 e q) as [[princ q1]| |] eqn:Ep; try discriminate.
  pose proof (parse_principal_wf _ _ _ _ _ _ _ Hcap Ep) as Hwp.
  pose proof (read_credentials_Path _ _ _ _ _ _ _ _ H) as HP.
  pose proof (read_credentials_wf _ _ _ _ _ _ _ _ Hcap H) as Hwc.
  apply read_credentials_Done in H.
  destruct H as (_ & Hver & Hhd & Hdp & _).
  cbn [set_DefaultPrincipal Version Header DefaultPrincipal Credentials Path] in *.
  split.
  - unfold wf_CCache. rewrite Hver, Hhd, Hdp, HP, Hv1.
    rewrite Hv1 in Hh1, Hwp, Hwc. rewrite Hc1 in Hwc.
    split; [exact Hv|]. split; [exact Hh1|]. split; [exact Hwp|].
    split; [apply Hwc; constructor | exact HP1].
  - exists v, rest. split; [exact Hb | congruence].
Qed.

(** size *)
Lemma advances_parse_credential_59 h b c e : advances 59 (parse_credential h b c e).
Proof.
  intros p f p' H. unfold parse_credential, read_timestamp in H.
  repeat match type of H with
         | bind _ _ _ = Done _ =>
             let Hx := fresh "Hx" in
             apply bind_Done in H; destruct H as (? & ? & Hx & H);
             first [ apply read_Bytes_Done in Hx; destruct Hx as (_ & Hx & _)
                   | advance Hx ]
         end.
  all: apply ret_Done in H; inversion H; subst; lia.
Qed.

Lemma read_credentials_size fuel : forall h b c e p c' err,
  read_credentials fuel h b c e p = Done (c', err) ->
  p <= cap b ->
  59 * (Z.of_nat (List.length (Credentials c'))
        - Z.of_nat (List.length (Credentials c))) + p <= cap b.
Proof.
  induction fuel as [|fuel IH]; intros h b c e p c' err H Hp; simpl in H;
    [discriminate|].
  destruct (p <? len b).
  - destruct (parse_credential h b c e p) as [[[cred [er|]] p1]| |] eqn:E;
      try discriminate.
    + inversion H; subst. lia.
    + pose proof (advances_parse_credential_59 _ _ _ _ _ _ _ E).
      pose proof (lands_parse_credential _ _ _ _ _ _ _ E).
      apply IH in H; [| assumption].
      cbn [append_Credential Credentials] in H. rewrite length_app in H.
      cbn [List.length] in H. lia.
  - inversion H; subst. lia.
Qed.

Lemma ParseCCache_size h b c :
  ParseCCache h b = Done (c, None) ->
  59 * Z.of_nat (List.length (Credentials c)) + 10 <= cap b.
Proof.
  intros H.
  destruct (ParseCCache_cases h b)
    as [(_ & E) | [(x & rest & _ & _ & E) | [(_ & E) |
        [(v & rest & _ & _ & E) | (v & rest & Hb & Hv & E)]]]];
    rewrite E in H; try discriminate.
  clear E. unfold ParseCCache_body in H.
  set (c0 := set_Version CCache0 (byteZ v)) in *.
  set (e := byte_order h (byteZ v)) in *.
  assert (Hhdr : exists c1 q,
            (if byteZ v =? 4 then parse_header b c0 e 2 else Done (c0, None, 2))
            = Done ((c1, None), q) /\ 2 <= q /\ Credentials c1 = []).
  { destruct (byteZ v =? 4) eqn:E4.
    - destruct (parse_header b c0 e 2) as [[[c1 [er|]] q]| |] eqn:Eh;
        try discriminate.
      exists c1, q. split; [reflexivity|].
      pose proof (advances_parse_header _ _ _ _ _ _ Eh).
      split; [lia|]. unfold parse_header in Eh.
      destruct (negb (Version c0 =? 4)).
      + apply ret_Done in Eh. inversion Eh.
      + inv_bind Eh. inv_bind Eh. destruct (snd a0);
          apply ret_Done in Eh; inversion Eh; subst; reflexivity.
    - exists c0, 2. repeat split; lia || reflexivity. }
  destruct Hhdr as (c1 & q & Eh & Hq & Hc1). rewrite Eh in H.
  unfold ParseCCache_tail in H.
  destruct (parse_principal h b c1 e q) as [[princ q1]| |] eqn:Ep; try discriminate.
  pose proof (advances_parse_principal _ _ _ _ _ _ _ Ep).
  pose proof (lands_parse_principal _ _ _ _ _ _ _ Ep).
  apply read_credentials_size in H; [| assumption].
  cbn [set_DefaultPrincipal Credentials] in H. rewrite Hc1 in H.
  cbn [List.length] in H. lia.
Qed.
Lemma parse_principal_host h h' b c e p :
  Version c <> 1 -> parse_principal h b c e p = parse_principal h' b c e p.
Proof.
  intros Hv. unfold parse_principal.
  apply Z.eqb_neq in Hv. rewrite Hv. reflexivity.
Qed.

Lemma parse_credential_host h h' b c e p :
  Version c <> 1 -> parse_credential h b c e p = parse_credential h' b c e p.
Proof.
  intros Hv. unfold parse_credential, bind.
  rewrite (parse_principal_host h h' b c e p Hv).
  destruct (parse_principal h' b c e p) as [[client q]| |]; try reflexivity.
  rewrite (parse_principal_host h h' b c e q Hv). reflexivity.
Qed.

Lemma read_credentials_host h h' fuel : forall b c e p,
  Version c <> 1 ->
  read_credentials fuel h b c e p = read_credentials fuel h' b c e p.
Proof.
  induction fuel as [|fuel IH]; intros b c e p Hv; simpl; [reflexivity|].
  destruct (p <? len b); [| reflexivity].
  rewrite (parse_credential_host h h' b c e p Hv).
  destruct (parse_credential h' b c e p) as [[[cred [er|]] p1]| |]; try reflexivity.
  apply IH. exact Hv.
Qed.

Lemma parse_header_Version b c e p c' err q :
  parse_header b c e p = Done ((c', err), q) -> Version c' = Version c.
Proof.
  intros H. unfold parse_header in H. destruct (negb (Version c =? 4)).
  - apply ret_Done in H. inversion H. reflexivity.
  - inv_bind H. inv_bind H.
    destruct (snd a0); apply ret_Done in H; inversion H; reflexivity.
Qed.

Lemma ParseCCache_host_independent h h' b vb rest :
  elems b = x05 :: vb :: rest ->
  byteZ vb <> 1 ->
  (byteZ vb = 2 -> little_endian h = little_endian h') ->
  ParseCCache h b = ParseCCache h' b.
Proof.
  intros Hb Hv1 Hle.
  destruct (Z_lt_dec (byteZ vb) 1) as [Hlo|Hlo];
    [| destruct (Z_lt_dec 4 (byteZ vb)) as [Hhi|Hhi]].
  - rewrite !(ParseCCache_version _ b vb rest Hb) by auto. reflexivity.
  - rewrite !(ParseCCache_version _ b vb rest Hb) by auto. reflexivity.
  - rewrite !(ParseCCache_unfold _ b vb rest Hb) by lia.
    unfold ParseCCache_body.
    assert (He : byte_order h (byteZ vb) = byte_order h' (byteZ vb)).
    { unfold byte_order. rewrite !isNativeEndianLittle_correct.
      destruct (Z.eq_dec (byteZ vb) 2) as [E2|E2].
      - rewrite (Hle E2). reflexivity.
      - replace ((byteZ vb =? 1) || (byteZ vb =? 2)) with false; [reflexivity|].
        symmetry. apply orb_false_iff. split; apply Z.eqb_neq; assumption. }
    rewrite He. set (e := byte_order h' (byteZ vb)).
    set (c0 := set_Version CCache0 (byteZ vb)).
    assert (Ht : forall c1 q, Version c1 = byteZ vb ->
              ParseCCache_tail h b c1 e q = ParseCCache_tail h' b c1 e q).
    { intros c1 q Hc1. unfold ParseCCache_tail.
      rewrite (parse_principal_host h h' b c1 e q) by congruence.
      destruct (parse_principal h' b c1 e q) as [[princ q1]| |]; try reflexivity.
      apply read_credentials_host. cbn. congruence. }
    destruct (byteZ vb =? 4).
    + destruct (parse_header b c0 e 2) as [[[c1 [er|]] q]| |] eqn:Eh;
        try reflexivity.
      apply Ht. apply parse_header_Version in Eh. exact Eh.
    + apply Ht. reflexivity.
Qed.

Lemma backing_reslice n b : backing (reslice n b) = backing b.
Proof.
  unfold backing, reslice. cbn [elems spare].
  rewrite app_assoc, firstn_skipn. reflexivity.
Qed.

Lemma extends_same_backing t b : backing t = backing b -> extends b t.
Proof. intros H. exists []. rewrite app_nil_r. exact H. Qed.

(** The credentials loop on two slices of one backing array, the first
    at most as long as the second, from the same state. *)
Lemma read_credentials_shorter h t b e :
  backing t = backing b -> len t <= len b ->
  forall fuel_b fuel_t c p cb errb,
    read_credentials fuel_b h b c e p = Done (cb, errb) ->
    (Z.to_nat (len t - p) < fuel_t)%nat ->
    exists ct more,
      read_credentials fuel_t h t c e p = Done (ct, None) /\
      Version cb = Version ct /\ Header cb = Header ct /\
      DefaultPrincipal cb = DefaultPrincipal ct /\ Path cb = Path ct /\
      Credentials cb = Credentials ct ++ more.
Proof.
  intros Hbk Hlen. pose proof (extends_same_backing t b Hbk) as Hext.
  induction fuel_b as [|fuel_b IH]; intros fuel_t c p cb errb Hb Hf;
    [discriminate|].
  pose proof Hb as Hb0. simpl in Hb.
  destruct fuel_t as [|fuel_t]; [lia|]. simpl.
  destruct (p <? len t) eqn:Et.
  - apply Z.ltb_lt in Et.
    replace (p <? len b) with true in Hb by (symmetry; apply Z.ltb_lt; lia).
    destruct (parse_credential h b c e p) as [[[cred [er|]] p1]| |] eqn:E;
      try discriminate.
    { apply parse_credential_no_error in E. discriminate E. }
    rewrite (carries_parse_credential b t Hext h c e _ _ E).
    pose proof (advances_parse_credential _ _ _ _ _ _ _ E).
    eapply IH; [exact Hb | lia].
  - pose proof (read_credentials_Path _ _ _ _ _ _ _ _ Hb0) as HP.
    apply read_credentials_Done in Hb0.
    destruct Hb0 as (_ & Hv & Hh & Hd & more & Hc).
    exists c, more. repeat split; assumption.
Qed.

Lemma ParseCCache_reslice h b c n :
  ParseCCache h b = Done (c, None) ->
  (2 <= n <= List.length (elems b))%nat ->
  exists c' more,
    ParseCCache h (reslice n b) = Done (c', None) /\
    Version c = Version c' /\ Header c = Header c' /\
    DefaultPrincipal c = DefaultPrincipal c' /\ Path c = Path c' /\
    Credentials c = Credentials c' ++ more.
Proof.
  intros H Hn.
  set (t := reslice n b).
  pose proof (backing_reslice n b) as Hbk. fold t in Hbk.
  pose proof (extends_same_backing t b Hbk) as Hext.
  assert (Hlen : len t <= len b).
  { unfold len, t, reslice. cbn [elems]. rewrite length_firstn. lia. }
  destruct (ParseCCache_cases h b)
    as [(_ & E) | [(x & rest & _ & _ & E) | [(_ & E) |
        [(v & rest & _ & _ & E) | (v & rest & Hb & Hv & E)]]]];
    rewrite E in H; try discriminate.
  clear E.
  assert (Ht : elems t = x05 :: v :: firstn (n - 2) rest).
  { unfold t, reslice. cbn [elems]. rewrite Hb.
    destruct n as [|[|m]]; [lia | lia |]. cbn [firstn].
    replace (S (S m) - 2)%nat with m by lia. reflexivity. }
  rewrite (ParseCCache_unfold h t v _ Ht Hv).
  unfold ParseCCache_body in *.
  set (c0 := set_Version CCache0 (byteZ v)) in *.
  set (e := byte_order h (byteZ v)) in *.
  assert (Htail : forall c1 q, 0 <= q ->
            ParseCCache_tail h b c1 e q = Done (c, None) ->
            exists c' more,
              ParseCCache_tail h t c1 e q = Done (c', None) /\
              Version c = Version c' /\ Header c = Header c' /\
              DefaultPrincipal c = DefaultPrincipal c' /\ Path c = Path c' /\
              Credentials c = Credentials c' ++ more).
  { intros c1 q Hq Hbt. unfold ParseCCache_tail in *.
    destruct (parse_principal h b c1 e q) as [[princ q1]| |] eqn:Ep;
      try discriminate.
    rewrite (carries_parse_principal b t Hext h c1 e _ _ Ep).
    pose proof (advances_parse_principal _ _ _ _ _ _ _ Ep).
    eapply (read_credentials_shorter h t b e Hbk Hlen); [exact Hbt|].
    unfold len in *. lia. }
  destruct (byteZ v =? 4).
  - destruct (parse_header b c0 e 2) as [[[c1 [er|]] q]| |] eqn:Eh;
      try discriminate.
    rewrite (carries_parse_header b t Hext c0 e _ _ Eh).
    apply advances_parse_header in Eh. apply Htail; [lia | exact H].
  - apply Htail; [lia | exact H].
Qed.

(** a successful decode does not depend on the bytes behind the length *)
Lemma read_credentials_carries h t b e :
  extends t b -> len t = len b ->
  forall fuel c p r,
    read_credentials fuel h t c e p = Done r ->
    read_credentials fuel h b c e p = Done r.
Proof.
  intros Hext Hlen. induction fuel as [|fuel IH]; intros c p r H; simpl in *;
    [discriminate|].
  rewrite <- Hlen. destruct (p <? len t); [| exact H].
  destruct (parse_credential h t c e p) as [[[cred er] p1]| |] eqn:E;
    try discriminate.
  rewrite (carries_parse_credential t b Hext h c e _ _ E).
  destruct er; [exact H | apply IH; exact H].
Qed.

Lemma ParseCCache_spare_irrelevant h l extra r :
  ParseCCache h (of_bytes l) = Done r ->
  ParseCCache h (mkSlice l extra) = Done r.
Proof.
  intros H.
  set (t := of_bytes l) in *. set (b := mkSlice l extra).
  assert (Hext : extends t b).
  { exists extra. unfold backing, t, b, of_bytes. cbn [elems spare].
    rewrite app_nil_r. reflexivity. }
  assert (Hlen : len t = len b) by reflexivity.
  destruct (ParseCCache_cases h t)
    as [(_ & E) | [(x & rest & Hb & Hx & E) | [(_ & E) |
        [(v & rest & Hb & Hv & E) | (v & rest & Hb & Hv & E)]]]];
    rewrite E in H; try discriminate.
  - rewrite (ParseCCache_magic h b x rest Hb Hx). exact H.
  - rewrite (ParseCCache_version h b v rest Hb Hv). exact H.
  - rewrite (ParseCCache_unfold h b v rest Hb Hv).
    unfold ParseCCache_body in *.
    set (c0 := set_Version CCache0 (byteZ v)) in *.
    set (e := byte_order h (byteZ v)) in *.
    assert (Htail : forall c1 q, ParseCCache_tail h t c1 e q = Done r ->
                                 ParseCCache_tail h b c1 e q = Done r).
    { intros c1 q Ht. unfold ParseCCache_tail in *.
      destruct (parse_principal h t c1 e q) as [[princ q1]| |] eqn:Ep;
        try discriminate.
      rewrite (carries_parse_principal t b Hext h c1 e _ _ Ep).
      rewrite <- Hlen.
      apply (read_credentials_carries h t b e Hext Hlen). exact Ht. }
    destruct (byteZ v =? 4).
    + destruct (parse_header t c0 e 2) as [[[c1 er] q]| |] eqn:Eh;
        try discriminate.
      rewrite (carries_parse_header t b Hext c0 e _ _ Eh).
      destruct er; [exact H | apply Htail; exact H].
    + apply Htail. exact H.
Qed.



Lemma ParseCCache_short_buffer h b :
  (List.length (elems b) < 2)%nat ->
  (forall x, hd_error (elems b) = Some x -> x = x05) ->
  ParseCCache h b = Panic.
Proof.
  intros Hlen Hhd.
  destruct (ParseCCache_cases h b)
    as [(_ & E) | [(x & rest & Hb & Hx & E) | [(_ & E) |
        [(v & rest & Hb & _ & E) | (v & rest & Hb & _ & E)]]]];
    try exact E.
  - exfalso. apply Hx. apply Hhd. rewrite Hb. reflexivity.
  - rewrite Hb in Hlen. cbn in Hlen. lia.
  - rewrite Hb in Hlen. cbn in Hlen. lia.
Qed.

Lemma Contains_GetEntry
    (Equal : PrincipalName_t -> PrincipalName_t -> bool) c p :
  Contains Equal c p = snd (GetEntry Equal c p) /\
  (snd (GetEntry Equal c p) = true ->
   In (fst (GetEntry Equal c p)) (Credentials c) /\
   Equal (PrincipalName (Server (fst (GetEntry Equal c p)))) p = true) /\
  (snd (GetEntry Equal c p) = false ->
   fst (GetEntry Equal c p) = credential0 /\
   forall cred, In cred (Credentials c) ->
                Equal (PrincipalName (Server cred)) p = false).
Proof.
  unfold Contains, GetEntry.
  induction (Credentials c) as [|cred creds IH]; simpl.
  - repeat split; try discriminate. contradiction.
  - destruct (Equal (PrincipalName (Server cred)) p) eqn:E; simpl.
    + repeat split; auto; discriminate.
    + destruct IH as (IH1 & IH2 & IH3). split; [exact IH1 | split].
      * intros Hs. destruct (IH2 Hs). auto.
      * intros Hs. destruct (IH3 Hs) as (H0 & Hall). split; [exact H0|].
        intros cr [<- | Hin]; auto.
Qed.

Lemma filter_idempotent {A} (f : A -> bool) l :
  filter f (filter f l) = filter f l.
Proof.
  induction l as [|a l IH]; simpl; [reflexivity|].
  destruct (f a) eqn:E; simpl; [rewrite E, IH|]; auto.
Qed.

Lemma filter_all_iff {A} (f : A -> bool) l :
  filter f l = l <-> Forall (fun a => f a = true) l.
Proof.
  induction l as [|a l IH]; simpl; [split; auto|].
  destruct (f a) eqn:E.
  - split.
    + intros H. injection H as H'. constructor; [exact E | apply IH; exact H'].
    + intros H. inversion H; subst. f_equal. apply IH. assumption.
  - split.
    + intros H. exfalso. pose proof (filter_length_le f l) as Hl.
      rewrite H in Hl. cbn in Hl. lia.
    + intros H. inversion H; congruence.
Qed.

Lemma filter_none_iff {A} (f : A -> bool) l :
  filter f l = [] <-> Forall (fun a => f a = false) l.
Proof.
  induction l as [|a l IH]; simpl; [split; auto|].
  destruct (f a) eqn:E.
  - split; [discriminate | intros H; inversion H; congruence].
  - split.
    + intros H. constructor; [exact E | apply IH; exact H].
    + intros H. inversion H; subst. apply IH. assumption.
Qed.

Lemma GetEntries_properties c :
  GetEntries (mkCCache (Version c) (Header c) (DefaultPrincipal c)
                       (GetEntries c) (Path c)) = GetEntries c /\
  (List.length (GetEntries c) <= List.length (Credentials c))%nat /\
  (GetEntries c = Credentials c <->
   Forall (fun cred => is_config cred = false) (Credentials c)) /\
  (GetEntries c = [] <->
   Forall (fun cred => is_config cred = true) (Credentials c)).
Proof.
  unfold GetEntries. cbn [Credentials]. rewrite !GetEntries_loop_filter.
  cbn [app]. split; [apply filter_idempotent | split; [apply filter_length_le|]].
  rewrite filter_all_iff, filter_none_iff. split; split; intros H;
    (eapply Forall_impl; [| exact H]); cbv beta; intros cred Hc;
    destruct (is_config cred); (reflexivity || discriminate).
Qed.
Lemma parse_header_field_count b c e c' q :
  Version c = 4 -> parse_header b c e 2 = Done ((c', None), q) ->
  let L := h_length (Header c') in
  let k := Z.of_nat (List.length (h_fields (Header c'))) in
  0 <= L < 65536 /\ k = (L + 8) / 12 /\ q = 4 + 12 * k /\
  Forall (fun f => f_tag f = 1 /\ f_length f = 8 /\
                   List.length (f_value f) = 8%nat) (h_fields (Header c')).
Proof.
  intros Hv H L k.
  destruct (parse_header_wf b c e c' q Hv H) as ((Hall & Hr & Hk) & _).
  fold L in Hr, Hk. fold k in Hk.
  assert (Hq : q = 4 + 12 * k).
  { unfold parse_header in H. rewrite Hv in H. cbn [Z.eqb Pos.eqb negb] in H.
    inv_bind H. inv_bind H. destruct a0 as [fs er]. cbn [fst snd] in H.
    destruct er; apply ret_Done in H; inversion H; subst; clear H.
    apply read_int16_Done in Hr0. destruct Hr0 as (? & _ & _ & ->).
    apply header_fields_count in Hr1.
    destruct Hr1 as (added & Hf & _ & -> & _). cbn [app] in Hf. subst fs.
    subst k. cbn [Header set_Header h_fields]. lia. }
  split; [exact Hr | split; [| split; [exact Hq|]]].
  - apply (Z.div_unique_pos (L + 8) 12 k (L + 8 - 12 * k)); lia.
  - eapply Forall_impl; [| exact Hall]. intros f Hf. apply valid_iff. exact Hf.
Qed.

Lemma skey_test x : (to_int8 (byteZ x) =? 0) = Byte.eqb x x00.
Proof. destruct x; reflexivity. Qed.

Lemma parse_credential_skey_and_counts h b c e p cred err p' :
  parse_credential h b c e p = Done ((cred, err), p') ->
  exists q x na q1 nd q2,
    subslice b q (q + 1) = Done [x] /\
    IsSKey cred = negb (Byte.eqb x x00) /\
    read_Bytes b 4 e (q + 1) = Done (TicketFlags cred, q + 5) /\
    read_int32 b e (q + 5) = Done (na, q + 9) /\
    0 <= na /\ na = Z.of_nat (List.length (Addresses cred)) /\
    times (List.length (Addresses cred)) (read_address b e) (q + 9)
    = Done (Addresses cred, q1) /\
    read_int32 b e q1 = Done (nd, q1 + 4) /\
    0 <= nd /\ nd = Z.of_nat (List.length (AuthData cred)) /\
    times (List.length (AuthData cred)) (read_authDataEntry b e) (q1 + 4)
    = Done (AuthData cred, q2).
Proof.
  intros H. unfold parse_credential, read_timestamp in H.
  apply bind_Done in H. destruct H as (client & q0 & _ & H).
  apply bind_Done in H. destruct H as (server & q1' & _ & H).
  apply bind_Done in H. destruct H as (kt1 & q2' & _ & H).
  apply bind_Done in H. destruct H as (kt & q3 & _ & H).
  apply bind_Done in H. destruct H as (kv & q4 & _ & H).
  apply bind_Done in H. destruct H as (t1 & q5 & _ & H).
  apply bind_Done in H. destruct H as (t2 & q6 & _ & H).
  apply bind_Done in H. destruct H as (t3 & q7 & _ & H).
  apply bind_Done in H. destruct H as (t4 & q & _ & H).
  apply bind_Done in H. destruct H as (ik & q9 & Hik & H).
  apply bind_Done in H. destruct H as (flags & q10 & Hflags & H).
  apply bind_Done in H. destruct H as (na & q11 & Hna & H).
  apply bind_Done in H. destruct H as (addrs & q1 & Haddrs & H).
  apply bind_Done in H. destruct H as (nd & q13 & Hnd & H).
  apply bind_Done in H. destruct H as (auth & q2 & Hauth & H).
  apply bind_Done in H. destruct H as (tk & q15 & _ & H).
  apply bind_Done in H. destruct H as (tk2 & q16 & _ & H).
  apply ret_Done in H. inversion H; subst cred err p'; clear H.
  cbn [IsSKey TicketFlags Addresses AuthData].
  apply make_and_fill_Done in Haddrs, Hauth.
  destruct Haddrs as (Hna0 & Haddrs). destruct Hauth as (Hnd0 & Hauth).
  pose proof (times_length _ _ _ _ _ Haddrs) as Hla.
  pose proof (times_length _ _ _ _ _ Hauth) as Hld.
  rewrite <- Hla in Haddrs. rewrite <- Hld in Hauth.
  apply read_int8_Done in Hik. destruct Hik as (buf & Hbuf & -> & ->).
  pose proof (subslice_length _ _ _ _ Hbuf) as Hl1.
  destruct buf as [|sk [|sk' buf]]; cbn [List.length] in Hl1; try lia.
  pose proof Hflags as Hf'. apply read_Bytes_Done in Hf'. destruct Hf' as (_ & -> & _).
  pose proof Hna as Hn'. apply read_int32_Done in Hn'. destruct Hn' as (? & _ & _ & ->).
  pose proof Hnd as Hd'. apply read_int32_Done in Hd'. destruct Hd' as (? & _ & _ & ->).
  replace (q + 1 + 4) with (q + 5) in * by lia.
  replace (q + 5 + 4) with (q + 9) in * by lia.
  exists q, sk, na, q1, nd, q2.
  repeat split; try assumption; try lia.
  unfold at_. cbn [nth]. rewrite skey_test. destruct (Byte.eqb sk x00); reflexivity.
Qed.

Lemma parse_header_Path b c e p c' err q :
  parse_header b c e p = Done ((c', err), q) -> Path c' = Path c.
Proof.
  intros H. unfold parse_header in H. destruct (negb (Version c =? 4)).
  - apply ret_Done in H. inversion H. reflexivity.
  - inv_bind H. inv_bind H.
    destruct (snd a0); apply ret_Done in H; inversion H; reflexivity.
Qed.

Lemma ParseCCache_Path h b c err :
  ParseCCache h b = Done (c, err) -> Path c = ""%string.
Proof.
  intros H.
  destruct (ParseCCache_cases h b)
    as [(_ & E) | [(x & rest & _ & _ & E) | [(_ & E) |
        [(v & rest & _ & _ & E) | (v & rest & Hb & Hv & E)]]]];
    rewrite E in H; try discriminate.
  - inversion H. reflexivity.
  - inversion H. reflexivity.
  - clear E. unfold ParseCCache_body in H.
    set (c0 := set_Version CCache0 (byteZ v)) in *.
    set (e := byte_order h (byteZ v)) in *.
    assert (Ht : forall c1 q, Path c1 = ""%string ->
              ParseCCache_tail h b c1 e q = Done (c, err) -> Path c = ""%string).
    { intros c1 q Hc1 Ht. unfold ParseCCache_tail in Ht.
      destruct (parse_principal h b c1 e q) as [[princ q1]| |]; try discriminate.
      apply read_credentials_Path in Ht. rewrite Ht. exact Hc1. }
    destruct (byteZ v =? 4).
    + destruct (parse_header b c0 e 2) as [[[c1 [er|]] q]| |] eqn:Eh;
        try discriminate.
      * inversion H; subst. apply parse_header_Path in Eh. exact Eh.
      * apply parse_header_Path in Eh. eapply Ht; eassumption.
    + eapply Ht; [| exact H]. reflexivity.
Qed.

Lemma LoadCCache_cases (ReadFile : string -> byteslice * error) h cpath :
  match ReadFile cpath with
  | (_, Some e) => LoadCCache ReadFile h cpath = Done (CCache0, Some e)
  | (k, None) =>
      ((List.length (elems k) < 2)%nat ->
       (forall x, hd_error (elems k) = Some x -> x = x05) ->
       LoadCCache ReadFile h cpath = Panic) /\
      (forall c err,
         LoadCCache ReadFile h cpath = Done (c, err) ->
         Path c = cpath /\
         ParseCCache h k = Done (set_Path c "", err) /\
         (err <> None ->
          Credentials c = [] /\ Header c = header0 /\
          DefaultPrincipal c = principal0))
  end.
Proof.
  unfold LoadCCache. destruct (ReadFile cpath) as [k [e|]]; [reflexivity|].
  split.
  - intros Hlen Hhd. rewrite (ParseCCache_short_buffer h k Hlen Hhd). reflexivity.
  - intros c err H.
    destruct (ParseCCache h k) as [[c0 er]| |] eqn:E; try discriminate.
    inversion H; subst c err; clear H. cbn [set_Path Path].
    pose proof (ParseCCache_Path h k c0 er E) as HP.
    split; [reflexivity|]. split.
    + unfold set_Path. cbn. rewrite <- HP. destruct c0; reflexivity.
    + intros Hne. destruct er as [e|]; [| congruence].
      apply ParseCCache_error in E. destruct E as (Hc & _).
      rewrite Hc. cbn. auto.
Qed.

(** ** Reads on both sides of a cut *)

Lemma confined_ret t {A} (a : A) : confined t (ret a) (ret a).
Proof.
  intros p x p' H. apply ret_Done in H. inversion H; subst.
  split; [lia | intros _; reflexivity].
Qed.

Lemma confined_bind t {A B} (mb mt : M A) (kb kt : A -> M B) :
  confined t mb mt -> (forall a, confined t (kb a) (kt a)) ->
  confined t (x <- mb ;; kb x) (x <- mt ;; kt x).
Proof.
  intros Hm Hk p r p' H. inv_bind H.
  destruct (Hm _ _ _ Hr) as (H1 & H2). destruct (Hk _ _ _ _ H) as (H3 & H4).
  split; [lia|]. intros Hp.
  rewrite (bind_eq _ _ _ _ _ (H2 ltac:(lia))). apply H4. exact Hp.
Qed.

Lemma confined_times t {A} n (mb mt : M A) :
  confined t mb mt -> confined t (times n mb) (times n mt).
Proof.
  intros Hm. induction n as [|n IH]; simpl.
  - apply confined_ret.
  - apply confined_bind; [exact Hm | intros a].
    apply confined_bind; [exact IH | intros xs; apply confined_ret].
Qed.

Lemma confined_make_and_fill t {A} l (mb mt : M A) :
  confined t mb mt -> confined t (make_and_fill l mb) (make_and_fill l mt).
Proof.
  intros Hm. unfold make_and_fill. destruct (l <? 0).
  - intros p r p' H. discriminate H.
  - apply confined_times, Hm.
Qed.

Section Confinement.

Variables t b : byteslice.
Hypothesis Hext : extends t b.

Lemma subslice_confined lo hi l :
  subslice b lo hi = Done l -> hi <= cap t -> subslice t lo hi = Done l.
Proof.
  intros H Hhi. pose proof H as H0. apply subslice_Done in H0.
  destruct H0 as (H1 & H2 & _ & _).
  pose proof (subslice_in_range t lo hi H1 H2 Hhi) as Ht.
  rewrite (subslice_extends _ _ _ _ _ Hext Ht) in H. rewrite Ht. exact H.
Qed.

Lemma confined_read_int8 e : confined t (read_int8 b e) (read_int8 t e).
Proof.
  intros p a p' H. unfold read_int8 in *.
  destruct (subslice b p (p + 1)) eqn:E; try discriminate.
  inversion H; subst; clear H. split; [lia|]. intros Hp.
  rewrite (subslice_confined _ _ _ E Hp). reflexivity.
Qed.

Lemma confined_read_int16 e : confined t (read_int16 b e) (read_int16 t e).
Proof.
  intros p a p' H. unfold read_int16 in *.
  destruct (subslice b p (p + 2)) eqn:E; try discriminate.
  inversion H; subst; clear H. split; [lia|]. intros Hp.
  rewrite (subslice_confined _ _ _ E Hp). reflexivity.
Qed.

Lemma confined_read_int32 e : confined t (read_int32 b e) (read_int32 t e).
Proof.
  intros p a p' H. unfold read_int32 in *.
  destruct (subslice b p (p + 4)) eqn:E; try discriminate.
  inversion H; subst; clear H. split; [lia|]. intros Hp.
  rewrite (subslice_confined _ _ _ E Hp). reflexivity.
Qed.

Lemma confined_read_Bytes s e : confined t (read_Bytes b s e) (read_Bytes t s e).
Proof.
  intros p a p' H. unfold read_Bytes in *.
  destruct (subslice b p (p + s)) eqn:E; try discriminate.
  inversion H; subst; clear H.
  split; [apply subslice_Done in E; lia|]. intros Hp.
  rewrite (subslice_confined _ _ _ E Hp). reflexivity.
Qed.

Lemma confined_read_data e : confined t (read_data b e) (read_data t e).
Proof.
  apply confined_bind; [apply confined_read_int32 | intros; apply confined_read_Bytes].
Qed.

Lemma confined_read_headerField e :
  confined t (read_headerField b e) (read_headerField t e).
Proof.
  unfold read_headerField.
  apply confined_bind; [apply confined_read_int16 | intros tag].
  apply confined_bind; [apply confined_read_int16 | intros l].
  apply confined_bind; [| intros; apply confined_ret].
  intros p a p' H.
  destruct (subslice b p (p + to_uint16 l)) eqn:E; try discriminate.
  inversion H; subst; clear H.
  split; [apply subslice_Done in E; lia|]. intros Hp.
  rewrite (subslice_confined _ _ _ E Hp). reflexivity.
Qed.

Lemma confined_header_fields fuel : forall e h_len fields,
  confined t (header_fields fuel b e h_len fields)
             (header_fields fuel t e h_len fields).
Proof.
  induction fuel as [|fuel IH]; intros e h_len fields p r p' H; simpl in *;
    [discriminate|].
  destruct (p <=? h_len).
  - destruct (read_headerField b e p) as [[f q]| |] eqn:E; try discriminate.
    destruct (confined_read_headerField e _ _ _ E) as (H1 & H2).
    destruct (negb (valid f)) eqn:Ev.
    + inversion H; subst; clear H. split; [lia|]. intros Hp.
      rewrite (H2 Hp), Ev. reflexivity.
    + destruct (IH _ _ _ _ _ _ H) as (H3 & H4). split; [lia|]. intros Hp.
      rewrite (H2 ltac:(lia)), Ev. apply H4. exact Hp.
  - inversion H; subst; clear H. split; [lia | intros _; reflexivity].
Qed.

Lemma confined_parse_header c e :
  confined t (parse_header b c e) (parse_header t c e).
Proof.
  unfold parse_header. destruct (negb (Version c =? 4)); [apply confined_ret|].
  apply confined_bind; [apply confined_read_int16 | intros l].
  apply confined_bind; [apply confined_header_fields | intros r].
  destruct (snd r); apply confined_ret.
Qed.

Lemma confined_read_component e :
  confined t (read_component b e) (read_component t e).
Proof.
  unfold read_component.
  apply confined_bind; [apply confined_read_int32 | intros l].
  apply confined_bind; [apply confined_read_Bytes | intros; apply confined_ret].
Qed.

Lemma confined_parse_principal h c e :
  confined t (parse_principal h b c e) (parse_principal h t c e).
Proof.
  unfold parse_principal.
  apply confined_bind;
    [destruct (negb _); [apply confined_read_int32 | apply confined_ret] | intros nt].
  apply confined_bind; [apply confined_read_int32 | intros nc].
  apply confined_bind; [apply confined_read_int32 | intros lr].
  apply confined_bind; [apply confined_read_Bytes | intros realm].
  apply confined_bind; [apply confined_times, confined_read_component | intros].
  apply confined_ret.
Qed.

Lemma confined_parse_credential h c e :
  confined t (parse_credential h b c e) (parse_credential h t c e).
Proof.
  unfold parse_credential, read_timestamp, read_address, read_authDataEntry.
  repeat first
    [ apply confined_ret
    | apply confined_read_int8 | apply confined_read_int16
    | apply confined_read_int32 | apply confined_read_Bytes
    | apply confined_read_data | apply confined_parse_principal
    | apply confined_make_and_fill
    | apply confined_bind; [| intros ?]
    | match goal with
      | |- confined _ (if ?c then _ else _) _ => destruct c
      end ].
Qed.

End Confinement.

(** [parse_header] started inside the buffer ends inside it. *)
Lemma stays_header_fields b fuel : forall e h_len fields,
  stays b (header_fields fuel b e h_len fields).
Proof.
  induction fuel as [|fuel IH]; intros e h_len fields p r p' H Hp; simpl in H;
    [discriminate|].
  destruct (p <=? h_len).
  - destruct (read_headerField b e p) as [[f q]| |] eqn:E; try discriminate.
    assert (Hq : q <= cap b).
    { unfold read_headerField in E. inv_bind E. inv_bind E. inv_bind E.
      apply ret_Done in E. inversion E; subst.
      destruct (subslice b q1 (q1 + to_uint16 a0)) eqn:Es; try discriminate.
      inversion Hr1; subst. apply subslice_Done in Es. lia. }
    destruct (negb (valid f)).
    + inversion H; subst. exact Hq.
    + eapply IH; eassumption.
  - inversion H; subst. exact Hp.
Qed.

Lemma stays_parse_header b c e : stays b (parse_header b c e).
Proof.
  unfold parse_header. destruct (negb (Version c =? 4)); [apply stays_ret|].
  apply stays_bind.
  - intros p a p' H _. apply read_int16_Done in H. destruct H as (buf & E & _ & ->).
    apply subslice_Done in E. lia.
  - intros l. apply stays_bind; [apply stays_header_fields | intros r].
    destruct (snd r); apply stays_ret.
Qed.

(** The credentials loop on a buffer [b] and on a slice [t] that holds its
    first bytes, up to the capacity of [tn], and any bytes behind them. *)
Lemma read_credentials_cut h tn t b e :
  extends tn t -> extends tn b -> len t = cap tn -> cap tn < len b ->
  forall fuel_t fuel_b c0 p c' err' cb errb,
    read_credentials fuel_t h t c0 e p = Done (c', err') ->
    read_credentials fuel_b h b c0 e p = Done (cb, errb) ->
    p <= cap tn ->
    err' = None /\ Header cb = Header c' /\
    DefaultPrincipal cb = DefaultPrincipal c' /\
    ((exists more, more <> [] /\ Credentials cb = Credentials c' ++ more) \/
     (cap tn < cap t /\
      exists kept across more, more <> [] /\
        Credentials cb = kept ++ more /\ Credentials c' = kept ++ [across])).
Proof.
  intros Hextt Hextb Hlen Hcap fuel_t.
  induction fuel_t as [|fuel_t IH];
    intros fuel_b c0 p c' err' cb errb Ht Hb Hp; simpl in Ht; [discriminate|].
  destruct fuel_b as [|fuel_b]; simpl in Hb; [discriminate|].
  replace (p <? len b) with true in Hb by (symmetry; apply Z.ltb_lt; lia).
  destruct (parse_credential h b c0 e p) as [[[credb erb] pb]| |] eqn:Eb;
    try discriminate.
  destruct erb; [apply parse_credential_no_error in Eb; discriminate Eb|].
  assert (Hrest : Header cb = Header c0 /\ DefaultPrincipal cb = DefaultPrincipal c0 /\
                  exists creds, Credentials cb = Credentials c0 ++ credb :: creds).
  { apply read_credentials_Done in Hb. cbn in Hb.
    destruct Hb as (_ & _ & Hh & Hd & creds & Hc).
    repeat split; try assumption. exists creds. rewrite Hc, <- app_assoc. reflexivity. }
  destruct (p <? len t) eqn:Elt.
  - destruct (parse_credential h t c0 e p) as [[[cred er] p']| |] eqn:E;
      try discriminate.
    destruct er; [apply parse_credential_no_error in E; discriminate E|].
    destruct (confined_parse_credential tn t Hextt h c0 e _ _ _ E) as (_ & Hconf).
    destruct (Z_le_gt_dec p' (cap tn)) as [Hin | Hout].
    + pose proof (carries_parse_credential tn b Hextb h c0 e _ _ (Hconf Hin)) as Eb'.
      rewrite Eb in Eb'. inversion Eb'; subst credb pb.
      eapply IH; eassumption.
    + destruct fuel_t as [|fuel_t]; simpl in Ht; [discriminate|].
      replace (p' <? len t) with false in Ht by (symmetry; apply Z.ltb_ge; lia).
      inversion Ht; subst c' err'; clear Ht. cbn.
      destruct Hrest as (Hh & Hd & creds & Hc).
      repeat split; try assumption. right.
      pose proof (lands_parse_credential _ _ _ _ _ _ _ E). split; [lia|].
      exists (Credentials c0), cred, (credb :: creds).
      repeat split; [discriminate | exact Hc].
  - inversion Ht; subst c' err'; clear Ht.
    destruct Hrest as (Hh & Hd & creds & Hc).
    repeat split; try assumption. left.
    exists (credb :: creds). split; [discriminate | exact Hc].
Qed.

Lemma parse_header_Credentials b c e p c' err q :
  parse_header b c e p = Done ((c', err), q) -> Credentials c' = Credentials c.
Proof.
  intros H. unfold parse_header in H. destruct (negb (Version c =? 4)).
  - apply ret_Done in H. inversion H. reflexivity.
  - inv_bind H. inv_bind H.
    destruct (snd a0); apply ret_Done in H; inversion H; reflexivity.
Qed.

(** The version and the path of a cache that is returned. *)
Lemma ParseCCache_Version h b c :
  ParseCCache h b = Done (c, None) ->
  exists vb rest, elems b = x05 :: vb :: rest /\ 1 <= byteZ vb <= 4 /\
                  Version c = byteZ vb.
Proof.
  intros H.
  destruct (ParseCCache_cases h b)
    as [(_ & E) | [(x & rest & _ & _ & E) | [(_ & E) |
        [(v & rest & _ & _ & E) | (v & rest & Hb & Hv & E)]]]];
    rewrite E in H; try discriminate.
  clear E. exists v, rest. split; [exact Hb|]. split; [exact Hv|].
  unfold ParseCCache_body in H.
  set (c0 := set_Version CCache0 (byteZ v)) in *.
  set (e := byte_order h (byteZ v)) in *.
  assert (Htail : forall c1 q, Version c1 = byteZ v ->
            ParseCCache_tail h b c1 e q = Done (c, None) -> Version c = byteZ v).
  { intros c1 q Hc1 Ht. unfold ParseCCache_tail in Ht.
    destruct (parse_principal h b c1 e q) as [[princ q1]| |]; try discriminate.
    apply read_credentials_Done in Ht. destruct Ht as (_ & Hv' & _).
    rewrite Hv'. exact Hc1. }
  destruct (byteZ v =? 4).
  - destruct (parse_header b c0 e 2) as [[[c1 [er|]] q]| |] eqn:Eh;
      try discriminate.
    apply parse_header_Version in Eh. eapply Htail; [| exact H].
    rewrite Eh. reflexivity.
  - eapply Htail; [| exact H]. reflexivity.
Qed.

(** Decoding a slice that holds the first [n] bytes of a buffer that decodes
    without error, whatever the capacity of the slice and the bytes behind
    its length are. *)
Lemma ParseCCache_truncation h b c n t :
  ParseCCache h b = Done (c, None) ->
  (n < List.length (elems b))%nat ->
  elems t = firstn n (elems b) ->
  ParseCCache h t = Panic \/
  (exists c' more,
     ParseCCache h t = Done (c', None) /\ more <> [] /\
     Version c = Version c' /\ Header c = Header c' /\
     DefaultPrincipal c = DefaultPrincipal c' /\ Path c = Path c' /\
     Credentials c = Credentials c' ++ more) \/
  (spare t <> [] /\
   ((Version c = 4 /\
     ParseCCache h t = Done (set_Version CCache0 4, Some errHeaderField)) \/
    exists c',
      ParseCCache h t = Done (c', None) /\
      Version c = Version c' /\ Path c = Path c' /\
      (Credentials c' = [] \/
       (Header c = Header c' /\ DefaultPrincipal c = DefaultPrincipal c' /\
        exists kept across more, more <> [] /\
          Credentials c = kept ++ more /\ Credentials c' = kept ++ [across])))).
Proof.
  intros H Hn Hel.
  destruct (truncate_elems n b Hn) as (Heln & _ & Hctn).
  pose proof (extends_truncate n b) as Hextb.
  set (tn := truncate n b) in *.
  assert (Hextt : extends tn t).
  { exists (spare t). unfold backing. rewrite Hel, Heln.
    unfold tn, truncate, of_bytes. cbn [spare]. rewrite app_nil_r. reflexivity. }
  assert (Hlen : len t = cap tn).
  { unfold len. rewrite Hel, length_firstn. lia. }
  assert (Hcap : cap tn < len b) by (unfold len; lia).
  assert (Hspare : cap tn < cap t -> spare t <> []).
  { intros Hlt Hs. unfold cap at 2 in Hlt. unfold backing in Hlt.
    rewrite Hs, app_nil_r in Hlt. fold (len t) in Hlt. lia. }
  pose proof (ParseCCache_Path _ _ _ _ H) as HPc.
  destruct (ParseCCache_Version _ _ _ H) as (v & rest & Hb & Hv & HVc).
  (* whatever [t] returns without error has the version and the path of [c] *)
  assert (Hsame : forall c', ParseCCache h t = Done (c', None) ->
                    Version c = Version c' /\ Path c = Path c').
  { intros c' Hc'. pose proof (ParseCCache_Path _ _ _ _ Hc') as HP'.
    destruct (ParseCCache_Version _ _ _ Hc') as (v' & rest' & Hb' & _ & HV').
    split; [| congruence].
    rewrite Hel, Hb in Hb'. destruct n as [|[|m]]; cbn [firstn] in Hb';
      try discriminate. inversion Hb'; subst. congruence. }
  destruct (ParseCCache h t) as [[c' err']| |] eqn:Et;
    [| left; reflexivity | exfalso; exact (ParseCCache_terminates _ _ Et)].
  right.
  destruct n as [|[|m]].
  { exfalso. unfold ParseCCache in Et. rewrite index_nil in Et; [discriminate|].
    rewrite Hel. reflexivity. }
  { exfalso. rewrite Hb in Hel. cbn [firstn] in Hel.
    unfold ParseCCache in Et. rewrite (index_0 _ _ _ Hel) in Et.
    change (negb (to_int8 (byteZ x05) =? 5)) with false in Et. cbv iota in Et.
    rewrite (index_short _ _ _ Hel) in Et; [discriminate | lia]. }
  rewrite Hb in Hel. cbn [firstn] in Hel.
  pose proof Et as Et0.
  rewrite (ParseCCache_unfold h t v _ Hel Hv) in Et.
  rewrite (ParseCCache_unfold h b v _ Hb Hv) in H.
  assert (Hn2 : 2 <= cap tn) by lia.
  unfold ParseCCache_body in *.
  set (c0 := set_Version CCache0 (byteZ v)) in *.
  set (e := byte_order h (byteZ v)) in *.
  (* the part behind the header, started behind the cut *)
  assert (Hbeyond : forall c1 q, cap tn < q -> q <= cap t -> Credentials c1 = [] ->
            ParseCCache_tail h t c1 e q = Done (c', err') ->
            err' = None /\ spare t <> [] /\ Credentials c' = []).
  { intros c1 q Hq Hqt Hc1 Htt. unfold ParseCCache_tail in Htt.
    destruct (parse_principal h t c1 e q) as [[princ q1]| |] eqn:Ep;
      try discriminate.
    pose proof (advances_parse_principal _ _ _ _ _ _ _ Ep).
    simpl in Htt.
    replace (q1 <? len t) with false in Htt by (symmetry; apply Z.ltb_ge; lia).
    inversion Htt; subst c' err'.
    split; [reflexivity|]. split; [apply Hspare; lia | exact Hc1]. }
  (* the part behind the header, started before the cut *)
  assert (Htail : forall c1 q, q <= cap tn -> Credentials c1 = [] ->
            ParseCCache_tail h b c1 e q = Done (c, None) ->
            ParseCCache_tail h t c1 e q = Done (c', err') ->
            err' = None /\
            ((exists more, more <> [] /\ Header c = Header c' /\
                DefaultPrincipal c = DefaultPrincipal c' /\
                Credentials c = Credentials c' ++ more) \/
             (spare t <> [] /\
              (Credentials c' = [] \/
               (Header c = Header c' /\ DefaultPrincipal c = DefaultPrincipal c' /\
                exists kept across more, more <> [] /\
                  Credentials c = kept ++ more /\ Credentials c' = kept ++ [across]))))).
  { intros c1 q Hq Hc1 Hbt Htt.
    destruct (parse_principal h t c1 e q) as [[princ q1]| |] eqn:Ep;
      [| unfold ParseCCache_tail in Htt; rewrite Ep in Htt; discriminate Htt ..].
    destruct (confined_parse_principal tn t Hextt h c1 e _ _ _ Ep) as (_ & Hconf).
    destruct (Z_le_gt_dec q1 (cap tn)) as [Hin | Hout].
    - unfold ParseCCache_tail in Hbt, Htt. rewrite Ep in Htt.
      rewrite (carries_parse_principal tn b Hextb h c1 e _ _ (Hconf Hin)) in Hbt.
      destruct (read_credentials_cut h tn t b e Hextt Hextb Hlen Hcap
                  _ _ _ _ _ _ _ _ Htt Hbt Hin)
        as (-> & Hh & Hd & [(more & Hm & Hc) | (Hlt & kept & across & more & Hm & Hc & Hc')]).
      + split; [reflexivity|]. left. exists more. repeat split; assumption.
      + split; [reflexivity|]. right. split; [apply Hspare; exact Hlt|]. right.
        repeat split; try assumption. exists kept, across, more.
        repeat split; assumption.
    - pose proof (advances_parse_principal _ _ _ _ _ _ _ Ep).
      pose proof (lands_parse_principal _ _ _ _ _ _ _ Ep).
      unfold ParseCCache_tail in Htt. rewrite Ep in Htt. simpl in Htt.
      replace (q1 <? len t) with false in Htt by (symmetry; apply Z.ltb_ge; lia).
      inversion Htt; subst c' err'.
      split; [reflexivity|]. right. split; [apply Hspare; lia|]. left. exact Hc1. }
  (* from the result of the tail to the statement *)
  assert (Hfin : err' = None /\
            ((exists more, more <> [] /\ Header c = Header c' /\
                DefaultPrincipal c = DefaultPrincipal c' /\
                Credentials c = Credentials c' ++ more) \/
             (spare t <> [] /\
              (Credentials c' = [] \/
               (Header c = Header c' /\ DefaultPrincipal c = DefaultPrincipal c' /\
                exists kept across more, more <> [] /\
                  Credentials c = kept ++ more /\ Credentials c' = kept ++ [across])))) ->
            (exists c'0 more,
               Done (c', err') = Done (c'0, None) /\ more <> [] /\
               Version c = Version c'0 /\ Header c = Header c'0 /\
               DefaultPrincipal c = DefaultPrincipal c'0 /\ Path c = Path c'0 /\
               Credentials c = Credentials c'0 ++ more) \/
            (spare t <> [] /\
             ((Version c = 4 /\
               Done (c', err') = Done (set_Version CCache0 4, Some errHeaderField)) \/
              exists c'0,
                Done (c', err') = Done (c'0, None) /\
                Version c = Version c'0 /\ Path c = Path c'0 /\
                (Credentials c'0 = [] \/
                 (Header c = Header c'0 /\ DefaultPrincipal c = DefaultPrincipal c'0 /\
                  exists kept across more, more <> [] /\
                    Credentials c = kept ++ more /\ Credentials c'0 = kept ++ [across]))))).
  { intros (-> & Hres). destruct (Hsame c' eq_refl) as (HV & HP).
    destruct Hres as [(more & Hm & Hh & Hd & Hc) | (Hs & Hres)].
    - left. exists c', more. repeat split; assumption.
    - right. split; [exact Hs|]. right. exists c'. repeat split; assumption. }
  destruct (byteZ v =? 4) eqn:E4.
  - apply Z.eqb_eq in E4.
    destruct (parse_header t c0 e 2) as [[[c1 er] q]| |] eqn:Eh; try discriminate.
    destruct (confined_parse_header tn t Hextt c0 e _ _ _ Eh) as (_ & Hconf).
    pose proof (parse_header_Credentials _ _ _ _ _ _ _ Eh) as Hc1. cbn in Hc1.
    destruct (Z_le_gt_dec q (cap tn)) as [Hin | Hout].
    + rewrite (carries_parse_header tn b Hextb c0 e _ _ (Hconf Hin)) in H.
      destruct er as [er|]; [discriminate H|].
      apply Hfin. eapply Htail; eassumption.
    + assert (Hqt : q <= cap t).
      { eapply stays_parse_header; [exact Eh|].
        destruct Hextt as (r & Hr). unfold cap in *. rewrite Hr, length_app. lia. }
      destruct er as [er|].
      * inversion Et; subst c' err'. apply parse_header_error in Eh.
        destruct Eh as (-> & [(Hne & _) | ->]); [exfalso; apply Hne; exact E4|].
        right. split; [apply Hspare; lia|]. left.
        split; [congruence|]. unfold c0. rewrite E4. reflexivity.
      * apply Hfin.
        destruct (Hbeyond c1 q ltac:(lia) Hqt Hc1 Et) as (-> & Hs & Hc').
        split; [reflexivity|]. right. split; [exact Hs|]. left. exact Hc'.
  - apply Hfin. eapply (Htail c0 2); try eassumption. reflexivity.
Qed.

(** The same by whether the first [n] bytes decode on their own, in a
    slice without capacity to spare, which they do when the cut is where the
    default principal or a credential ends. *)
Lemma ParseCCache_truncation_cases h b c n t :
  ParseCCache h b = Done (c, None) ->
  (n < List.length (elems b))%nat ->
  elems t = firstn n (elems b) ->
  (exists c' more,
     ParseCCache h (truncate n b) = Done (c', None) /\
     ParseCCache h t = Done (c', None) /\ more <> [] /\
     Version c = Version c' /\ Header c = Header c' /\
     DefaultPrincipal c = DefaultPrincipal c' /\ Path c = Path c' /\
     Credentials c = Credentials c' ++ more) \/
  (ParseCCache h (truncate n b) = Panic /\
   (ParseCCache h t = Panic \/
    (spare t <> [] /\
     ((Version c = 4 /\
       ParseCCache h t = Done (set_Version CCache0 4, Some errHeaderField)) \/
      exists c',
        ParseCCache h t = Done (c', None) /\
        Version c = Version c' /\ Path c = Path c' /\
        (Credentials c' = [] \/
         (Header c = Header c' /\ DefaultPrincipal c = DefaultPrincipal c' /\
          exists kept across more, more <> [] /\
            Credentials c = kept ++ more /\
            Credentials c' = kept ++ [across])))))).
Proof.
  intros H Hn Hel.
  assert (Ht : t = mkSlice (firstn n (elems b)) (spare t)).
  { destruct t as [el sp]. cbn [elems spare] in *. rewrite Hel. reflexivity. }
  destruct (ParseCCache_truncate h b c n H Hn)
    as [HP | (c' & more & Hc' & Hm & HV & HH & HD & HPa & HC)].
  - right. split; [exact HP|].
    destruct (ParseCCache_truncation h b c n t H Hn Hel)
      as [HPt | [(c' & more & Hc' & Hm & HV & HH & HD & HPa & HC) | Hres]].
    + left. exact HPt.
    + right.
      assert (Hs : spare t <> []).
      { intros Hs. rewrite Ht, Hs in Hc'.
        change (mkSlice (firstn n (elems b)) []) with (truncate n b) in Hc'.
        congruence. }
      split; [exact Hs|]. right. exists c'.
      split; [exact Hc'|]. split; [exact HV|]. split; [exact HPa|].
      destruct (Credentials c') as [|x xs] eqn:Ecs; [left; reflexivity | right].
      split; [exact HH|]. split; [exact HD|].
      destruct (@exists_last _ (x :: xs) ltac:(discriminate))
        as (kept & across & Hka).
      exists kept, across, (across :: more).
      split; [discriminate|]. split; [| exact Hka].
      rewrite HC, Hka, <- app_assoc. reflexivity.
    + right. exact Hres.
  - left. exists c', more. split; [exact Hc'|]. split.
    { rewrite Ht. apply ParseCCache_spare_irrelevant. exact Hc'. }
    repeat split; assumption.
Qed.

(** The encoders write the span whose value in the byte order is the
    number. *)
Lemma span_value_enc16 e z : span_value e (enc16 e z) = z mod 2 ^ 16.
Proof.
  destruct e; unfold span_value, enc16, big_endian_value, little_endian_value;
    cbn [rev app fold_left fold_right];
    rewrite !byteZ_byte_of, !Z.shiftr_div_pow2 by lia;
    change (2 ^ 8) with 256; change (2 ^ 16) with 65536;
    Z.div_mod_to_equations; lia.
Qed.

Lemma span_value_enc32 e z : span_value e (enc32 e z) = z mod 2 ^ 32.
Proof.
  destruct e; unfold span_value, enc32, big_endian_value, little_endian_value;
    cbn [rev app fold_left fold_right];
    rewrite !byteZ_byte_of, !Z.shiftr_div_pow2 by lia;
    change (2 ^ 8) with 256; change (2 ^ 16) with 65536;
    change (2 ^ 24) with 16777216; change (2 ^ 32) with 4294967296;
    Z.div_mod_to_equations; lia.
Qed.

(** The ways [ParseCCache] returns an error, and the cache beside it. *)
Lemma ParseCCache_error_cases h b c err :
  ParseCCache h b = Done (c, Some err) ->
  (err = errMagic /\ c = CCache0 /\
   exists x rest, elems b = x :: rest /\ x <> x05) \/
  (exists vb rest, elems b = x05 :: vb :: rest /\
     c = set_Version CCache0 (byteZ vb) /\
     ((err = errVersion /\ (byteZ vb < 1 \/ 4 < byteZ vb)) \/
      (err = errHeaderField /\ byteZ vb = 4))).
Proof.
  intros H.
  destruct (ParseCCache_cases h b)
    as [(_ & E) | [(x & rest & Hb & Hx & E) | [(_ & E) |
        [(v & rest & Hb & Hv & E) | (v & rest & Hb & Hv & E)]]]];
    rewrite E in H; try discriminate.
  - inversion H; subst. left. repeat split. exists x, rest. auto.
  - inversion H; subst. right. exists v, rest. auto.
  - clear E. right. exists v, rest. split; [exact Hb|].
    unfold ParseCCache_body in H.
    set (c0 := set_Version CCache0 (byteZ v)) in *.
    set (e := byte_order h (byteZ v)) in *.
    assert (Hok : forall c1 p, ParseCCache_tail h b c1 e p = Done (c, Some err) ->
                               False).
    { intros c1 p H1. unfold ParseCCache_tail in H1.
      destruct (parse_principal h b c1 e p) as [[princ p0]| |];
        try discriminate.
      apply read_credentials_Done in H1. destruct H1 as (H1 & _). discriminate. }
    destruct (byteZ v =? 4) eqn:E4.
    + apply Z.eqb_eq in E4.
      destruct (parse_header b c0 e 2) as [[[c1 [er|]] q]| |] eqn:Eh;
        try discriminate.
      * inversion H; subst. apply parse_header_error in Eh.
        destruct Eh as (-> & [(Hne & _) | ->]); [contradiction | auto].
      * exfalso. eapply Hok; eauto.
    + exfalso. eapply Hok; eauto.
Qed.

(** * The claims *)

(** ** C1: truncated buffers *)

(** C1, as amended.  The decoder has no error for a short buffer, and no
    read compares an offset with the length of the buffer.  Each primitive
    read takes the slice [b[offset : offset+n]], which panics when
    [offset + n] exceeds the capacity of the buffer and otherwise yields the
    bytes that are there, those behind the length as well.  So for every
    buffer that decodes without error and every slice [t] that holds its
    first [n] bytes, [n] below its length, whatever the capacity of [t] and
    the bytes behind its length are:
    - when the first [n] bytes decode on their own, the cut being where the
      default principal or a credential ends, decoding [t] returns, without
      error, the cache they decode to: it has the same version, header and
      default principal and a proper prefix of the credentials;
    - when they do not, decoding [t] panics, unless [t] has capacity behind
      its length and the decoder reads across the cut: it then panics or
      returns either the header field error (version 4 only), or, without
      error, a cache of the same version that has no credentials, or one
      that has the header and the default principal of the whole buffer and
      a proper prefix of its credentials, followed by one credential read
      across the cut. *)
Theorem C1_truncated_buffer_outcomes h b c n t :
  ParseCCache h b = Done (c, None) ->
  (n < List.length (elems b))%nat ->
  elems t = firstn n (elems b) ->
  (forall e p,
     (cap t < p + 1 -> read_int8 t e p = Panic) /\
     (cap t < p + 2 -> read_int16 t e p = Panic) /\
     (cap t < p + 4 -> read_int32 t e p = Panic) /\
     (forall s, cap t < p + s -> read_Bytes t s e p = Panic)) /\
  ((exists c' more,
      ParseCCache h (truncate n b) = Done (c', None) /\
      ParseCCache h t = Done (c', None) /\ more <> [] /\
      Version c = Version c' /\ Header c = Header c' /\
      DefaultPrincipal c = DefaultPrincipal c' /\ Path c = Path c' /\
      Credentials c = Credentials c' ++ more) \/
   (ParseCCache h (truncate n b) = Panic /\
    (ParseCCache h t = Panic \/
     (spare t <> [] /\
      ((Version c = 4 /\
        ParseCCache h t = Done (set_Version CCache0 4, Some errHeaderField)) \/
       exists c',
         ParseCCache h t = Done (c', None) /\
         Version c = Version c' /\ Path c = Path c' /\
         (Credentials c' = [] \/
          (Header c = Header c' /\ DefaultPrincipal c = DefaultPrincipal c' /\
           exists kept across more, more <> [] /\
             Credentials c = kept ++ more /\
             Credentials c' = kept ++ [across]))))))).
Proof.
  intros H Hn Hel. split.
  - intros e p. repeat split; [intros Hp | intros Hp | intros Hp | intros s Hp];
      unfold read_int8, read_int16, read_int32, read_Bytes;
      rewrite subslice_out_of_range by lia; reflexivity.
  - apply (ParseCCache_truncation_cases h b c n t); assumption.
Qed.

Lemma C1_truncated_buffer_outcomes_witness :
  let b := of_bytes (two_credentials 4) in
  (exists c',
     ParseCCache amd64 (file_buffer (firstn 192 (two_credentials 4)))
     = Done (c', None) /\
     Credentials sample_cache
     = Credentials c' ++ [sample_credential conf_principal]) /\
  ParseCCache amd64 (truncate 100 b) = Panic /\
  (exists c' across,
     ParseCCache amd64 (file_buffer (firstn 100 (two_credentials 4)))
     = Done (c', None) /\
     Credentials c' = [across] /\
     across <> sample_credential krbtgt_principal) /\
  ParseCCache amd64 (file_buffer (firstn 4 (two_credentials 4)))
  = Done (set_Version CCache0 4, Some errHeaderField).
Proof.
  cbv zeta. split; [| split; [| split]].
  - destruct (C1_truncated_buffer_outcomes amd64
                (of_bytes (two_credentials 4)) sample_cache 192
                (file_buffer (firstn 192 (two_credentials 4)))
                ltac:(vm_compute; reflexivity) ltac:(vm_compute; lia)
                ltac:(reflexivity))
      as (_ & [(c' & more & Hn' & Hc' & _ & _ & _ & _ & _ & Hm) | (HP & _)]).
    + exists c'. split; [exact Hc'|].
      vm_compute in Hn'. inversion Hn'; subst c'. reflexivity.
    + vm_compute in HP. discriminate HP.
  - destruct (C1_truncated_buffer_outcomes amd64
                (of_bytes (two_credentials 4)) sample_cache 100
                (truncate 100 (of_bytes (two_credentials 4)))
                ltac:(vm_compute; reflexivity) ltac:(vm_compute; lia)
                ltac:(reflexivity))
      as (_ & [(c' & more & Hn' & _) | (HP & _)]).
    + vm_compute in Hn'. discriminate Hn'.
    + exact HP.
  - destruct (C1_truncated_buffer_outcomes amd64
                (of_bytes (two_credentials 4)) sample_cache 100
                (file_buffer (firstn 100 (two_credentials 4)))
                ltac:(vm_compute; reflexivity) ltac:(vm_compute; lia)
                ltac:(reflexivity))
      as (_ & [(c' & more & Hn' & _) |
               (_ & [HP | (_ & [(_ & He) | (c' & Hc' & _)])])]).
    + vm_compute in Hn'. discriminate Hn'.
    + vm_compute in HP. discriminate HP.
    + vm_compute in He. discriminate He.
    + exists c'. vm_compute in Hc'. inversion Hc'; subst c'.
      eexists. split; [vm_compute; reflexivity|]. split; [reflexivity|].
      vm_compute. discriminate.
  - destruct (C1_truncated_buffer_outcomes amd64
                (of_bytes (two_credentials 4)) sample_cache 4
                (file_buffer (firstn 4 (two_credentials 4)))
                ltac:(vm_compute; reflexivity) ltac:(vm_compute; lia)
                ltac:(reflexivity))
      as (_ & [(c' & more & Hn' & _) |
               (_ & [HP | (_ & [(_ & He) | (c' & Hc' & _)])])]).
    + vm_compute in Hn'. discriminate Hn'.
    + vm_compute in HP. discriminate HP.
    + exact He.
    + vm_compute in Hc'. discriminate Hc'.
Defined.

(** C1 as stated fails: the truncations of the version 4 sample, which
    decodes to two credentials, never return an error.  Cut to one byte the
    decoder panics on [b[1]]; cut in the middle of the first credential it
    panics in a read; cut at the end of the default principal or of the first
    credential it returns a cache with no or one credential. *)
Lemma C1_truncations_do_not_return_errors :
  let b := of_bytes (two_credentials 4) in
  (exists c, ParseCCache amd64 b = Done (c, None) /\
             List.length (Credentials c) = 2%nat) /\
  List.length (elems b) = 352%nat /\
  ParseCCache amd64 (truncate 1 b) = Panic /\
  ParseCCache amd64 (truncate 100 b) = Panic /\
  (exists c, ParseCCache amd64 (truncate 47 b) = Done (c, None) /\
             Credentials c = []) /\
  (exists c, ParseCCache amd64 (truncate 192 b) = Done (c, None) /\
             List.length (Credentials c) = 1%nat).
Proof.
  cbv zeta. split; [eexists; split; [vm_compute; reflexivity | reflexivity]|].
  split; [reflexivity|]. split; [vm_compute; reflexivity|].
  split; [vm_compute; reflexivity|].
  split; eexists; (split; [vm_compute; reflexivity | reflexivity]).
Qed.

(** ** C2: the cache returned beside an error *)

(** C2, as amended.  Whenever [ParseCCache] returns an error, the cache
    returned with it holds nothing of the failed pass but the version byte:
    it has no credentials, the zero header, the zero default principal and
    the empty path.  Beside the magic byte error it is the zero cache;
    beside the two other errors its [Version] is the second byte of the
    buffer, a byte outside 1..4 beside the version error and 4 beside the
    header field error.  These three are the errors of the decoder. *)
Theorem C2_error_cache_holds_only_version h b c err :
  ParseCCache h b = Done (c, Some err) ->
  Credentials c = [] /\ Header c = header0 /\ DefaultPrincipal c = principal0 /\
  Path c = ""%string /\
  ((err = errMagic /\ c = CCache0 /\
    exists x rest, elems b = x :: rest /\ x <> x05) \/
   (exists vb rest, elems b = x05 :: vb :: rest /\
      c = set_Version CCache0 (byteZ vb) /\
      ((err = errVersion /\ (byteZ vb < 1 \/ 4 < byteZ vb)) \/
       (err = errHeaderField /\ byteZ vb = 4)))).
Proof.
  intros H. pose proof (ParseCCache_error_cases _ _ _ _ H) as Hc.
  assert (Hz : c = set_Version CCache0 (Version c)).
  { destruct Hc as [(_ & -> & _) | (vb & rest & _ & -> & _)]; reflexivity. }
  rewrite Hz. cbn [Credentials Header DefaultPrincipal Path set_Version CCache0].
  rewrite <- Hz. repeat split. exact Hc.
Qed.

Lemma C2_error_cache_holds_only_version_witness :
  exists vb rest,
    v4_short_field = x05 :: vb :: rest /\ byteZ vb = 4 /\
    ParseCCache amd64 (of_bytes v4_short_field)
    = Done (set_Version CCache0 4, Some errHeaderField).
Proof.
  destruct (C2_error_cache_holds_only_version amd64 (of_bytes v4_short_field)
              (set_Version CCache0 4) errHeaderField
              ltac:(vm_compute; reflexivity))
    as (_ & _ & _ & _ & [(He & _) | (vb & rest & Hb & _ & [(He & _) | (_ & Hv)])]).
  - vm_compute in He. discriminate He.
  - vm_compute in He. discriminate He.
  - exists vb, rest. split; [exact Hb|]. split; [exact Hv|].
    vm_compute. reflexivity.
Defined.

(** C2 as stated fails: the cache returned beside an error is not free of
    decoded state.  The version byte is stored before it is tested, so the
    buffer 05 07 00 returns, on every host, the version error beside a cache
    whose [Version] is 7, and a version 4 buffer with a header field of
    length 7 returns the header field error beside a cache whose [Version]
    is 4. *)
Lemma C2_version_is_returned_beside_the_error :
  (forall h, exists c,
     ParseCCache h (of_bytes [x05; x07; x00]) = Done (c, Some errVersion) /\
     Version c = 7 /\ c <> CCache0) /\
  (exists c,
     ParseCCache amd64 (of_bytes v4_short_field) = Done (c, Some errHeaderField) /\
     Version c = 4 /\ c <> CCache0).
Proof.
  split.
  - intros h. exists (set_Version CCache0 7). split; [| split].
    + apply (ParseCCache_version h (of_bytes [x05; x07; x00]) x07 [x00]);
        [reflexivity | right; vm_compute; reflexivity].
    + reflexivity.
    + discriminate.
  - exists (set_Version CCache0 4). split; [vm_compute; reflexivity|].
    split; [reflexivity | discriminate].
Qed.

(** ** C3: byte order *)

(** C3.  For a version byte [v] between 1 and 4 the byte order [e] the
    decoder reads with is big endian when [v] is 3 or 4 and the byte order
    of the host when [v] is 1 or 2.  Every 16 and 32 bit read in that order
    is the two's complement reading of the value of its byte span in that
    order.  The probe of the host answers "big endian" whenever the byte it
    looks at is neither [0x01] nor [0x78], and on every host its answer is
    the byte order of the host.  [ParseCCache] on a buffer with the magic
    byte and the version byte [v] hands the order [e] to the readers of the
    header, of the principals and of the credentials, and these read every
    integer field in the order they are handed: written as the 2 or 4 byte
    span whose value in that order is the field, every integer field of a
    header, of a principal and of a credential is read back, wherever the
    principal or the credential stands in a buffer; and [ParseCCache] reads
    back every field of a whole cache of version [v] that is written in the
    order [e], the header of version 4 included. *)
Theorem C3_byte_order h v b p :
  1 <= v <= 4 ->
  let e := byte_order h v in
  e = (if (v =? 3) || (v =? 4) then BigEndian else native_order h) /\
  (forall bs, subslice b p (p + 2) = Done bs ->
     read_int16 b e p = Done (signed 16 (span_value e bs), p + 2)) /\
  (forall bs, subslice b p (p + 4) = Done bs ->
     read_int32 b e p = Done (signed 32 (span_value e bs), p + 4)) /\
  (forall bp0, bp0 <> 0x01 -> Z.land bp0 0xff <> 0x78 -> probe bp0 = false) /\
  isNativeEndianLittle h = little_endian h /\
  (forall vb rest, elems b = x05 :: vb :: rest -> byteZ vb = v ->
     ParseCCache h b = ParseCCache_body h b v) /\
  (forall e' z, span_value e' (enc16 e' z) = z mod 2 ^ 16 /\
                span_value e' (enc32 e' z) = z mod 2 ^ 32) /\
  (forall e' c0 hd t, Version c0 = 4 -> wf_header hd ->
     (exists m vb suf, backing t = [m; vb] ++ enc_Header e' hd ++ suf) ->
     parse_header t c0 e' 2
     = Done ((set_Header c0 hd, None),
             2 + Z.of_nat (List.length (enc_Header e' hd)))) /\
  (forall e' c0 pr, Version c0 = v -> wf_principal v pr ->
     decodes (fun t => parse_principal h t c0 e') (enc_principal v e' pr) pr) /\
  (forall e' c0 cred first_kt, Version c0 = v -> wf_credential v cred ->
     int16_range first_kt ->
     decodes (fun t => parse_credential h t c0 e')
             (enc_credential v e' first_kt cred) (cred, None)) /\
  (forall c, wf_CCache c -> Version c = v -> elems b = enc_CCache e c ->
     ParseCCache h b = Done (c, None)).
Proof.
  intros Hv e.
  split; [| split; [| split; [| split; [| split; [| split; [| split;
    [| split; [| split; [| split]]]]]]]]].
  - assert (Hc : v = 1 \/ v = 2 \/ v = 3 \/ v = 4) by lia.
    destruct Hc as [-> | [-> | [-> | ->]]]; subst e; cbn [Z.eqb Pos.eqb orb];
      try reflexivity; apply byte_order_12; auto.
  - intros bs Hbs. apply read_int16_value. exact Hbs.
  - intros bs Hbs. apply read_int32_value. exact Hbs.
  - apply probe_default.
  - apply isNativeEndianLittle_correct.
  - intros vb rest Hb <-. eapply ParseCCache_unfold; eassumption.
  - intros e' z. split; [apply span_value_enc16 | apply span_value_enc32].
  - intros e' c0 hd t Hc0 Hhd Ht. apply parse_header_enc; assumption.
  - intros e' c0 pr <- Hpr. apply decodes_parse_principal. exact Hpr.
  - intros e' c0 cred first_kt <- Hcred Hkt.
    apply decodes_parse_credential; assumption.
  - intros c Hc <- Hb. apply ParseCCache_enc_CCache; assumption.
Qed.

Lemma C3_byte_order_witness :
  byte_order amd64 2 = LittleEndian /\
  read_int32 (of_bytes (enc_CCache LittleEndian v2_cache)) (byte_order amd64 2) 2
  = Done (1, 6) /\
  ParseCCache amd64 (of_bytes (enc_CCache LittleEndian v2_cache))
  = Done (v2_cache, None) /\
  ParseCCache s390x (of_bytes (enc_CCache LittleEndian v2_cache)) = Panic /\
  ParseCCache s390x (of_bytes (enc_CCache BigEndian v2_cache))
  = Done (v2_cache, None).
Proof.
  destruct (C3_byte_order amd64 2
              (of_bytes (enc_CCache LittleEndian v2_cache)) 2 ltac:(lia))
    as (He & _ & H32 & _ & _ & _ & _ & _ & _ & _ & Hrt).
  destruct (C3_byte_order s390x 2
              (of_bytes (enc_CCache BigEndian v2_cache)) 2 ltac:(lia))
    as (_ & _ & _ & _ & _ & _ & _ & _ & _ & _ & Hrt').
  split; [exact He|].
  split; [exact (H32 [x01; x00; x00; x00] eq_refl)|].
  split; [exact (Hrt v2_cache v2_cache_wf eq_refl eq_refl)|].
  split; [vm_compute; reflexivity|].
  exact (Hrt' v2_cache v2_cache_wf eq_refl eq_refl).
Defined.

(** ** C4: principals by version *)

(** C4.  [parse_principal] reads the name type only when the version is not
    1: for version 1 the name type stays 0 and the count is the first field,
    and the number of components read is that count less one; for the other
    versions the name type is the first field, the count the second, and the
    number of components read is the count itself.  Realm and components
    follow in both cases.  So every principal the format can hold is
    decoded from what its version writes, which for version 1 is no name
    type and a count one above the number of components.  On every host the
    version 1 buffer, in the byte order of the host, with the count 2, the
    realm "TEST" and the component "host" decodes to the realm "TEST" and
    the one component "host". *)
Theorem C4_principal_by_version h b c e p pr p' :
  parse_principal h b c e p = Done (pr, p') ->
  let v1 := Version c =? 1 in
  let q := if v1 then p else p + 4 in
  (if v1 then NameType (PrincipalName pr) = 0
   else read_int32 b e p = Done (NameType (PrincipalName pr), p + 4)) /\
  (exists n lr realm,
     read_int32 b e q = Done (n, q + 4) /\
     List.length (NameString (PrincipalName pr))
     = Z.to_nat (if v1 then to_int h (n - 1) else n) /\
     (int_size h = Int64 \/ n <> - 2 ^ 31 -> to_int h (n - 1) = n - 1) /\
     read_int32 b e (q + 4) = Done (lr, q + 8) /\
     read_Bytes b lr e (q + 8) = Done (realm, q + 8 + lr) /\
     Realm pr = string_of_list_byte realm /\
     times (List.length (NameString (PrincipalName pr))) (read_component b e)
           (q + 8 + lr)
     = Done (NameString (PrincipalName pr), p')) /\
  (forall pr0, wf_principal (Version c) pr0 ->
     decodes (fun b0 => parse_principal h b0 c e)
             (enc_principal (Version c) e pr0) pr0) /\
  (forall h',
     ParseCCache h' (of_bytes (v1_host (native_order h')))
     = Done (mkCCache 1 header0
               (mkPrincipal "TEST" (mkPrincipalName 0 ["host"%string])) [] "",
             None)).
Proof.
  intros H v1 q. unfold parse_principal in H. fold v1 in H.
  apply bind_Done in H. destruct H as (nt & p1 & Hnt & H).
  apply bind_Done in H. destruct H as (n & p2 & Hn & H).
  apply bind_Done in H. destruct H as (lr & p3 & Hlr & H).
  apply bind_Done in H. destruct H as (realm & p4 & Hrealm & H).
  apply bind_Done in H. destruct H as (names & p5 & Hnames & H).
  apply ret_Done in H. inversion H; subst pr p'; clear H.
  cbn [NameType NameString PrincipalName Realm].
  assert (Hq : p1 = q /\
               (if v1 then nt = 0 else read_int32 b e p = Done (nt, p + 4))).
  { subst q. destruct v1; cbn [negb] in Hnt.
    - apply ret_Done in Hnt. inversion Hnt. auto.
    - pose proof Hnt as Hnt'. apply read_int32_Done in Hnt'.
      destruct Hnt' as (? & _ & _ & ->). auto. }
  destruct Hq as (-> & Hnt').
  pose proof Hn as Hn'. apply read_int32_Done in Hn'.
  destruct Hn' as (bufn & _ & Hnv & ->).
  pose proof Hlr as Hlr'. apply read_int32_Done in Hlr'.
  destruct Hlr' as (? & _ & _ & ->).
  pose proof Hrealm as Hrealm'. apply read_Bytes_Done in Hrealm'.
  destruct Hrealm' as (_ & -> & _).
  replace (q + 4 + 4) with (q + 8) in * by lia.
  pose proof (times_length _ _ _ _ _ Hnames) as Hlen.
  split; [exact Hnt' | split; [| split]].
  - exists n, lr, realm. rewrite Hlen.
    repeat split; try assumption; try reflexivity.
    intros Hh. apply to_int_decrement; [| exact Hh].
    rewrite Hnv. apply to_int32_range.
  - intros pr0. apply decodes_parse_principal.
  - intros [[|] [|]]; vm_compute; reflexivity.
Qed.

Lemma C4_principal_by_version_witness :
  NameType (PrincipalName host_principal) = 0 /\
  exists n,
    read_int32 (of_bytes (v1_host LittleEndian)) LittleEndian 2 = Done (n, 6) /\
    List.length (NameString (PrincipalName host_principal))
    = Z.to_nat (to_int amd64 (n - 1)).
Proof.
  destruct (C4_principal_by_version amd64 (of_bytes (v1_host LittleEndian))
              (set_Version CCache0 1) LittleEndian 2 host_principal 22
              ltac:(vm_compute; reflexivity))
    as (Hnt & (n & lr & realm & Hn & Hlen & _) & _).
  split; [exact Hnt|]. exists n. split; [exact Hn | exact Hlen].
Defined.

(** ** C5: the key type by version *)

(** C5.  After the two principals, [parse_credential] reads one 16 bit key
    type; in version 3 it reads a second one right behind it, and that second
    value is the key type of the credential; in every other version the one
    value read is the key type.  The key value follows: at 4 bytes behind
    the principals in version 3, at 2 bytes in the other versions.  So
    every credential the format can hold is decoded from what its version
    writes, which for version 3 is any first key type followed by the key
    type of the credential, and for the other versions the key type once.
    In the version 3 sample the two occurrences are 17 and 18, and both
    credentials are decoded with the key type 18. *)
Theorem C5_key_type_by_version h b c e p cred err p' :
  parse_credential h b c e p = Done ((cred, err), p') ->
  (exists q0 q,
     parse_principal h b c e p = Done (Client cred, q0) /\
     parse_principal h b c e q0 = Done (Server cred, q) /\
     if Version c =? 3 then
       (exists first_kt, read_int16 b e q = Done (first_kt, q + 2)) /\
       read_int16 b e (q + 2) = Done (KeyType (Key cred), q + 4) /\
       exists q', read_data b e (q + 4) = Done (KeyValue (Key cred), q')
     else
       read_int16 b e q = Done (KeyType (Key cred), q + 2) /\
       exists q', read_data b e (q + 2) = Done (KeyValue (Key cred), q')) /\
  (forall first_kt cred0,
     wf_credential (Version c) cred0 -> int16_range first_kt ->
     decodes (fun b0 => parse_credential h b0 c e)
             (enc_credential (Version c) e first_kt cred0) (cred0, None)) /\
  (exists c3,
     ParseCCache amd64 (of_bytes (two_credentials 3)) = Done (c3, None) /\
     map (fun cr => KeyType (Key cr)) (Credentials c3) = [18; 18]).
Proof.
  intros H. split; [| split].
  - unfold parse_credential in H.
    apply bind_Done in H. destruct H as (client & q0 & Hclient & H).
    apply bind_Done in H. destruct H as (server & q & Hserver & H).
    apply bind_Done in H. destruct H as (kt1 & q1 & Hkt1 & H).
    apply bind_Done in H. destruct H as (kt & q2 & Hkt & H).
    apply bind_Done in H. destruct H as (kv & q3 & Hkv & H).
    repeat (let Hx := fresh "Hx" in
            apply bind_Done in H; destruct H as (? & ? & Hx & H); clear Hx).
    apply ret_Done in H. inversion H; subst cred err p'; clear H.
    cbn [Client Server Key KeyType KeyValue].
    exists q0, q. split; [exact Hclient | split; [exact Hserver|]].
    pose proof Hkt1 as Hkt1'. apply read_int16_Done in Hkt1'.
    destruct Hkt1' as (? & _ & _ & ->).
    destruct (Version c =? 3).
    + pose proof Hkt as Hkt'. apply read_int16_Done in Hkt'.
      destruct Hkt' as (? & _ & _ & ->).
      replace (q + 2 + 2) with (q + 4) in * by lia.
      split; [exists kt1; exact Hkt1 | split; [exact Hkt | exists q3; exact Hkv]].
    + apply ret_Done in Hkt. inversion Hkt; subst kt q2.
      split; [exact Hkt1 | exists q3; exact Hkv].
  - intros first_kt cred0. apply decodes_parse_credential.
  - eexists. split; [vm_compute; reflexivity | reflexivity].
Qed.

Lemma C5_key_type_by_version_witness :
  exists q,
    (exists first_kt,
       read_int16 (of_bytes (two_credentials 3)) BigEndian q
       = Done (first_kt, q + 2)) /\
    read_int16 (of_bytes (two_credentials 3)) BigEndian (q + 2)
    = Done (18, q + 4).
Proof.
  destruct (C5_key_type_by_version amd64 (of_bytes (two_credentials 3))
              (set_Version CCache0 3) BigEndian 33
              (sample_credential krbtgt_principal) None 180
              ltac:(vm_compute; reflexivity))
    as ((q0 & q & _ & _ & Hkt) & _).
  exists q. cbv beta iota zeta delta [Version set_Version Z.eqb Pos.eqb] in Hkt.
  destruct Hkt as (H1 & H2 & _). split; [exact H1 | exact H2].
Defined.

(** ** C6: the bound of the header loop *)

(** C6.  The loop of [parse_header] goes on while the offset is at most the
    declared length.  Standing exactly on the declared length, with the
    fields read so far, it reads one more field, and stops only behind it.
    A version 4 buffer that declares the length 16, the offset at which its
    first field ends, is decoded with both of the fields that follow the
    length; when only one field follows, the bytes of the default principal
    are read as a second field and the decoder returns the header field
    error. *)
Theorem C6_non_strict_bound fuel b e h_len fields f p' :
  read_headerField b e h_len = Done (f, p') ->
  valid f = true ->
  header_fields (S (S fuel)) b e h_len fields h_len
  = Done ((fields ++ [f], None), p') /\
  h_len < p' /\
  (forall p, h_len < p ->
     header_fields (S fuel) b e h_len fields p = Done ((fields, None), p)) /\
  (exists c, ParseCCache amd64 (of_bytes v4_two_fields) = Done (c, None) /\
     h_length (Header c) = 16 /\ List.length (h_fields (Header c)) = 2%nat) /\
  ParseCCache amd64 (of_bytes v4_one_field_16)
  = Done (set_Version CCache0 4, Some errHeaderField).
Proof.
  intros Hf Hv.
  assert (Hlt : h_len < p') by (apply advances_read_headerField in Hf; lia).
  split; [| split; [exact Hlt | split; [| split]]].
  - rewrite header_fields_step by lia. rewrite Hf, Hv. cbn [negb].
    apply header_fields_stop. exact Hlt.
  - intros p Hp. apply header_fields_stop. exact Hp.
  - eexists. split; [vm_compute; reflexivity | split; reflexivity].
  - vm_compute. reflexivity.
Qed.

Lemma C6_non_strict_bound_witness :
  header_fields 2 (of_bytes v4_two_fields) BigEndian 16 [] 16
  = Done (([mkHeaderField 1 8 (repeat x00 8)], None), 28).
Proof.
  destruct (C6_non_strict_bound 0 (of_bytes v4_two_fields) BigEndian 16 []
              (mkHeaderField 1 8 (repeat x00 8)) 28
              ltac:(vm_compute; reflexivity) eq_refl) as (H & _).
  exact H.
Defined.

(** ** C7: validity of a header field *)

(** C7.  A header field is valid exactly when its tag is 1 and its length
    and the length of its value are 8.  When the loop of [parse_header]
    reads a field that is not, it leaves with the error "Invalid credential
    cache header found"; [parse_header] on a version 4 cache either succeeds
    with valid fields only, or returns this error and leaves the cache as it
    was; and [ParseCCache] returns this error for the buffer whose one header
    field has the length 7. *)
Theorem C7_header_field_validity fuel b e h_len fields p f p' :
  p <= h_len ->
  read_headerField b e p = Done (f, p') ->
  (valid f = true <->
   f_tag f = 1 /\ f_length f = 8 /\ List.length (f_value f) = 8%nat) /\
  (~ (f_tag f = 1 /\ f_length f = 8) ->
   header_fields (S fuel) b e h_len fields p
   = Done ((fields, Some errHeaderField), p')) /\
  (forall c q c' err q',
     Version c = 4 -> parse_header b c e q = Done ((c', err), q') ->
     (err = None /\
      Forall (fun f => f_tag f = 1 /\ f_length f = 8 /\
                       List.length (f_value f) = 8%nat) (h_fields (Header c')))
     \/ (err = Some errHeaderField /\ c' = c)) /\
  ParseCCache amd64 (of_bytes v4_short_field)
  = Done (set_Version CCache0 4, Some errHeaderField).
Proof.
  intros Hp Hf. split; [apply valid_iff | split; [| split]].
  - intros Hn. rewrite header_fields_step by exact Hp. rewrite Hf.
    destruct (valid f) eqn:Hv; [| reflexivity].
    apply valid_iff in Hv. exfalso. apply Hn. tauto.
  - intros c q c' err q' Hc H.
    destruct err as [err|].
    + right. apply parse_header_error in H.
      destruct H as (-> & [(Hne & _) | ->]); [contradiction | auto].
    + left. split; [reflexivity|]. unfold parse_header in H.
      rewrite Hc in H. cbn [Z.eqb Pos.eqb negb] in H.
      inv_bind H. inv_bind H. destruct a0 as [fs er].
      apply header_fields_Done in Hr0.
      destruct Hr0 as (added & -> & Hall & _ & _).
      destruct er; cbn in H; apply ret_Done in H; inversion H; subst.
      cbn. eapply Forall_impl; [| exact Hall].
      intros x Hx. apply valid_iff. exact Hx.
  - vm_compute. reflexivity.
Qed.

Lemma C7_header_field_validity_witness :
  header_fields 1 (of_bytes v4_short_field) BigEndian 12 [] 4
  = Done (([], Some errHeaderField), 15).
Proof.
  destruct (C7_header_field_validity 0 (of_bytes v4_short_field) BigEndian 12 []
              4 (mkHeaderField 1 7 (repeat x00 7)) 15 ltac:(lia)
              ltac:(vm_compute; reflexivity)) as (_ & H & _).
  apply H. cbn. intros (_ & H8). discriminate H8.
Defined.

(** ** C8: the magic byte *)

(** C8, as amended.  For every buffer that is not empty and whose first
    byte is not 5, [ParseCCache] returns the error "First byte does not equal
    5" together with the zero cache, whatever the rest of the buffer and its
    length are, a buffer of this one byte included. *)
Theorem C8_first_byte_not_5 h b x rest :
  elems b = x :: rest -> x <> x05 ->
  ParseCCache h b = Done (CCache0, Some errMagic).
Proof. apply ParseCCache_magic. Qed.

Lemma C8_first_byte_not_5_witness :
  ParseCCache amd64 (of_bytes [x04]) = Done (CCache0, Some errMagic).
Proof.
  apply (C8_first_byte_not_5 amd64 (of_bytes [x04]) x04 []).
  - reflexivity.
  - discriminate.
Defined.

(** C8 as stated fails on the buffer of length zero: it has no first byte,
    [b[0]] is out of range and [ParseCCache] panics instead of returning an
    error. *)
Lemma C8_empty_buffer_panics :
  hd_error (elems (of_bytes [])) <> Some x05 /\
  ParseCCache amd64 (of_bytes []) = Panic /\
  ~ (exists c, ParseCCache amd64 (of_bytes []) = Done (c, Some errMagic)).
Proof.
  split; [discriminate|]. split; [reflexivity|].
  intros (c & H). discriminate H.
Qed.

(** ** C9: the queries *)

(** C9.  [GetEntries] returns the credentials of the cache whose server
    realm does not start with "X-CACHECONF", all of them and in the order of
    the cache; none of its results is a configuration entry.  [Contains] and
    [GetEntry] look at every credential of the cache, configuration entries
    included: [Contains] holds as soon as some credential has the server
    name asked for, and [GetEntry] returns the first of them. *)
Theorem C9_entries_filter_configuration
    (Equal : PrincipalName_t -> PrincipalName_t -> bool) (c : CCache) :
  GetEntries c = filter (fun cred => negb (is_config cred)) (Credentials c) /\
  (forall cred, In cred (GetEntries c) ->
     In cred (Credentials c) /\
     ~ exists rest, Realm (Server cred) = ("X-CACHECONF" ++ rest)%string) /\
  (forall p,
     Contains Equal c p
     = existsb (fun cred => Equal (PrincipalName (Server cred)) p) (Credentials c)) /\
  (forall p,
     GetEntry Equal c p
     = match find (fun cred => Equal (PrincipalName (Server cred)) p)
                  (Credentials c) with
       | Some cred => (cred, true)
       | None => (credential0, false)
       end) /\
  (forall cred p,
     In cred (Credentials c) -> is_config cred = true ->
     Equal (PrincipalName (Server cred)) p = true ->
     Contains Equal c p = true /\ snd (GetEntry Equal c p) = true /\
     ~ In cred (GetEntries c)).
Proof.
  assert (HE : GetEntries c
               = filter (fun cred => negb (is_config cred)) (Credentials c)).
  { unfold GetEntries. rewrite GetEntries_loop_filter. reflexivity. }
  split; [exact HE | split; [| split; [| split]]].
  - intros cred Hin. rewrite HE in Hin. apply filter_In in Hin.
    destruct Hin as (Hin & Hc). split; [exact Hin|].
    intros Hex. apply HasPrefix_spec in Hex. unfold is_config in Hc.
    rewrite Hex in Hc. discriminate Hc.
  - intros p. apply Contains_loop_existsb.
  - intros p. apply GetEntry_loop_find.
  - intros cred p Hin Hconf Heq. split; [| split].
    + unfold Contains. rewrite Contains_loop_existsb. apply existsb_exists.
      exists cred. split; assumption.
    + unfold GetEntry. rewrite GetEntry_loop_find.
      destruct (find _ (Credentials c)) as [cred'|] eqn:Ef; [reflexivity|].
      exfalso. apply (find_none _ _ Ef) in Hin. cbv beta in Hin. congruence.
    + rewrite HE. intros Hf. apply filter_In in Hf. destruct Hf as (_ & Hf).
      rewrite Hconf in Hf. discriminate Hf.
Qed.

Lemma C9_entries_filter_configuration_witness :
  exists c, ParseCCache amd64 (of_bytes (two_credentials 4)) = Done (c, None) /\
    Credentials c = [sample_credential krbtgt_principal;
                     sample_credential conf_principal] /\
    GetEntries c = [sample_credential krbtgt_principal] /\
    Contains same_name c (PrincipalName conf_principal) = true /\
    snd (GetEntry same_name c (PrincipalName conf_principal)) = true /\
    ~ In (sample_credential conf_principal) (GetEntries c).
Proof.
  eexists. split; [vm_compute; reflexivity|].
  split; [reflexivity|]. split; [vm_compute; reflexivity|].
  match goal with
  | |- Contains _ ?c _ = _ /\ _ =>
      destruct (C9_entries_filter_configuration same_name c)
        as (_ & _ & _ & _ & H)
  end.
  apply (H (sample_credential conf_principal) (PrincipalName conf_principal)).
  - right. left. reflexivity.
  - reflexivity.
  - reflexivity.
Defined.

(** ** C10: a declared header length below 4 *)

(** C10.  [ParseCCache] calls [parse_header] at offset 2, the length field
    ends at offset 4, and the loop compares that offset, counted from the
    start of the buffer, with the declared length.  So for every version 4
    buffer the header decodes with no field exactly when the declared length
    is below 4; the decoder then goes on with the default principal at
    offset 4, and a cache it returns has the declared length and no header
    field. *)
Theorem C10_declared_length_below_4 h b rest l :
  elems b = x05 :: x04 :: rest ->
  read_int16 b BigEndian 2 = Done (l, 4) ->
  let c4 := set_Version CCache0 4 in
  let c4' := set_Header c4 (mkHeader (to_uint16 l) []) in
  (to_uint16 l < 4 <->
   exists c' q, parse_header b c4 BigEndian 2 = Done ((c', None), q) /\
                h_fields (Header c') = []) /\
  (to_uint16 l < 4 ->
   parse_header b c4 BigEndian 2 = Done ((c4', None), 4) /\
   ParseCCache h b = ParseCCache_tail h b c4' BigEndian 4 /\
   forall c err, ParseCCache h b = Done (c, err) ->
                 err = None /\ Header c = mkHeader (to_uint16 l) []).
Proof.
  intros Hb Hl c4 c4'.
  pose proof (to_uint16_range l) as Hr.
  assert (Heq := parse_header_eq b c4 BigEndian 2 l eq_refl Hl).
  change (2 + 2) with 4 in Heq.
  assert (Hlow : to_uint16 l < 4 ->
                 parse_header b c4 BigEndian 2 = Done ((c4', None), 4)).
  { intros Hlt. rewrite Heq.
    destruct (Z.to_nat (to_uint16 l + 2)) as [|fuel] eqn:Ef; [lia|].
    rewrite header_fields_stop by exact Hlt. reflexivity. }
  split; [split|].
  - intros Hlt. exists c4', 4. split; [apply Hlow; exact Hlt | reflexivity].
  - intros (c' & q & Hp & Hf). rewrite Heq in Hp.
    destruct (header_fields _ b BigEndian _ [] 4) as [[[fields err] q']| |] eqn:E;
      try discriminate.
    apply header_fields_Done in E. destruct E as (added & -> & _ & _ & Hn).
    destruct err; [discriminate|]. inversion Hp; subst. cbn in Hf.
    destruct (Hn eq_refl) as (_ & Hne).
    destruct (Z_lt_dec (to_uint16 l) 4); [assumption|].
    exfalso. apply Hne; [lia | exact Hf].
  - intros Hlt. split; [apply Hlow; exact Hlt|].
    assert (Hp : ParseCCache h b = ParseCCache_tail h b c4' BigEndian 4).
    { rewrite (ParseCCache_unfold h b x04 rest Hb) by (vm_compute; split; discriminate).
      unfold ParseCCache_body. change (byteZ x04) with 4.
      cbn [Z.eqb Pos.eqb]. change (byte_order h 4) with BigEndian.
      fold c4. rewrite (Hlow Hlt). reflexivity. }
    split; [exact Hp|].
    intros c err Hc. rewrite Hp in Hc. unfold ParseCCache_tail in Hc.
    destruct (parse_principal h b c4' BigEndian 4) as [[princ q]| |];
      try discriminate.
    apply read_credentials_Done in Hc. destruct Hc as (-> & _ & Hh & _).
    split; [reflexivity | exact Hh].
Qed.

Lemma C10_declared_length_below_4_witness :
  ParseCCache amd64 (of_bytes v4_no_field)
  = Done (mkCCache 4 (mkHeader 0 []) user_principal [] "", None) /\
  Header (mkCCache 4 (mkHeader 0 []) user_principal [] "") = mkHeader 0 [].
Proof.
  destruct (C10_declared_length_below_4 amd64 (of_bytes v4_no_field)
              (skipn 2 v4_no_field) 0 eq_refl eq_refl) as (_ & H).
  destruct (H ltac:(vm_compute; reflexivity)) as (_ & _ & Hc).
  assert (E : ParseCCache amd64 (of_bytes v4_no_field)
              = Done (mkCCache 4 (mkHeader 0 []) user_principal [] "", None))
    by (vm_compute; reflexivity).
  split; [exact E|].
  exact (proj2 (Hc _ _ E)).
Defined.

(** * Properties beyond the claims *)

Example sample_cache_wf : wf_CCache sample_cache.
Proof.
  unfold wf_CCache, wf_header, sample_cache. cbn -[Z.pow wf_credential].
  split; [lia|]. split.
  - split; [repeat constructor | lia].
  - split; [| split; [| reflexivity]].
    + unfold wf_principal, int32_range, short. cbn -[Z.pow].
      repeat match goal with
             | |- _ /\ _ => split
             | |- Forall _ _ => constructor
             | |- _ -> _ => intros ?
             end; try discriminate; try reflexivity; lia.
    + unfold wf_credential, wf_principal, int16_range, int32_range, short.
      cbn -[Z.pow].
      repeat match goal with
             | |- _ /\ _ => split
             | |- Forall _ _ => constructor
             | |- _ -> _ => intros ?
             end; try discriminate; try reflexivity; lia.
Qed.

(** X1.  For every buffer whose first byte is 5 and whose second byte is
    not a version from 1 to 4, [ParseCCache] returns the error "Keytab
    version is not within 1 to 4", whatever follows; the cache returned with
    it holds that byte as its version and nothing else. *)
Theorem X1_unsupported_version h b v rest :
  elems b = x05 :: v :: rest -> byteZ v < 1 \/ 4 < byteZ v ->
  ParseCCache h b = Done (set_Version CCache0 (byteZ v), Some errVersion).
Proof. apply ParseCCache_version. Qed.

Lemma X1_unsupported_version_witness :
  ParseCCache amd64 (of_bytes [x05; x07; x00])
  = Done (set_Version CCache0 7, Some errVersion).
Proof.
  apply (X1_unsupported_version amd64 (of_bytes [x05; x07; x00]) x07 [x00]).
  - reflexivity.
  - right. reflexivity.
Defined.

(** X2.  On a buffer of fewer than two bytes [ParseCCache] panics, unless
    its one byte is not 5: the empty buffer has no [b[0]], and the buffer that
    ends behind the magic byte has no [b[1]]. *)
Theorem X2_short_buffer_panics h b :
  (List.length (elems b) < 2)%nat ->
  (forall x, hd_error (elems b) = Some x -> x = x05) ->
  ParseCCache h b = Panic.
Proof. apply ParseCCache_short_buffer. Qed.

Lemma X2_short_buffer_panics_witness :
  ParseCCache amd64 (of_bytes [x05]) = Panic.
Proof.
  apply (X2_short_buffer_panics amd64 (of_bytes [x05])).
  - cbn. lia.
  - intros x H. injection H as <-. reflexivity.
Defined.

(** X3.  [ParseCCache] ends on every buffer, on every host: it returns a
    cache, with or without an error, or it panics.  The two loops end
    because each of their passes moves the offset forward. *)
Theorem X3_returns_or_panics h b :
  ParseCCache h b = Panic \/ exists c err, ParseCCache h b = Done (c, err).
Proof.
  pose proof (ParseCCache_terminates h b) as H.
  destruct (ParseCCache h b) as [[c err]| |]; [right; eauto | left; reflexivity |].
  exfalso. apply H. reflexivity.
Qed.

(** X4.  A credential takes at least 59 bytes and the bytes before the
    first one at least 10: a buffer that decodes without error to [k]
    credentials has a capacity of at least [59 k + 10] bytes. *)
Theorem X4_credentials_bounded_by_size h b c :
  ParseCCache h b = Done (c, None) ->
  59 * Z.of_nat (List.length (Credentials c)) + 10 <= cap b.
Proof. apply ParseCCache_size. Qed.

Lemma X4_credentials_bounded_by_size_witness :
  59 * Z.of_nat (List.length (Credentials sample_cache)) + 10
  <= cap (of_bytes (two_credentials 4)).
Proof.
  apply (X4_credentials_bounded_by_size amd64 (of_bytes (two_credentials 4))
           sample_cache).
  vm_compute. reflexivity.
Defined.

(** X5.  Decoding undoes encoding: for every cache the format can hold, on
    every host, [ParseCCache] on the bytes its version writes for it, in the
    byte order of that version on the host, returns the cache and no error,
    whatever the capacity behind those bytes holds. *)
Theorem X5_decode_of_encode h b c :
  wf_CCache c ->
  elems b = enc_CCache (byte_order h (Version c)) c ->
  ParseCCache h b = Done (c, None).
Proof. apply ParseCCache_enc_CCache. Qed.

Lemma X5_decode_of_encode_witness :
  ParseCCache mips (of_bytes (enc_CCache BigEndian sample_cache))
  = Done (sample_cache, None).
Proof.
  apply (X5_decode_of_encode mips (of_bytes (enc_CCache BigEndian sample_cache))
           sample_cache sample_cache_wf).
  reflexivity.
Defined.

(** X6.  What [ParseCCache] returns without error, from a buffer below
    4 GiB, is a cache the format can hold: its version is the second byte of
    the buffer, from 1 to 4; its header is the zero header unless the version
    is 4 and then has valid fields only, as many as its declared length
    asks for; every integer field of its principals and credentials is in
    the range of its width and every count and length below [2^31]; its
    path is empty. *)
Theorem X6_decoded_cache_well_formed h b c :
  cap b < 2 ^ 32 ->
  ParseCCache h b = Done (c, None) ->
  wf_CCache c /\
  exists vb rest, elems b = x05 :: vb :: rest /\ Version c = byteZ vb.
Proof. apply ParseCCache_wf. Qed.

Lemma X6_decoded_cache_well_formed_witness :
  wf_CCache sample_cache /\
  exists vb rest, elems (of_bytes (two_credentials 4)) = x05 :: vb :: rest /\
                  Version sample_cache = byteZ vb.
Proof.
  apply (X6_decoded_cache_well_formed amd64 (of_bytes (two_credentials 4))
           sample_cache).
  - vm_compute. reflexivity.
  - vm_compute. reflexivity.
Defined.

(** X7.  A cache decoded without error from a buffer below 4 GiB can be
    written and read again: decoding the bytes its version writes for it
    returns the same cache. *)
Theorem X7_decode_encode_decode h b c :
  cap b < 2 ^ 32 ->
  ParseCCache h b = Done (c, None) ->
  ParseCCache h (of_bytes (enc_CCache (byte_order h (Version c)) c))
  = Done (c, None).
Proof.
  intros Hcap H. destruct (ParseCCache_wf h b c Hcap H) as (Hw & _).
  apply ParseCCache_enc_CCache; [exact Hw | reflexivity].
Qed.

Lemma X7_decode_encode_decode_witness :
  exists c,
    ParseCCache amd64 (of_bytes (two_credentials 3)) = Done (c, None) /\
    ParseCCache amd64 (of_bytes (enc_CCache BigEndian c)) = Done (c, None) /\
    enc_CCache BigEndian c <> two_credentials 3.
Proof.
  eexists. split; [vm_compute; reflexivity|]. split.
  - match goal with
    | |- ParseCCache _ (of_bytes (enc_CCache _ ?c)) = _ =>
        apply (X7_decode_encode_decode amd64 (of_bytes (two_credentials 3)) c)
    end.
    + vm_compute. reflexivity.
    + vm_compute. reflexivity.
  - vm_compute. discriminate.
Defined.

(** X8.  The number of header fields [parse_header] returns is fixed by
    the declared length [L] alone: it is [(L + 8) / 12], that is none below 4,
    one from 4 to 15, two from 16 to 27, and so on; the header ends at the
    offset [4 + 12 k] and each field has the tag 1 and 8 bytes. *)
Theorem X8_header_field_count b c e c' q :
  Version c = 4 -> parse_header b c e 2 = Done ((c', None), q) ->
  let L := h_length (Header c') in
  let k := Z.of_nat (List.length (h_fields (Header c'))) in
  0 <= L < 65536 /\ k = (L + 8) / 12 /\ q = 4 + 12 * k /\
  Forall (fun f => f_tag f = 1 /\ f_length f = 8 /\
                   List.length (f_value f) = 8%nat) (h_fields (Header c')).
Proof. apply parse_header_field_count. Qed.

Lemma X8_header_field_count_witness :
  exists c' q,
    parse_header (of_bytes v4_two_fields) (set_Version CCache0 4) BigEndian 2
    = Done ((c', None), q) /\
    h_length (Header c') = 16 /\
    Z.of_nat (List.length (h_fields (Header c'))) = (16 + 8) / 12 /\
    q = 28.
Proof.
  eexists. eexists. split; [vm_compute; reflexivity|].
  match goal with
  | |- h_length (Header ?c') = _ /\ _ =>
      destruct (X8_header_field_count (of_bytes v4_two_fields)
                  (set_Version CCache0 4) BigEndian c' 28 eq_refl
                  ltac:(vm_compute; reflexivity)) as (_ & Hk & Hq & _)
  end.
  split; [reflexivity|]. split; [exact Hk | reflexivity].
Defined.

(** X9.  The result of [ParseCCache] on a buffer whose version byte is not
    1 does not depend on the width of the host's [int], and depends on the
    byte order of the host for version 2 only: files of versions 3 and 4
    decode alike on every host. *)
Theorem X9_host_independent h h' b vb rest :
  elems b = x05 :: vb :: rest ->
  byteZ vb <> 1 ->
  (byteZ vb = 2 -> little_endian h = little_endian h') ->
  ParseCCache h b = ParseCCache h' b.
Proof. apply ParseCCache_host_independent. Qed.

Lemma X9_host_independent_witness :
  ParseCCache amd64 (of_bytes (two_credentials 3))
  = ParseCCache mips (of_bytes (two_credentials 3)).
Proof.
  apply (X9_host_independent amd64 mips (of_bytes (two_credentials 3)) x03
           (skipn 2 (two_credentials 3))).
  - vm_compute. reflexivity.
  - intros H. vm_compute in H. discriminate H.
  - intros H. vm_compute in H. discriminate H.
Defined.

(** X10.  The readers check their reads against the capacity of the
    buffer, not its length: on the slice [b[:n]] (with [n] at least 2) of a
    buffer that decodes without error, [ParseCCache] does not panic.  It
    reads on behind the length of the slice where a record crosses it, and
    returns the same version, header and default principal with a prefix of
    the credentials. *)
Theorem X10_prefix_slice_never_panics h b c n :
  ParseCCache h b = Done (c, None) ->
  (2 <= n <= List.length (elems b))%nat ->
  exists c' more,
    ParseCCache h (reslice n b) = Done (c', None) /\
    Version c = Version c' /\ Header c = Header c' /\
    DefaultPrincipal c = DefaultPrincipal c' /\ Path c = Path c' /\
    Credentials c = Credentials c' ++ more.
Proof. apply ParseCCache_reslice. Qed.

Lemma X10_prefix_slice_never_panics_witness :
  exists c' more,
    ParseCCache amd64 (reslice 100 (of_bytes (two_credentials 4)))
    = Done (c', None) /\
    Version sample_cache = Version c' /\ Header sample_cache = Header c' /\
    DefaultPrincipal sample_cache = DefaultPrincipal c' /\
    Path sample_cache = Path c' /\
    Credentials sample_cache = Credentials c' ++ more.
Proof.
  apply (X10_prefix_slice_never_panics amd64 (of_bytes (two_credentials 4))
           sample_cache 100).
  - vm_compute. reflexivity.
  - vm_compute. lia.
Defined.

(** X11.  What [ParseCCache] returns on a buffer whose capacity is its
    length, it returns on every buffer with the same elements and a larger
    capacity: the bytes behind the length do not change a decoding that
    ends. *)
Theorem X11_extra_capacity_irrelevant h l extra r :
  ParseCCache h (of_bytes l) = Done r ->
  ParseCCache h (mkSlice l extra) = Done r.
Proof. apply ParseCCache_spare_irrelevant. Qed.

Lemma X11_extra_capacity_irrelevant_witness :
  ParseCCache amd64 (mkSlice (two_credentials 4) (repeat xff 512))
  = Done (sample_cache, None).
Proof.
  apply (X11_extra_capacity_irrelevant amd64 (two_credentials 4) (repeat xff 512)).
  vm_compute. reflexivity.
Defined.



(** X13.  [Contains] and [GetEntry] agree: [Contains] is the flag
    [GetEntry] returns.  When the flag is set the credential returned is one
    of the cache and its server name equals the name asked for; when it is
    not, the credential returned is the zero credential, its four times the
    zero [time.Time] and not the epoch, and no credential of the cache has
    that server name. *)
Theorem X13_Contains_GetEntry
    (Equal : PrincipalName_t -> PrincipalName_t -> bool) c p :
  Contains Equal c p = snd (GetEntry Equal c p) /\
  (snd (GetEntry Equal c p) = true ->
   In (fst (GetEntry Equal c p)) (Credentials c) /\
   Equal (PrincipalName (Server (fst (GetEntry Equal c p)))) p = true) /\
  (snd (GetEntry Equal c p) = false ->
   fst (GetEntry Equal c p) = credential0 /\
   forall cred, In cred (Credentials c) ->
                Equal (PrincipalName (Server cred)) p = false).
Proof. apply Contains_GetEntry. Qed.

Lemma X13_Contains_GetEntry_witness :
  Contains same_name sample_cache (PrincipalName host_principal) = false /\
  fst (GetEntry same_name sample_cache (PrincipalName host_principal))
  = credential0 /\
  AuthTime (fst (GetEntry same_name sample_cache (PrincipalName host_principal)))
  = -62135596800.
Proof.
  destruct (X13_Contains_GetEntry same_name sample_cache
              (PrincipalName host_principal)) as (H1 & _ & H3).
  split; [rewrite H1; reflexivity|].
  destruct (H3 eq_refl) as (H0 & _).
  split; [exact H0 | rewrite H0; reflexivity].
Defined.

(** X14.  [GetEntries] filters once and for all: applied to a cache that
    holds its own result it returns that result again.  It never returns
    more credentials than the cache holds; it returns all of them exactly
    when none is a configuration entry, and none exactly when all are. *)
Theorem X14_GetEntries_properties c :
  GetEntries (mkCCache (Version c) (Header c) (DefaultPrincipal c)
                       (GetEntries c) (Path c)) = GetEntries c /\
  (List.length (GetEntries c) <= List.length (Credentials c))%nat /\
  (GetEntries c = Credentials c <->
   Forall (fun cred => is_config cred = false) (Credentials c)) /\
  (GetEntries c = [] <->
   Forall (fun cred => is_config cred = true) (Credentials c)).
Proof. apply GetEntries_properties. Qed.

(** X15.  In a credential [parse_credential] returns, the is-skey flag is
    set exactly when the byte before the four flag bytes is not zero,
    whatever its value; the two counts behind the flags, of addresses and of
    authorization data, were read as numbers that are not negative (on a
    negative count [make] panics) and are the numbers of entries decoded. *)
Theorem X15_skey_and_counts h b c e p cred err p' :
  parse_credential h b c e p = Done ((cred, err), p') ->
  exists q x na q1 nd q2,
    subslice b q (q + 1) = Done [x] /\
    IsSKey cred = negb (Byte.eqb x x00) /\
    read_Bytes b 4 e (q + 1) = Done (TicketFlags cred, q + 5) /\
    read_int32 b e (q + 5) = Done (na, q + 9) /\
    0 <= na /\ na = Z.of_nat (List.length (Addresses cred)) /\
    times (List.length (Addresses cred)) (read_address b e) (q + 9)
    = Done (Addresses cred, q1) /\
    read_int32 b e q1 = Done (nd, q1 + 4) /\
    0 <= nd /\ nd = Z.of_nat (List.length (AuthData cred)) /\
    times (List.length (AuthData cred)) (read_authDataEntry b e) (q1 + 4)
    = Done (AuthData cred, q2).
Proof. apply parse_credential_skey_and_counts. Qed.

Lemma X15_skey_and_counts_witness :
  exists q x,
    subslice (of_bytes (two_credentials 3)) q (q + 1) = Done [x] /\
    IsSKey (sample_credential krbtgt_principal) = negb (Byte.eqb x x00) /\
    read_int32 (of_bytes (two_credentials 3)) BigEndian (q + 5)
    = Done (Z.of_nat (List.length (Addresses (sample_credential krbtgt_principal))),
            q + 9).
Proof.
  destruct (X15_skey_and_counts amd64 (of_bytes (two_credentials 3))
              (set_Version CCache0 3) BigEndian 33
              (sample_credential krbtgt_principal) None 180
              ltac:(vm_compute; reflexivity))
    as (q & x & na & q1 & nd & q2 & H1 & H2 & _ & H4 & _ & H6 & _).
  exists q, x. split; [exact H1|]. split; [exact H2|].
  rewrite <- H6. exact H4.
Defined.

(** X16.  When the file cannot be read, [LoadCCache] returns the zero
    cache and the error of the read.  When it can, [LoadCCache] panics on a
    file of fewer than two bytes, the empty file among them, unless its one
    byte is a wrong magic byte; and what it returns is what [ParseCCache]
    returns on the bytes, with the path set: also beside a decoding error,
    and then with no credentials, the zero header and the zero principal. *)
Theorem X16_LoadCCache (ReadFile : string -> byteslice * error) h cpath :
  match ReadFile cpath with
  | (_, Some e) => LoadCCache ReadFile h cpath = Done (CCache0, Some e)
  | (k, None) =>
      ((List.length (elems k) < 2)%nat ->
       (forall x, hd_error (elems k) = Some x -> x = x05) ->
       LoadCCache ReadFile h cpath = Panic) /\
      (forall c err,
         LoadCCache ReadFile h cpath = Done (c, err) ->
         Path c = cpath /\
         ParseCCache h k = Done (set_Path c "", err) /\
         (err <> None ->
          Credentials c = [] /\ Header c = header0 /\
          DefaultPrincipal c = principal0))
  end.
Proof. apply LoadCCache_cases. Qed.

Lemma X16_LoadCCache_witness :
  LoadCCache (one_file "/tmp/krb5cc_1000" []) amd64 "/tmp/krb5cc_1000" = Panic /\
  LoadCCache (one_file "/tmp/krb5cc_1000" []) amd64 "/tmp/krb5cc_0"
  = Done (CCache0, Some "open: no such file or directory"%string) /\
  Path (set_Path (set_Version CCache0 4) "/tmp/krb5cc_1000") = "/tmp/krb5cc_1000"%string.
Proof.
  pose proof (X16_LoadCCache (one_file "/tmp/krb5cc_1000" []) amd64
                "/tmp/krb5cc_1000") as H1.
  pose proof (X16_LoadCCache (one_file "/tmp/krb5cc_1000" []) amd64
                "/tmp/krb5cc_0") as H2.
  pose proof (X16_LoadCCache (one_file "/tmp/krb5cc_1000" v4_short_field) amd64
                "/tmp/krb5cc_1000") as H3.
  cbv beta iota zeta delta [one_file String.eqb Ascii.eqb Bool.eqb] in H1, H2, H3.
  destruct H1 as (H1 & _). destruct H3 as (_ & H3).
  split; [apply H1; [cbn; lia | intros x Hx; discriminate Hx]|].
  split; [exact H2|].
  apply (H3 _ (Some errHeaderField)). vm_compute. reflexivity.
Defined.
